(** * Technical-Drawing-Practice: the geometric engine

    A shallow embedding of the voxel engine of the repository:
    - [services/projectionCalculator]: bounding dimensions, the three
      orthographic silhouettes and the inverse lookup of a silhouette cell;
    - [services/shapeGenerator]: normalisation, quarter turn and random
      growth of a solid;
    - [normalize2DGrid] (App.tsx and the tutor service): normalisation of a
      silhouette grid, and the tutor's [compareGridsForHint];
    - [components/OrthographicGrid]: the bounding box of a drawing;
    - [App]: the student's drawings, their toggles and their validation, and
      the shape stored for a new exercise;
    - [components/IsometricView]: face visibility of the isometric renderer.

    Grid coordinates are JavaScript numbers that only ever hold integers
    here; they are modelled as [Z].  Nested JavaScript arrays are lists, read
    with the same "missing row or cell is empty" guards as the source. *)

From Stdlib Require Import ZArith List Lia Bool Floats Uint63.
From stdpp Require Import base option list list_numbers gmap strings.

Local Open Scope Z_scope.

(** ** constants.ts *)

Definition GRID_SIZE : Z := 8.
Definition MAX_REGEN_ATTEMPTS : nat := 50.

(** ** types.ts *)

(** [BlockCoordinates] is the object [{x, y, z}]; its key form
    [`${x},${y},${z}`] is injective on integer triples, so the triple itself
    serves as the key of the generator's [Map] and [Set]. *)
Abbreviation BlockCoordinates := (Z * Z * Z)%type.

(** [PolyCube = number[][][]], indexed [x][y][z]. *)
Abbreviation PolyCube := (list (list (list Z))).

(** [OrthographicGridState = number[][]], indexed [row][col]. *)
Abbreviation OrthographicGridState := (list (list Z)).

Record ViewOffsets := mkOffsets { off_x : Z; off_y : Z }.

Record Dimensions := mkDims { width : Z; height : Z; depth : Z }.

Inductive ViewType := ViewFront | ViewTop | ViewSide.

Record OrthographicViews := mkViews {
  front : OrthographicGridState;
  top : OrthographicGridState;
  side : OrthographicGridState;
  frontOffsets : ViewOffsets;
  topOffsets : ViewOffsets;
  sideOffsets : ViewOffsets
}.

(** ** Array access *)

(** [arr[i]] for an integer [i]: [undefined] (here [None]) outside the
    array. *)
Definition idx {A} (l : list A) (i : Z) : option A :=
  if 0 <=? i then l !! Z.to_nat i else None.

(** [polyCube[x] && polyCube[x][y] && polyCube[x][y][z] === 1] *)
Definition hasBlock (p : PolyCube) (b : BlockCoordinates) : bool :=
  let '(x, y, z) := b in
  match idx p x with
  | Some px =>
      match idx px y with
      | Some pxy =>
          match idx pxy z with
          | Some v => v =? 1
          | None => false
          end
      | None => false
      end
  | None => false
  end.

(** [grid[r] && grid[r][c] === 1] *)
Definition hasCell (g : OrthographicGridState) (rc : Z * Z) : bool :=
  let '(r, c) := rc in
  match idx g r with
  | Some gr =>
      match idx gr c with
      | Some v => v =? 1
      | None => false
      end
  | None => false
  end.

(** The value stored at [grid[r][c]], when both indices exist. *)
Definition cellAt (g : OrthographicGridState) (r c : Z) : option Z :=
  match idx g r with
  | Some gr => idx gr c
  | None => None
  end.

(** The value stored at [polyCube[x][y][z]], when the indices exist. *)
Definition voxelAt (p : PolyCube) (b : BlockCoordinates) : option Z :=
  let '(x, y, z) := b in
  match idx p x with
  | Some px =>
      match idx px y with
      | Some pxy => idx pxy z
      | None => None
      end
  | None => None
  end.

(** [grid[r][c] = v] and [cube[x][y][z] = v].  Every such write in the
    source targets an existing cell (the index is range-checked or is a
    coordinate of the scan shifted by a minimum), so the growth of a
    JavaScript array on an out-of-range write never comes into play. *)
Definition set2 (g : OrthographicGridState) (r c v : Z) : OrthographicGridState :=
  alter (λ row, <[Z.to_nat c := v]> row) (Z.to_nat r) g.

Definition set3 (p : PolyCube) (b : BlockCoordinates) (v : Z) : PolyCube :=
  let '(x, y, z) := b in
  alter (alter (λ col, <[Z.to_nat z := v]> col) (Z.to_nat y)) (Z.to_nat x) p.

(** [Array(rows).fill(0).map(() => Array(cols).fill(0))] *)
Definition createEmptyGrid (rows cols : Z) : OrthographicGridState :=
  replicate (Z.to_nat rows) (replicate (Z.to_nat cols) 0).

(** The cube of zeros built by the three nested [Array(GRID_SIZE)]. *)
Definition emptyPolyCube : PolyCube :=
  replicate (Z.to_nat GRID_SIZE)
    (replicate (Z.to_nat GRID_SIZE) (replicate (Z.to_nat GRID_SIZE) 0)).

(** The order in which [for x .. for y .. for z ..] visits the grid. *)
Definition scan3 : list BlockCoordinates :=
  x ← seqZ 0 GRID_SIZE; y ← seqZ 0 GRID_SIZE; z ← seqZ 0 GRID_SIZE; [(x, y, z)].

(** The order in which [for r .. for c ..] visits a silhouette. *)
Definition scan2 : list (Z * Z) :=
  r ← seqZ 0 GRID_SIZE; c ← seqZ 0 GRID_SIZE; [(r, c)].

(** The occupied voxels a scan meets, in scan order. *)
Definition blocksOf (p : PolyCube) : list BlockCoordinates :=
  filter (λ b, hasBlock p b = true) scan3.

Definition cellsOf (g : OrthographicGridState) : list (Z * Z) :=
  filter (λ rc, hasCell g rc = true) scan2.

(** ** projectionCalculator: calculateDimensions *)

Record Bounds3 := mkBounds3 {
  minX : Z; maxX : Z; minY : Z; maxY : Z; minZ : Z; maxZ : Z
}.

Definition boundsStep (p : PolyCube) (s : Bounds3) (b : BlockCoordinates) : Bounds3 :=
  let '(x, y, z) := b in
  if hasBlock p b then
    mkBounds3 (Z.min (minX s) x) (Z.max (maxX s) x)
              (Z.min (minY s) y) (Z.max (maxY s) y)
              (Z.min (minZ s) z) (Z.max (maxZ s) z)
  else s.

Definition calculateDimensions (p : PolyCube) : Dimensions :=
  let s := fold_left (boundsStep p) scan3
             (mkBounds3 GRID_SIZE (-1) GRID_SIZE (-1) GRID_SIZE (-1)) in
  if maxX s =? -1 then mkDims 0 0 0
  else mkDims (maxX s - minX s + 1) (maxY s - minY s + 1) (maxZ s - minZ s + 1).

(** ** projectionCalculator: calculateOrthographicProjections *)

(** The forward formulas of the three views: canvas (row, col) of a voxel. *)
Definition frontCell (o : ViewOffsets) (b : BlockCoordinates) : Z * Z :=
  let '(x, y, z) := b in (GRID_SIZE - 1 - (y + off_y o), x + off_x o).

Definition topCell (o : ViewOffsets) (b : BlockCoordinates) : Z * Z :=
  let '(x, y, z) := b in (x + off_y o, z + off_x o).

Definition sideCell (o : ViewOffsets) (b : BlockCoordinates) : Z * Z :=
  let '(x, y, z) := b in (GRID_SIZE - 1 - (y + off_y o), z + off_x o).

Definition forwardCell (v : ViewType) : ViewOffsets → BlockCoordinates → Z * Z :=
  match v with
  | ViewFront => frontCell
  | ViewTop => topCell
  | ViewSide => sideCell
  end.

(** [if (row >= 0 && row < GRID_SIZE && col >= 0 && col < GRID_SIZE)
       view[row][col] = 1] *)
Definition markCell (g : OrthographicGridState) (rc : Z * Z) : OrthographicGridState :=
  let '(r, c) := rc in
  if (0 <=? r) && (r <? GRID_SIZE) && (0 <=? c) && (c <? GRID_SIZE)
  then set2 g r c 1 else g.

Record ViewsAcc := mkAcc {
  frontView : OrthographicGridState;
  topView : OrthographicGridState;
  sideView : OrthographicGridState
}.

Definition projectStep (p : PolyCube) (fo to so : ViewOffsets)
    (a : ViewsAcc) (b : BlockCoordinates) : ViewsAcc :=
  if hasBlock p b then
    mkAcc (markCell (frontView a) (frontCell fo b))
          (markCell (topView a) (topCell to b))
          (markCell (sideView a) (sideCell so b))
  else a.

(** One silhouette of the single pass, taken on its own. *)
Definition markAll (p : PolyCube) (f : BlockCoordinates → Z * Z)
    (l : list BlockCoordinates) (g : OrthographicGridState) : OrthographicGridState :=
  fold_left (λ g b, if hasBlock p b then markCell g (f b) else g) l g.

Definition calculateOrthographicProjections (p : PolyCube) (d : Dimensions)
    : OrthographicViews :=
  if (width d =? 0) || (height d =? 0) || (depth d =? 0) then
    mkViews (createEmptyGrid GRID_SIZE GRID_SIZE)
            (createEmptyGrid GRID_SIZE GRID_SIZE)
            (createEmptyGrid GRID_SIZE GRID_SIZE)
            (mkOffsets 0 0) (mkOffsets 0 0) (mkOffsets 0 0)
  else
    let offsetXFront := (GRID_SIZE - width d) `div` 2 in
    let offsetYFront := (GRID_SIZE - height d) `div` 2 in
    let offsetXTop := (GRID_SIZE - depth d) `div` 2 in
    let offsetYTop := (GRID_SIZE - width d) `div` 2 in
    let offsetXSide := (GRID_SIZE - depth d) `div` 2 in
    let offsetYSide := (GRID_SIZE - height d) `div` 2 in
    let fo := mkOffsets offsetXFront offsetYFront in
    let to := mkOffsets offsetXTop offsetYTop in
    let so := mkOffsets offsetXSide offsetYSide in
    let a := fold_left (projectStep p fo to so) scan3
               (mkAcc (createEmptyGrid GRID_SIZE GRID_SIZE)
                      (createEmptyGrid GRID_SIZE GRID_SIZE)
                      (createEmptyGrid GRID_SIZE GRID_SIZE)) in
    mkViews (frontView a) (topView a) (sideView a) fo to so.

Definition viewGrid (v : ViewType) (vs : OrthographicViews) : OrthographicGridState :=
  match v with
  | ViewFront => front vs
  | ViewTop => top vs
  | ViewSide => side vs
  end.

Definition viewOffsets (v : ViewType) (vs : OrthographicViews) : ViewOffsets :=
  match v with
  | ViewFront => frontOffsets vs
  | ViewTop => topOffsets vs
  | ViewSide => sideOffsets vs
  end.

(** ** projectionCalculator: find3DBlocksFor2DCell *)

(** The test of one [case] of the [switch].  The source subtracts doubles;
    the differences below are those of the source as long as the row, the
    column and the offsets are integers that the doubles hold with their
    sums and differences ([exactInteger] below), as the cells of the canvas
    and the offsets of a cube's own dimensions are. *)
Definition projectsTo (v : ViewType) (row col : Z) (o : ViewOffsets)
    (b : BlockCoordinates) : bool :=
  let '(x, y, z) := b in
  match v with
  | ViewFront =>
      let targetFrontX := col - off_x o in
      let targetFrontY := GRID_SIZE - 1 - row - off_y o in
      (x =? targetFrontX) && (y =? targetFrontY)
  | ViewTop =>
      let targetTopX := row - off_y o in
      let targetTopZ := col - off_x o in
      (x =? targetTopX) && (z =? targetTopZ)
  | ViewSide =>
      let targetSideZ := col - off_x o in
      let targetSideY := GRID_SIZE - 1 - row - off_y o in
      (z =? targetSideZ) && (y =? targetSideY)
  end.

Definition find3DBlocksFor2DCell (p : PolyCube) (v : ViewType) (row col : Z)
    (o : ViewOffsets) (dimensions : Dimensions) : list BlockCoordinates :=
  fold_left
    (λ contributingBlocks b,
       if hasBlock p b && projectsTo v row col o b
       then contributingBlocks ++ [b] else contributingBlocks)
    scan3 [].

(** ** shapeGenerator: normalizePolyCube *)

Record NormScan := mkNormScan {
  blocks : list BlockCoordinates;
  nMinX : Z; nMinY : Z; nMinZ : Z
}.

Definition normScanStep (p : PolyCube) (s : NormScan) (b : BlockCoordinates) : NormScan :=
  let '(x, y, z) := b in
  if hasBlock p b then
    mkNormScan (blocks s ++ [b])
               (Z.min (nMinX s) x) (Z.min (nMinY s) y) (Z.min (nMinZ s) z)
  else s.

Definition normScan (p : PolyCube) : NormScan :=
  fold_left (normScanStep p) scan3 (mkNormScan [] GRID_SIZE GRID_SIZE GRID_SIZE).

Definition shiftBlock (s : NormScan) (b : BlockCoordinates) : BlockCoordinates :=
  let '(x, y, z) := b in (x - nMinX s, y - nMinY s, z - nMinZ s).

Definition normalizePolyCube (p : PolyCube) : PolyCube :=
  let s := normScan p in
  fold_left (λ normalizedPolyCube block, set3 normalizedPolyCube (shiftBlock s block) 1)
    (blocks s) emptyPolyCube.

(** ** normalize2DGrid (App.tsx, tutor service) *)

Record Size2D := mkSize { size_width : Z; size_height : Z }.

Record Normalized2D := mkNormalized2D {
  normalizedGrid : OrthographicGridState;
  dimensions : Size2D
}.

Record Scan2D := mkScan2D {
  filledCells : list (Z * Z);
  minR : Z; maxR : Z; minC : Z; maxC : Z
}.

Definition scan2DStep (g : OrthographicGridState) (s : Scan2D) (rc : Z * Z) : Scan2D :=
  let '(r, c) := rc in
  if hasCell g rc then
    mkScan2D (filledCells s ++ [rc])
             (Z.min (minR s) r) (Z.max (maxR s) r)
             (Z.min (minC s) c) (Z.max (maxC s) c)
  else s.

Definition scanGrid (g : OrthographicGridState) : Scan2D :=
  fold_left (scan2DStep g) scan2 (mkScan2D [] GRID_SIZE (-1) GRID_SIZE (-1)).

Definition normalize2DGrid (g : OrthographicGridState) : Normalized2D :=
  let s := scanGrid g in
  if (length (filledCells s) =? 0)%nat then mkNormalized2D [] (mkSize 0 0)
  else
    let w := maxC s - minC s + 1 in
    let h := maxR s - minR s + 1 in
    mkNormalized2D
      (fold_left (λ grid '(r, c), set2 grid (r - minR s) (c - minC s) 1)
         (filledCells s) (createEmptyGrid h w))
      (mkSize w h).

(** ** The random source *)

(** [Math.random()] returns a number in [0, 1).  A draw is modelled as the
    rational [u_num / (u_num + u_gap + 1)], which ranges over exactly the
    rationals of that interval.  The generator uses each draw once, as
    [Math.floor(Math.random() * n)] for a small integer [n]; the rounding of
    the product in doubles never reaches [n], so the results are the
    integers 0 .. n - 1 here as there. *)
Record Unit01 := mkUnit01 { u_num : nat; u_gap : nat }.

(** [Math.floor(u * n)] for an integer [n]. *)
Definition floorMul (u : Unit01) (n : Z) : Z :=
  (Z.of_nat (u_num u) * n) `div` (Z.of_nat (u_num u) + Z.of_nat (u_gap u) + 1).

(** The generator is the only caller of [Math.random]; the source of
    randomness is an infinite sequence of draws and the position of the next
    one. *)
Record RandomSource := mkRandomSource { draws : nat → Unit01; drawn : nat }.

Definition Rand (A : Type) : Type := RandomSource → A * RandomSource.

Definition ret {A} (a : A) : Rand A := λ s, (a, s).

Definition bind {A B} (m : Rand A) (k : A → Rand B) : Rand B :=
  λ s, let '(a, s') := m s in k a s'.

Notation "'let*' x := m 'in' k" := (bind m (λ x, k))
  (at level 10, x name, m at level 100, k at level 200).

Definition random : Rand Unit01 :=
  λ s, (draws s (drawn s), mkRandomSource (draws s) (S (drawn s))).

(** ** shapeGenerator: generateContiguousShape *)

Inductive Level := LEVEL_1 | LEVEL_2 | LEVEL_3.

Record BlockCount := mkBlockCount { min : Z; max : Z }.

Definition BLOCK_COUNTS_BY_LEVEL (level : Level) : BlockCount :=
  match level with
  | LEVEL_1 => mkBlockCount 4 7
  | LEVEL_2 => mkBlockCount 7 10
  | LEVEL_3 => mkBlockCount 10 15
  end.

Definition neighbors : list BlockCoordinates :=
  [(1, 0, 0); (-1, 0, 0); (0, 1, 0); (0, -1, 0); (0, 0, 1); (0, 0, -1)].

Definition addBlock (b d : BlockCoordinates) : BlockCoordinates :=
  let '(x, y, z) := b in
  let '(dx, dy, dz) := d in (x + dx, y + dy, z + dz).

Definition inGrid (b : BlockCoordinates) : bool :=
  let '(nx, ny, nz) := b in
  (0 <=? nx) && (nx <? GRID_SIZE) &&
  (0 <=? ny) && (ny <? GRID_SIZE) &&
  (0 <=? nz) && (nz <? GRID_SIZE).

(** [tempBlockMap.has(key)] *)
Definition mapHas (m : gmap BlockCoordinates bool) (k : BlockCoordinates) : bool :=
  bool_decide (is_Some (m !! k)).

(** [potentialPointsSet.has(key)] *)
Definition setHas (s : gset BlockCoordinates) (k : BlockCoordinates) : bool :=
  bool_decide (k ∈ s).

Record GrowState := mkGrowState {
  tempBlockMap : gmap BlockCoordinates bool;
  existingBlocks : list BlockCoordinates
}.

Record Candidates := mkCandidates {
  potentialPoints : list BlockCoordinates;
  potentialPointsSet : gset BlockCoordinates
}.

(** The body of the two nested [for .. of] loops, for one neighbour cell. *)
Definition candidateStep (m : gmap BlockCoordinates bool)
    (c : Candidates) (n : BlockCoordinates) : Candidates :=
  if inGrid n && negb (mapHas m n) && negb (setHas (potentialPointsSet c) n)
  then mkCandidates (potentialPoints c ++ [n]) ({[n]} ∪ potentialPointsSet c)
  else c.

Definition collectCandidates (st : GrowState) : Candidates :=
  fold_left (candidateStep (tempBlockMap st))
    (b ← existingBlocks st; d ← neighbors; [addBlock b d])
    (mkCandidates [] ∅).

(** [Array.prototype.sort] is stable; an element moves behind those it
    compares greater than.  [after a b] is [compare(a, b) > 0]. *)
Fixpoint insertSorted {A} (after : A → A → bool) (a : A) (l : list A) : list A :=
  match l with
  | [] => [a]
  | b :: l' => if after a b then b :: insertSorted after a l' else a :: l
  end.

Definition stableSort {A} (after : A → A → bool) (l : list A) : list A :=
  foldr (insertSorted after) [] l.

(** [(a, b) => b.y - a.y] *)
Definition byHeightDesc (a b : BlockCoordinates) : bool :=
  0 <? snd (fst b) - snd (fst a).

Definition pushBlock (st : GrowState) (nextBlock : BlockCoordinates) : GrowState :=
  mkGrowState (<[nextBlock := true]> (tempBlockMap st))
              (existingBlocks st ++ [nextBlock]).

(** The loop [for (count = 1; count < targetBlocks; count++)]; [iters] is
    the number of iterations still to run, and both [break]s leave the loop
    with the state reached so far. *)
Fixpoint grow (iters : nat) (st : GrowState) : Rand GrowState :=
  match iters with
  | O => ret st
  | S iters' =>
      let pts := potentialPoints (collectCandidates st) in
      if (length pts =? 0)%nat then ret st
      else
        let sorted := stableSort byHeightDesc pts in
        let* u := random in
        match idx sorted (floorMul u (Z.min (Z.of_nat (length sorted)) 5)) with
        | None => ret st
        | Some nextBlock => grow iters' (pushBlock st nextBlock)
        end
  end.

Definition toPolyCube (bs : list BlockCoordinates) : PolyCube :=
  fold_left (λ currentPolyCube b, set3 currentPolyCube b 1) bs emptyPolyCube.

(** One pass through the body of the [while] loop: [Some] is the [return],
    [None] is [attempts++; continue]. *)
Definition attempt (minBlocks targetBlocks : Z) : Rand (option PolyCube) :=
  let* u1 := random in
  let startX := floorMul u1 (GRID_SIZE `div` 2) in
  let startY := 0 in
  let* u2 := random in
  let startZ := floorMul u2 (GRID_SIZE `div` 2) in
  let start := (startX, startY, startZ) in
  let* st := grow (Z.to_nat (targetBlocks - 1))
               (mkGrowState {[start := true]} [start]) in
  if Z.of_nat (length (existingBlocks st)) <? minBlocks then ret None
  else
    let normalizedPolyCube := normalizePolyCube (toPolyCube (existingBlocks st)) in
    let d := calculateDimensions normalizedPolyCube in
    if (GRID_SIZE <? width d) || (GRID_SIZE <? height d) || (GRID_SIZE <? depth d)
       || (width d =? 0)
    then ret None
    else ret (Some normalizedPolyCube).

(** [while (attempts < MAX_REGEN_ATTEMPTS)], by the attempts still allowed. *)
Fixpoint attemptLoop (remaining : nat) (minBlocks targetBlocks : Z)
    : Rand (option PolyCube) :=
  match remaining with
  | O => ret None
  | S remaining' =>
      let* r := attempt minBlocks targetBlocks in
      match r with
      | Some p => ret (Some p)
      | None => attemptLoop remaining' minBlocks targetBlocks
      end
  end.

Definition drawTarget (level : Level) (u : Unit01) : Z :=
  let c := BLOCK_COUNTS_BY_LEVEL level in
  floorMul u (max c - min c + 1) + min c.

Definition generateContiguousShape (level : Level) : Rand (option PolyCube) :=
  let* u := random in
  let targetBlocks := drawTarget level u in
  attemptLoop MAX_REGEN_ATTEMPTS (min (BLOCK_COUNTS_BY_LEVEL level)) targetBlocks.

(** ** IsometricView: rotation and face visibility *)

(** Angles, rotated coordinates and dot products are IEEE doubles.
    [Math.cos] and [Math.sin] belong to the host; ECMAScript fixes their
    value at [+0] ([Math.cos(+0)] is [1], [Math.sin(+0)] is [+0]), and nothing
    more is assumed of them. *)
Class JSMath := mkJSMath {
  Math_cos : float → float;
  Math_sin : float → float;
  Math_cos_zero : Math_cos 0%float = 1%float;
  Math_sin_zero : Math_sin 0%float = 0%float
}.

(** An integer held in a double (exact below 2^53). *)
Definition numberOfZ (n : Z) : float :=
  if n <? 0 then PrimFloat.opp (PrimFloat.of_uint63 (Uint63.of_Z (- n)))
  else PrimFloat.of_uint63 (Uint63.of_Z n).

Record Rotated3DPoint := mkPoint { px : float; py : float; pz : float }.

Record DrawableBlock := mkDrawableBlock {
  original : BlockCoordinates;
  rotated : Rotated3DPoint;
  blockDepth : float
}.

Record FaceDefinition := mkFace {
  corners : list nat;
  normal : BlockCoordinates
}.

Definition VIEW_DIRECTION_VECTOR : Rotated3DPoint :=
  mkPoint 0.5%float 0.5%float 0.5%float.

Definition topFace : FaceDefinition := mkFace [2; 4; 7; 6]%nat (0, 1, 0).
Definition bottomFace : FaceDefinition := mkFace [0; 3; 5; 1]%nat (0, -1, 0).
Definition frontFace : FaceDefinition := mkFace [3; 6; 7; 5]%nat (0, 0, 1).
Definition backFace : FaceDefinition := mkFace [0; 1; 4; 2]%nat (0, 0, -1).
Definition rightFace : FaceDefinition := mkFace [1; 5; 7; 4]%nat (1, 0, 0).
Definition leftFace : FaceDefinition := mkFace [0; 2; 6; 3]%nat (-1, 0, 0).

Definition UNIT_CUBE_FACES : list FaceDefinition :=
  [topFace; bottomFace; frontFace; backFace; rightFace; leftFace].

(** What [drawIsometricBlockFaces] hands to the canvas for one face: the
    block, the face, the fill rule that applied and whether the outline is
    dashed.  The screen-space corner points and the hex arithmetic of the
    fill colour are left to the canvas. *)
Inductive Fill :=
| GreyBackLeft
| ShadeTop | ShadeFront | ShadeSide | ShadeBottom | ShadeFallback.

Record DrawnFace := mkDrawnFace {
  drawnBlock : BlockCoordinates;
  drawnFace : FaceDefinition;
  drawnFill : Fill;
  drawnDashed : bool
}.

(** What one run of the render effect does: whether it resets the two
    angles, the value it leaves in [prevPolyCubeRef.current], and the faces
    it draws, in drawing order. *)
Record EffectRun := mkEffectRun {
  anglesReset : bool;
  prevPolyCubeAfter : option PolyCube;
  facesDrawn : list DrawnFace
}.

Section Renderer.
Context `{JSMath}.
Local Open Scope float_scope.

Definition applyRotation (x y z rotationX rotationY : float) : Rotated3DPoint :=
  let cosY := Math_cos rotationY in
  let sinY := Math_sin rotationY in
  let _x := x * cosY + z * sinY in
  let _z := (- x) * sinY + z * cosY in
  let _y := y in
  let cosX := Math_cos rotationX in
  let sinX := Math_sin rotationX in
  let finalY := _y * cosX - _z * sinX in
  let finalZ := _y * sinX + _z * cosX in
  let finalX := _x in
  mkPoint finalX finalY finalZ.

Definition rotateVector (vx vy vz rotationX rotationY : float) : Rotated3DPoint :=
  applyRotation vx vy vz rotationX rotationY.

(** [isNaturallyExposed]: the neighbour cell of the unrotated grid in the
    direction of the face normal is outside the grid or not a block. *)
Definition isNaturallyExposed (p : PolyCube) (b : BlockCoordinates)
    (face : FaceDefinition) : bool :=
  let '(neighborX, neighborY, neighborZ) := addBlock b (normal face) in
  ((neighborX <? 0) || (GRID_SIZE <=? neighborX) ||
   (neighborY <? 0) || (GRID_SIZE <=? neighborY) ||
   (neighborZ <? 0) || (GRID_SIZE <=? neighborZ) ||
   match voxelAt p (neighborX, neighborY, neighborZ) with
   | Some v => negb (v =? 1)
   | None => true
   end)%Z.

Definition dotProduct (face : FaceDefinition) (rotationX rotationY : float) : float :=
  let '(nx, ny, nz) := normal face in
  let rotatedNormal :=
    rotateVector (numberOfZ nx) (numberOfZ ny) (numberOfZ nz) rotationX rotationY in
  px rotatedNormal * px VIEW_DIRECTION_VECTOR +
  py rotatedNormal * py VIEW_DIRECTION_VECTOR +
  pz rotatedNormal * pz VIEW_DIRECTION_VECTOR.

Definition isFacingCamera (face : FaceDefinition) (rotationX rotationY : float) : bool :=
  0 <? dotProduct face rotationX rotationY.

(** The fill rule of a face that is drawn. *)
Definition faceStyle (face : FaceDefinition) : Fill * bool :=
  let '(nx, ny, nz) := normal face in
  (if (nz <? 0) || (nx <? 0) then (GreyBackLeft, true)
   else if 0 <? ny then (ShadeTop, false)
   else if 0 <? nz then (ShadeFront, false)
   else if 0 <? nx then (ShadeSide, false)
   else if ny <? 0 then (ShadeBottom, false)
   else (ShadeFallback, false))%Z.

(** The loop [for (const face of UNIT_CUBE_FACES)]: a face that is not
    naturally exposed is skipped by [continue] before its normal is
    rotated. *)
Definition drawFace (p : PolyCube) (b : BlockCoordinates)
    (rotationX rotationY : float) (face : FaceDefinition) : list DrawnFace :=
  if negb (isNaturallyExposed p b face) then []
  else if isFacingCamera face rotationX rotationY then
    let '(fill, dashed) := faceStyle face in [mkDrawnFace b face fill dashed]
  else [].

Definition drawIsometricBlockFaces (p : PolyCube) (b : BlockCoordinates)
    (rotationX rotationY : float) : list DrawnFace :=
  face ← UNIT_CUBE_FACES; drawFace p b rotationX rotationY face.

(** The first pass of the render effect: one [DrawableBlock] per block of
    the scan. *)
Definition drawable (rotationX rotationY : float) (b : BlockCoordinates)
    : DrawableBlock :=
  let '(x, y, z) := b in
  let rotatedCenter :=
    applyRotation (numberOfZ x + 0.5) (numberOfZ y + 0.5) (numberOfZ z + 0.5)
      rotationX rotationY in
  mkDrawableBlock b rotatedCenter
    (px rotatedCenter + py rotatedCenter + pz rotatedCenter).

Definition activeBlocks (p : PolyCube) (rotationX rotationY : float)
    : list DrawableBlock :=
  fold_left
    (λ acc b, if hasBlock p b then acc ++ [drawable rotationX rotationY b] else acc)
    scan3 [].

(** [(a, b) => a.depth - b.depth]; a comparison that yields [NaN] counts
    as a tie. *)
Definition byDepth (a b : DrawableBlock) : bool :=
  0 <? blockDepth a - blockDepth b.

(** The drawing part of the render effect, which a run reaches only past
    the check for a changed polyCube and with a canvas context
    ([renderEffect] below): the faces in drawing order.  Nothing is drawn
    for an empty array or an empty solid (the effect prints a placeholder
    text instead). *)
Definition render (p : PolyCube) (rotationX rotationY : float) : list DrawnFace :=
  if (length p =? 0)%nat || (width (calculateDimensions p) =? 0)%Z then []
  else
    block ← stableSort byDepth (activeBlocks p rotationX rotationY);
    drawIsometricBlockFaces p (original block) rotationX rotationY.

(** [JSON.stringify(polyCube) !== JSON.stringify(prevPolyCubeRef.current)];
    [None] is the [null] the ref starts with.  On nested arrays of integers
    [JSON.stringify] is injective, and no array prints as [null]. *)
Definition isPolyCubeChanged (prevPolyCube : option PolyCube) (p : PolyCube) : bool :=
  bool_decide (prevPolyCube ≠ Some p).

(** One run of the render effect.  A run for a polyCube that differs from
    the one the ref holds resets the angles, stores the polyCube and returns
    without drawing; a run without a canvas or a 2d context ([hasContext]
    false) returns as well; only a later run draws. *)
Definition renderEffect (hasContext : bool) (prevPolyCube : option PolyCube)
    (p : PolyCube) (rotationX rotationY : float) : EffectRun :=
  if isPolyCubeChanged prevPolyCube p then mkEffectRun true (Some p) []
  else if negb hasContext then mkEffectRun false prevPolyCube []
  else mkEffectRun false prevPolyCube (render p rotationX rotationY).
End Renderer.

(** A host whose cosine and sine are short Taylor polynomials; it only
    serves to run the renderer on examples. *)
Definition polyCos (a : float) : float :=
  (1 - a * a / 2 + a * a * a * a / 24)%float.

Definition polySin (a : float) : float :=
  (a - a * a * a / 6 + a * a * a * a * a / 120)%float.

Definition polyMath : JSMath := mkJSMath polyCos polySin eq_refl eq_refl.

(** ** Vocabulary of the properties *)

Definition xOf (b : BlockCoordinates) : Z := fst (fst b).
Definition yOf (b : BlockCoordinates) : Z := snd (fst b).
Definition zOf (b : BlockCoordinates) : Z := snd b.

(** The running [Math.min] and [Math.max] of a scan. *)
Definition minOver {A} (f : A → Z) (init : Z) (l : list A) : Z :=
  fold_left (λ m a, Z.min m (f a)) l init.

Definition maxOver {A} (f : A → Z) (init : Z) (l : list A) : Z :=
  fold_left (λ m a, Z.max m (f a)) l init.

(** [m] is the least (greatest) value [f] takes on the elements of [l]. *)
Definition isMinOf {A} (f : A → Z) (l : list A) (m : Z) : Prop :=
  (∃ a, a ∈ l ∧ f a = m) ∧ ∀ a, a ∈ l → m ≤ f a.

Definition isMaxOf {A} (f : A → Z) (l : list A) (m : Z) : Prop :=
  (∃ a, a ∈ l ∧ f a = m) ∧ ∀ a, a ∈ l → f a ≤ m.

(** The extents of a nested array: the length of every row (and column). *)
Definition shape2 (g : OrthographicGridState) : list nat := length <$> g.
Definition shape3 (p : PolyCube) : list (list nat) := shape2 <$> p.

(** A container of [h] rows of [w] cells; a cube of edge [GRID_SIZE]. *)
Definition hasExtent2 (g : OrthographicGridState) (h w : Z) : Prop :=
  shape2 g = replicate (Z.to_nat h) (Z.to_nat w).

Definition isGridCube (p : PolyCube) : Prop :=
  shape3 p = replicate (Z.to_nat GRID_SIZE)
               (replicate (Z.to_nat GRID_SIZE) (Z.to_nat GRID_SIZE)).

(** The number of occupied voxels of the grid. *)
Definition blockCount (p : PolyCube) : Z := Z.of_nat (length (blocksOf p)).

(** The specification's reading of a tight container, along the x axis of
    a cube: its extent is max - min + 1 of the occupied x coordinates. *)
Definition tightAlongX (p normalized : PolyCube) : Prop :=
  ∀ lo hi,
    isMinOf xOf (blocksOf p) lo → isMaxOf xOf (blocksOf p) hi →
    Z.of_nat (length normalized) = hi - lo + 1.

(** What [normalizePolyCube] returns for a cube with a block: a cube of
    edge [GRID_SIZE] holding 1 exactly at the occupied cells moved by the
    minimum of each axis and 0 elsewhere, so that the least occupied
    coordinate is 0 on every axis. *)
Definition normalizedCube (p : PolyCube) : Prop :=
  ∃ lx ly lz,
    isMinOf xOf (blocksOf p) lx ∧ isMinOf yOf (blocksOf p) ly ∧
    isMinOf zOf (blocksOf p) lz ∧
    isGridCube (normalizePolyCube p) ∧
    (∀ b, voxelAt (normalizePolyCube p) b
          = if inGrid b
            then Some (if decide ((xOf b + lx, yOf b + ly, zOf b + lz) ∈ blocksOf p)
                       then 1 else 0)
            else None) ∧
    isMinOf xOf (blocksOf (normalizePolyCube p)) 0 ∧
    isMinOf yOf (blocksOf (normalizePolyCube p)) 0 ∧
    isMinOf zOf (blocksOf (normalizePolyCube p)) 0.

(** What [normalize2DGrid] returns for a grid with a filled cell: a grid of
    max - min + 1 rows and columns, holding 1 exactly at the filled cells
    moved by the minimum row and column and 0 elsewhere, with these
    extents as its dimensions and least filled row and column 0. *)
Definition normalizedSilhouette (g : OrthographicGridState) : Prop :=
  ∃ lr hr lc hc,
    isMinOf fst (cellsOf g) lr ∧ isMaxOf fst (cellsOf g) hr ∧
    isMinOf snd (cellsOf g) lc ∧ isMaxOf snd (cellsOf g) hc ∧
    hasExtent2 (normalizedGrid (normalize2DGrid g)) (hr - lr + 1) (hc - lc + 1) ∧
    dimensions (normalize2DGrid g) = mkSize (hc - lc + 1) (hr - lr + 1) ∧
    (∀ r c, cellAt (normalizedGrid (normalize2DGrid g)) r c
            = if (0 <=? r) && (r <? hr - lr + 1) && (0 <=? c) && (c <? hc - lc + 1)
              then Some (if decide ((r + lr, c + lc) ∈ cellsOf g) then 1 else 0)
              else None) ∧
    isMinOf fst (cellsOf (normalizedGrid (normalize2DGrid g))) 0 ∧
    isMinOf snd (cellsOf (normalizedGrid (normalize2DGrid g))) 0.

(** Two cells differ by exactly 1 along exactly one axis. *)
Definition adjacent (a b : BlockCoordinates) : Prop :=
  (Z.abs (xOf a - xOf b) = 1 ∧ yOf a = yOf b ∧ zOf a = zOf b)
  ∨ (xOf a = xOf b ∧ Z.abs (yOf a - yOf b) = 1 ∧ zOf a = zOf b)
  ∨ (xOf a = xOf b ∧ yOf a = yOf b ∧ Z.abs (zOf a - zOf b) = 1).

(** One step of a path through the cells of [bs]. *)
Definition linkedIn (bs : list BlockCoordinates) (a b : BlockCoordinates) : Prop :=
  a ∈ bs ∧ b ∈ bs ∧ adjacent a b.

(** Any two occupied voxels are joined by a path of occupied voxels whose
    consecutive members are adjacent. *)
Definition sixConnected (p : PolyCube) : Prop :=
  ∀ a b, a ∈ blocksOf p → b ∈ blocksOf p → rtc (linkedIn (blocksOf p)) a b.

(** The lists the growth loop can reach: a seed, then cells that are a
    neighbour offset away from a cell already in the list. *)
Inductive Grown : list BlockCoordinates → Prop :=
| Grown_seed b : Grown [b]
| Grown_push bs b d :
    Grown bs → b ∈ bs → d ∈ neighbors → Grown (bs ++ [addBlock b d]).

(** What the growth loop maintains. *)
Definition growInv (st : GrowState) : Prop :=
  NoDup (existingBlocks st)
  ∧ Forall (λ b, inGrid b = true) (existingBlocks st)
  ∧ (∀ b, mapHas (tempBlockMap st) b = true ↔ b ∈ existingBlocks st)
  ∧ Grown (existingBlocks st).




Definition constSource (u : Unit01) : RandomSource := mkRandomSource (λ _, u) 0.

(** The source after one draw. *)
Definition advance (src : RandomSource) : RandomSource :=
  mkRandomSource (draws src) (S (drawn src)).

(** The bounding box of a list of cells spans, over the three axes
    together, fewer steps than the list has cells. *)
Definition boxed (bs : list BlockCoordinates) : Prop :=
  ∃ lx hx ly hy lz hz,
    isMinOf xOf bs lx ∧ isMaxOf xOf bs hx ∧
    isMinOf yOf bs ly ∧ isMaxOf yOf bs hy ∧
    isMinOf zOf bs lz ∧ isMaxOf zOf bs hz ∧
    (hx - lx) + (hy - ly) + (hz - lz) + 1 ≤ Z.of_nat (length bs).

(** ** shapeGenerator: rotatePolyCube90 *)

(** The body of the scan of [rotatePolyCube90], for one cell. *)
Definition rotateStep (p newPolyCube : PolyCube) (b : BlockCoordinates) : PolyCube :=
  let '(x, y, z) := b in
  if hasBlock p b then
    let newX := z in
    let newY := y in
    let newZ := (GRID_SIZE - 1) - x in
    if (0 <=? newX) && (newX <? GRID_SIZE) && (0 <=? newZ) && (newZ <? GRID_SIZE)
    then set3 newPolyCube (newX, newY, newZ) 1
    else newPolyCube
  else newPolyCube.

Definition rotatePolyCube90 (p : PolyCube) : PolyCube :=
  normalizePolyCube (fold_left (rotateStep p) scan3 emptyPolyCube).

(** ** OrthographicGrid: get2DGridDimensions *)

Record Bounds2 := mkBounds2 { gMinR : Z; gMaxR : Z; gMinC : Z; gMaxC : Z }.

Definition bounds2Step (g : OrthographicGridState) (s : Bounds2) (rc : Z * Z) : Bounds2 :=
  let '(r, c) := rc in
  if hasCell g rc then
    mkBounds2 (Z.min (gMinR s) r) (Z.max (gMaxR s) r)
              (Z.min (gMinC s) c) (Z.max (gMaxC s) c)
  else s.

Definition get2DGridDimensions (g : OrthographicGridState) : Size2D :=
  let s := fold_left (bounds2Step g) scan2 (mkBounds2 GRID_SIZE (-1) GRID_SIZE (-1)) in
  if gMaxR s =? -1 then mkSize 0 0
  else mkSize (gMaxC s - gMinC s + 1) (gMaxR s - gMinR s + 1).

(** ** App: the student's drawings and their validation *)

(** The state [studentDrawings]: an [OrthographicViews] whose optional
    offsets are never set. *)
Record StudentDrawings := mkDrawings {
  drawnFront : OrthographicGridState;
  drawnTop : OrthographicGridState;
  drawnSide : OrthographicGridState
}.

Definition drawingOf (v : ViewType) (s : StudentDrawings) : OrthographicGridState :=
  match v with
  | ViewFront => drawnFront s
  | ViewTop => drawnTop s
  | ViewSide => drawnSide s
  end.

(** The three grids of zeros of the initial state and of
    [initializeStudentDrawings]. *)
Definition blankDrawings : StudentDrawings :=
  mkDrawings (createEmptyGrid GRID_SIZE GRID_SIZE)
             (createEmptyGrid GRID_SIZE GRID_SIZE)
             (createEmptyGrid GRID_SIZE GRID_SIZE).

(** The state update of [handleCellToggle] on one grid:
    [grid.map((r, rIdx) => rIdx === row
       ? r.map((c, cIdx) => (cIdx === col ? (c === 1 ? 0 : 1) : c)) : r)]. *)
Definition toggleCell (g : OrthographicGridState) (row col : Z) : OrthographicGridState :=
  imap (λ rIdx r,
          if Z.of_nat rIdx =? row
          then imap (λ cIdx c,
                       if Z.of_nat cIdx =? col then (if c =? 1 then 0 else 1) else c) r
          else r) g.

(** [{ ...prev, [viewType]: newGrid }] *)
Definition handleCellToggle (row col : Z) (viewType : ViewType)
    (prev : StudentDrawings) : StudentDrawings :=
  match viewType with
  | ViewFront => mkDrawings (toggleCell (drawnFront prev) row col) (drawnTop prev) (drawnSide prev)
  | ViewTop => mkDrawings (drawnFront prev) (toggleCell (drawnTop prev) row col) (drawnSide prev)
  | ViewSide => mkDrawings (drawnFront prev) (drawnTop prev) (toggleCell (drawnSide prev) row col)
  end.

(** [normalized[r] ? normalized[r][c] : 0]; [None] stands for [undefined]. *)
Definition cellOrZero (g : OrthographicGridState) (r c : Z) : option Z :=
  match idx g r with
  | Some row => idx row c
  | None => Some 0
  end.

(** The check of one view in [validateDrawing] and in [handleAskTutor]:
    the normalised grids must have the same dimensions and the same cells;
    the first differing cell ends both loops. *)
Definition viewCorrect (student solution : OrthographicGridState) : bool :=
  let s := normalize2DGrid student in
  let t := normalize2DGrid solution in
  if negb (size_width (dimensions s) =? size_width (dimensions t))
     || negb (size_height (dimensions s) =? size_height (dimensions t))
  then false
  else
    forallb
      (λ r, forallb
              (λ c, bool_decide (cellOrZero (normalizedGrid s) r c
                                 = cellOrZero (normalizedGrid t) r c))
              (seqZ 0 (size_width (dimensions t))))
      (seqZ 0 (size_height (dimensions t))).

Record Validation := mkValidation {
  allCorrect : bool;
  incorrectViews : list ViewType
}.

(** [views.forEach(view => ...)] over ['front', 'top', 'side']. *)
Definition validateStep (student : StudentDrawings) (solution : OrthographicViews)
    (acc : Validation) (view : ViewType) : Validation :=
  if viewCorrect (drawingOf view student) (viewGrid view solution) then acc
  else mkValidation false (incorrectViews acc ++ [view]).

Definition validateDrawing (student : StudentDrawings) (solution : OrthographicViews)
    : Validation :=
  fold_left (validateStep student solution) [ViewFront; ViewTop; ViewSide]
    (mkValidation true []).

(** ** geminiService: compareGridsForHint *)

Definition outlineHint : string :=
  "The overall outline (width or height) of your drawing doesn't match the expected shape.".
Definition missingHint : string := "You seem to be missing some blocks in the shape.".
Definition extraHint : string :=
  "You've added extra blocks that shouldn't be part of the shape.".

(** [String.prototype.trim] on the ASCII strings the function builds: white
    space and line terminators are removed at both ends. *)
Fixpoint trimStart (s : string) : string :=
  match s with
  | String a s' => if Ascii.is_space a then trimStart s' else s
  | EmptyString => EmptyString
  end.

Definition trim (s : string) : string :=
  String.rev (trimStart (String.rev (trimStart s))).

Record HintCount := mkHintCount { missingCells : Z; extraCells : Z }.

(** The body of the inner loop, for the cell (r, c). *)
Definition hintStep (studentNormalized correctNormalized : OrthographicGridState)
    (r : Z) (n : HintCount) (c : Z) : HintCount :=
  let studentCell := cellOrZero studentNormalized r c in
  let correctCell := cellOrZero correctNormalized r c in
  if bool_decide (correctCell = Some 1) && bool_decide (studentCell = Some 0)
  then mkHintCount (missingCells n + 1) (extraCells n)
  else if bool_decide (correctCell = Some 0) && bool_decide (studentCell = Some 1)
  then mkHintCount (missingCells n) (extraCells n + 1)
  else n.

Definition countDifferences (studentNormalized correctNormalized : OrthographicGridState)
    (correctDims : Size2D) : HintCount :=
  fold_left
    (λ n r, fold_left (hintStep studentNormalized correctNormalized r)
              (seqZ 0 (size_width correctDims)) n)
    (seqZ 0 (size_height correctDims)) (mkHintCount 0 0).

Definition compareGridsForHint (studentGrid correctGrid : OrthographicGridState)
    : string :=
  let s := normalize2DGrid studentGrid in
  let t := normalize2DGrid correctGrid in
  let feedback :=
    if negb (size_width (dimensions s) =? size_width (dimensions t))
       || negb (size_height (dimensions s) =? size_height (dimensions t))
    then "" +:+ outlineHint
    else
      let n := countDifferences (normalizedGrid s) (normalizedGrid t) (dimensions t) in
      let feedback1 := if 0 <? missingCells n then "" +:+ missingHint else "" in
      if 0 <? extraCells n
      then (if bool_decide (feedback1 = "") then feedback1 else feedback1 +:+ " Also, ")
           +:+ extraHint
      else feedback1
  in trim feedback.

(** The cell (r, c) is counted as missing or as extra. *)
Definition differs (S T : OrthographicGridState) (r c : Z) : bool :=
  bool_decide (cellOrZero T r c = Some 1) && bool_decide (cellOrZero S r c = Some 0)
  || bool_decide (cellOrZero T r c = Some 0) && bool_decide (cellOrZero S r c = Some 1).

(** ** App: generateNewShape *)

Record Shape := mkShape {
  polyCube : PolyCube;
  views : OrthographicViews;
  shapeDimensions : Dimensions
}.

(** The shape that [generateNewShape] stores; [None] when the generator
    returned [null] and only an error message is shown. *)
Definition generateNewShape (level : Level) : Rand (option Shape) :=
  let* newPolyCube := generateContiguousShape level in
  match newPolyCube with
  | None => ret None
  | Some p =>
      let d := calculateDimensions p in
      ret (Some (mkShape p (calculateOrthographicProjections p d) d))
  end.

(** ** Vocabulary of the further properties *)

(** The running extremes of the occupied voxels, as the scans compute
    them. *)
Definition loX (p : PolyCube) : Z := minOver xOf GRID_SIZE (blocksOf p).
Definition hiX (p : PolyCube) : Z := maxOver xOf (-1) (blocksOf p).
Definition loY (p : PolyCube) : Z := minOver yOf GRID_SIZE (blocksOf p).
Definition hiY (p : PolyCube) : Z := maxOver yOf (-1) (blocksOf p).
Definition loZ (p : PolyCube) : Z := minOver zOf GRID_SIZE (blocksOf p).
Definition hiZ (p : PolyCube) : Z := maxOver zOf (-1) (blocksOf p).

(** The occupied voxels of [q] are those of [p] moved by [t]. *)
Definition movedBy (t : BlockCoordinates) (p q : PolyCube) : Prop :=
  ∀ b, b ∈ blocksOf q ↔ ∃ a, a ∈ blocksOf p ∧ b = addBlock a t.

(** The filled cells of [g'] are those of [g] moved by [dr] rows and [dc]
    columns. *)
Definition cellsMovedBy (dr dc : Z) (g g' : OrthographicGridState) : Prop :=
  ∀ r c, (r, c) ∈ cellsOf g' ↔ (r - dr, c - dc) ∈ cellsOf g.

(** An integer small enough for the lookup of a cell to be exact in
    doubles: with rows, columns and offsets in this range, the sums and
    differences that [find3DBlocksFor2DCell] and the forward formulas form
    stay below 2^53 in absolute value. *)
Definition exactInteger (n : Z) : Prop :=
  - 2251799813685248 ≤ n ≤ 2251799813685248.

(** A cell of the GRID_SIZE x GRID_SIZE canvas. *)
Definition inCanvas (rc : Z * Z) : bool :=
  let '(r, c) := rc in
  (0 <=? r) && (r <? GRID_SIZE) && (0 <=? c) && (c <? GRID_SIZE).

(** Where [rotatePolyCube90] writes the block it reads at [b]. *)
Definition quarterTurn (b : BlockCoordinates) : BlockCoordinates :=
  (zOf b, yOf b, GRID_SIZE - 1 - xOf b).

(** The running extremes of the filled cells of a silhouette, as the scans
    compute them. *)
Definition loR (g : OrthographicGridState) : Z := minOver fst GRID_SIZE (cellsOf g).
Definition hiR (g : OrthographicGridState) : Z := maxOver fst (-1) (cellsOf g).
Definition loC (g : OrthographicGridState) : Z := minOver snd GRID_SIZE (cellsOf g).
Definition hiC (g : OrthographicGridState) : Z := maxOver snd (-1) (cellsOf g).

(** A grid that holds only the two values the application writes. *)
Definition binaryGrid (g : OrthographicGridState) : Prop :=
  Forall (Forall (λ v, v = 0 ∨ v = 1)) g.

(** * Properties *)

(** ** Arrays and scans *)

(** Membership in one of the fixed tables. *)
Ltac in_list := unfold neighbors, UNIT_CUBE_FACES; repeat first [left | right].

Lemma idx_Some {A} (l : list A) i a :
  idx l i = Some a ↔ 0 ≤ i ∧ l !! Z.to_nat i = Some a.
Proof.
  unfold idx. destruct (Z.leb_spec 0 i); [tauto | split; [done | lia]].
Qed.

Lemma idx_nat {A} (l : list A) i : 0 ≤ i → idx l i = l !! Z.to_nat i.
Proof. intros Hi. unfold idx. destruct (Z.leb_spec 0 i); [done | lia]. Qed.

Lemma inGrid_spec x y z :
  inGrid (x, y, z) = true ↔
  0 ≤ x < GRID_SIZE ∧ 0 ≤ y < GRID_SIZE ∧ 0 ≤ z < GRID_SIZE.
Proof. unfold inGrid. rewrite !andb_true_iff, !Z.leb_le, !Z.ltb_lt. lia. Qed.

Lemma elem_of_scan3 b : b ∈ scan3 ↔ inGrid b = true.
Proof.
  destruct b as [[x y] z]. rewrite inGrid_spec. unfold scan3.
  rewrite list_elem_of_bind. setoid_rewrite list_elem_of_bind.
  setoid_rewrite list_elem_of_bind. setoid_rewrite list_elem_of_singleton.
  setoid_rewrite elem_of_seqZ. split.
  - intros (x' & (y' & (z' & Heq & Hz) & Hy) & Hx). simplify_eq. lia.
  - intros (Hx & Hy & Hz). exists x. split; [|lia]. exists y. split; [|lia].
    exists z. split; [done | lia].
Qed.

Lemma elem_of_scan2 r c :
  (r, c) ∈ scan2 ↔ 0 ≤ r < GRID_SIZE ∧ 0 ≤ c < GRID_SIZE.
Proof.
  unfold scan2. rewrite list_elem_of_bind. setoid_rewrite list_elem_of_bind.
  setoid_rewrite list_elem_of_singleton. setoid_rewrite elem_of_seqZ. split.
  - intros (r' & (c' & Heq & Hc) & Hr). simplify_eq. lia.
  - intros (Hr & Hc). exists r. split; [|lia]. exists c. split; [done | lia].
Qed.

Lemma NoDup_scan3 : NoDup scan3.
Proof. apply (bool_decide_unpack _). vm_compute. exact I. Qed.

Lemma NoDup_scan2 : NoDup scan2.
Proof. apply (bool_decide_unpack _). vm_compute. exact I. Qed.

(** A loop that pushes the elements passing a test is a filter. *)
Lemma fold_push_filter {A B} (P : A → bool) (f : A → B) (l : list A) (acc : list B) :
  fold_left (λ acc a, if P a then acc ++ [f a] else acc) l acc
  = acc ++ (f <$> filter (λ a, P a = true) l).
Proof.
  revert acc. induction l as [|a l IH]; intros acc; simpl.
  - by rewrite app_nil_r.
  - rewrite IH, filter_cons. destruct (P a) eqn:HP.
    + rewrite decide_True by done. by rewrite fmap_cons, <- app_assoc.
    + rewrite decide_False by congruence. done.
Qed.

Lemma elem_of_blocksOf p b : b ∈ blocksOf p ↔ hasBlock p b = true ∧ inGrid b = true.
Proof. unfold blocksOf. by rewrite list_elem_of_filter, elem_of_scan3. Qed.

Lemma NoDup_blocksOf p : NoDup (blocksOf p).
Proof. apply NoDup_filter, NoDup_scan3. Qed.

Lemma hasBlock_voxelAt p b : hasBlock p b = true ↔ voxelAt p b = Some 1.
Proof.
  destruct b as [[x y] z]. unfold hasBlock, voxelAt.
  destruct (idx p x) as [px|]; [|done].
  destruct (idx px y) as [pxy|]; [|done].
  destruct (idx pxy z) as [v|]; [|done].
  rewrite Z.eqb_eq. naive_solver.
Qed.

Lemma hasCell_cellAt g r c : hasCell g (r, c) = true ↔ cellAt g r c = Some 1.
Proof.
  unfold hasCell, cellAt. destruct (idx g r) as [gr|]; [|done].
  destruct (idx gr c) as [v|]; [|done]. rewrite Z.eqb_eq. naive_solver.
Qed.

(** ** Writes *)

Lemma idx_alter {A} (f : A → A) (l : list A) i j :
  0 ≤ i →
  idx (alter f (Z.to_nat i) l) j = if decide (j = i) then f <$> idx l i else idx l j.
Proof.
  intros Hi. unfold idx. destruct (decide (j = i)) as [->|Hne].
  - replace (0 <=? i) with true by lia. apply list_lookup_alter_eq.
  - destruct (Z.leb_spec 0 j); [|done]. apply list_lookup_alter_ne. lia.
Qed.

Lemma idx_insert {A} (l : list A) i j (v : A) :
  0 ≤ i →
  idx (<[Z.to_nat i := v]> l) j
  = if decide (j = i) then (λ _, v) <$> idx l i else idx l j.
Proof.
  intros Hi. unfold idx. destruct (decide (j = i)) as [->|Hne].
  - replace (0 <=? i) with true by lia.
    destruct (l !! Z.to_nat i) as [w|] eqn:Hw; simpl.
    + apply list_lookup_insert_eq. by eapply lookup_lt_Some.
    + rewrite list_insert_ge by (by apply lookup_ge_None). done.
  - destruct (Z.leb_spec 0 j); [|done]. apply list_lookup_insert_ne. lia.
Qed.

Lemma cellAt_set2 g r c v r' c' :
  0 ≤ r → 0 ≤ c →
  cellAt (set2 g r c v) r' c'
  = if decide ((r', c') = (r, c)) then (λ _, v) <$> cellAt g r c
    else cellAt g r' c'.
Proof.
  intros Hr Hc. unfold cellAt, set2. rewrite idx_alter by done.
  destruct (decide (r' = r)) as [->|Hne].
  - destruct (idx g r) as [row|]; simpl.
    + rewrite idx_insert by done. destruct (decide (c' = c)) as [->|Hnc].
      * by rewrite decide_True.
      * rewrite decide_False by congruence. done.
    + by destruct (decide _).
  - rewrite decide_False by congruence. done.
Qed.

Lemma voxelAt_set3 p b v b' :
  inGrid b = true →
  voxelAt (set3 p b v) b'
  = if decide (b' = b) then (λ _, v) <$> voxelAt p b else voxelAt p b'.
Proof.
  destruct b as [[x y] z], b' as [[x' y'] z']. rewrite inGrid_spec.
  intros (Hx & Hy & Hz). unfold voxelAt, set3. rewrite idx_alter by lia.
  destruct (decide (x' = x)) as [->|Hne];
    [|by rewrite decide_False by congruence].
  destruct (idx p x) as [px|]; simpl; [|by destruct (decide _)].
  rewrite idx_alter by lia.
  destruct (decide (y' = y)) as [->|Hne];
    [|by rewrite decide_False by congruence].
  destruct (idx px y) as [pxy|]; simpl; [|by destruct (decide _)].
  rewrite idx_insert by lia.
  destruct (decide (z' = z)) as [->|Hne];
    [by rewrite decide_True | by rewrite decide_False by congruence].
Qed.

Lemma cellAt_createEmptyGrid rows cols r c v :
  cellAt (createEmptyGrid rows cols) r c = Some v ↔
  v = 0 ∧ 0 ≤ r < rows ∧ 0 ≤ c < cols.
Proof.
  unfold cellAt, createEmptyGrid. split.
  - destruct (idx _ r) as [row|] eqn:Hrow; [|done].
    apply idx_Some in Hrow as [Hr Hrow]. apply lookup_replicate in Hrow as [-> Hr'].
    intros [Hc [-> Hc']%lookup_replicate]%idx_Some. lia.
  - intros (-> & Hr & Hc). rewrite idx_nat by lia.
    rewrite lookup_replicate_2 by lia. rewrite idx_nat by lia.
    apply lookup_replicate_2. lia.
Qed.

Lemma voxelAt_emptyPolyCube b v :
  voxelAt emptyPolyCube b = Some v ↔ v = 0 ∧ inGrid b = true.
Proof.
  destruct b as [[x y] z]. rewrite inGrid_spec. unfold voxelAt, emptyPolyCube. split.
  - destruct (idx _ x) as [px|] eqn:Hpx; [|done].
    apply idx_Some in Hpx as [Hx [-> Hx']%lookup_replicate].
    destruct (idx _ y) as [pxy|] eqn:Hpxy; [|done].
    apply idx_Some in Hpxy as [Hy [-> Hy']%lookup_replicate].
    intros [Hz [-> Hz']%lookup_replicate]%idx_Some. unfold GRID_SIZE in *. lia.
  - unfold GRID_SIZE. intros (-> & Hx & Hy & Hz).
    rewrite idx_nat by lia. rewrite lookup_replicate_2 by lia.
    rewrite idx_nat by lia. rewrite lookup_replicate_2 by lia.
    rewrite idx_nat by lia. apply lookup_replicate_2. lia.
Qed.

(** ** Projection and its inverse *)

Section Projection.
Variable p : PolyCube.

Lemma projectStep_split fo to so l a :
  fold_left (projectStep p fo to so) l a
  = mkAcc (markAll p (frontCell fo) l (frontView a))
          (markAll p (topCell to) l (topView a))
          (markAll p (sideCell so) l (sideView a)).
Proof.
  revert a. induction l as [|b l IH]; intros a; [by destruct a|].
  simpl. rewrite IH. unfold projectStep. by destruct (hasBlock p b).
Qed.

Lemma markCell_inv g rc r c :
  cellAt (markCell g rc) r c = Some 1 → cellAt g r c = Some 1 ∨ rc = (r, c).
Proof.
  destruct rc as [r0 c0]. unfold markCell.
  destruct (_ && _) eqn:Hin; [|tauto].
  rewrite !andb_true_iff, !Z.leb_le, !Z.ltb_lt in Hin.
  rewrite cellAt_set2 by lia. destruct (decide _) as [Heq|]; [|tauto].
  intros _. right. congruence.
Qed.

Lemma markAll_inv f l g r c :
  cellAt (markAll p f l g) r c = Some 1 →
  cellAt g r c = Some 1 ∨ ∃ b, b ∈ l ∧ hasBlock p b = true ∧ f b = (r, c).
Proof.
  revert g. induction l as [|b l IH]; intros g; simpl; [tauto|].
  intros [Hg | (b' & Hb' & Hp & Hf)]%IH.
  - destruct (hasBlock p b) eqn:Hb; [|tauto].
    apply markCell_inv in Hg as [Hg | Hg]; [tauto|].
    right. exists b. split; [left | done].
  - right. exists b'. split; [by right | done].
Qed.

Lemma find3DBlocksFor2DCell_filter v row col o d :
  find3DBlocksFor2DCell p v row col o d
  = filter (λ b, hasBlock p b && projectsTo v row col o b = true) scan3.
Proof.
  unfold find3DBlocksFor2DCell.
  rewrite (fold_push_filter (λ b, hasBlock p b && projectsTo v row col o b) id).
  by rewrite list_fmap_id.
Qed.

Lemma projectsTo_forwardCell v row col o b :
  projectsTo v row col o b = true ↔ forwardCell v o b = (row, col).
Proof.
  destruct b as [[x y] z]. unfold projectsTo, forwardCell, frontCell, topCell, sideCell.
  destruct v; rewrite andb_true_iff, !Z.eqb_eq;
    (split; [intros [-> ->]; f_equal; lia | intros [= <- <-]; lia]).
Qed.

Lemma marked_cell_has_block v d r c :
  cellAt (viewGrid v (calculateOrthographicProjections p d)) r c = Some 1 →
  ∃ b, b ∈ scan3 ∧ hasBlock p b = true
       ∧ forwardCell v (viewOffsets v (calculateOrthographicProjections p d)) b = (r, c).
Proof.
  unfold calculateOrthographicProjections.
  destruct (_ || _).
  - destruct v; cbn [viewGrid front top side];
      intros [? _]%cellAt_createEmptyGrid; done.
  - rewrite projectStep_split.
    destruct v;
      cbn [viewGrid viewOffsets front top side frontOffsets topOffsets
           sideOffsets frontView topView sideView];
      intros [[? _]%cellAt_createEmptyGrid | Hb]%markAll_inv; done.
Qed.
End Projection.

(** C1. Round trip of projection and inverse lookup: for every polyCube,
    every dimensions argument, every view and every canvas cell (r, c) that
    [calculateOrthographicProjections] marks 1 in that view,
    [find3DBlocksFor2DCell], called with the offsets returned for the view,
    yields a non-empty list; every block of the list is occupied and the
    forward formula of the view sends it to exactly (r, c). *)
Theorem C1_unproject_roundtrip (p : PolyCube) (dims : Dimensions)
    (v : ViewType) (r c : Z) :
  cellAt (viewGrid v (calculateOrthographicProjections p dims)) r c = Some 1 →
  find3DBlocksFor2DCell p v r c
    (viewOffsets v (calculateOrthographicProjections p dims)) dims ≠ []
  ∧ ∀ b,
      b ∈ find3DBlocksFor2DCell p v r c
            (viewOffsets v (calculateOrthographicProjections p dims)) dims →
      hasBlock p b = true
      ∧ forwardCell v (viewOffsets v (calculateOrthographicProjections p dims)) b
        = (r, c).
Proof.
  intros (b & Hscan & Hb & Hfwd)%marked_cell_has_block.
  rewrite find3DBlocksFor2DCell_filter. split.
  - intros Hnil. assert (Hin : b ∈ @nil BlockCoordinates); [|by inversion Hin].
    rewrite <- Hnil. apply list_elem_of_filter. split; [|done].
    apply andb_true_iff. split; [done|]. by apply projectsTo_forwardCell.
  - intros b' [[Hb' Hto]%andb_true_iff _]%list_elem_of_filter.
    split; [done|]. by apply projectsTo_forwardCell.
Qed.

Lemma C1_unproject_roundtrip_witness :
  cellAt (viewGrid ViewSide
            (calculateOrthographicProjections (set3 emptyPolyCube (2, 1, 0) 1)
               (mkDims 1 1 1))) 3 3 = Some 1
  ∧ find3DBlocksFor2DCell (set3 emptyPolyCube (2, 1, 0) 1) ViewSide 3 3
      (viewOffsets ViewSide
         (calculateOrthographicProjections (set3 emptyPolyCube (2, 1, 0) 1)
            (mkDims 1 1 1)))
      (mkDims 1 1 1) ≠ [].
Proof.
  split; [vm_compute; reflexivity|].
  refine (proj1 (C1_unproject_roundtrip _ _ _ _ _ _)).
  vm_compute; reflexivity.
Defined.

(** C8. When the width, the height or the depth passed in is 0,
    [calculateOrthographicProjections] returns three GRID_SIZE x GRID_SIZE
    grids of zeros and the offsets (0, 0) for the three views, whatever the
    polyCube. *)
Theorem C8_zero_dimension_views (p : PolyCube) (d : Dimensions) :
  width d = 0 ∨ height d = 0 ∨ depth d = 0 →
  calculateOrthographicProjections p d
  = mkViews (replicate 8 (replicate 8 0)) (replicate 8 (replicate 8 0))
            (replicate 8 (replicate 8 0))
            (mkOffsets 0 0) (mkOffsets 0 0) (mkOffsets 0 0).
Proof.
  intros Hd. unfold calculateOrthographicProjections.
  replace (_ || _) with true; [done|].
  symmetry. rewrite !orb_true_iff, !Z.eqb_eq. tauto.
Qed.

Lemma C8_zero_dimension_views_witness :
  front (calculateOrthographicProjections (set3 emptyPolyCube (1, 1, 1) 1)
           (mkDims 1 0 1))
  = replicate 8 (replicate 8 0).
Proof.
  rewrite (C8_zero_dimension_views (set3 emptyPolyCube (1, 1, 1) 1) (mkDims 1 0 1));
    [reflexivity | right; left; reflexivity].
Defined.

(** C10. The list returned by [find3DBlocksFor2DCell] does not depend on its
    dimensions argument. *)
Theorem C10_find3DBlocks_ignores_dimensions (p : PolyCube) (v : ViewType)
    (row col : Z) (o : ViewOffsets) (d1 d2 : Dimensions) :
  find3DBlocksFor2DCell p v row col o d1 = find3DBlocksFor2DCell p v row col o d2.
Proof. unfold find3DBlocksFor2DCell. reflexivity. Qed.

(** ** Running minimum and maximum *)

Section MinMax.
Context {A : Type} (f : A → Z).

Lemma minOver_le_init l m : minOver f m l ≤ m.
Proof.
  revert m. induction l as [|a l IH]; intros m; simpl; [lia|].
  etrans; [apply IH | lia].
Qed.

Lemma minOver_le l m a : a ∈ l → minOver f m l ≤ f a.
Proof.
  revert m. induction l as [|a' l IH]; intros m Hin; [by inversion Hin|].
  simpl. apply elem_of_cons in Hin as [->|Hin]; [|by apply IH].
  etrans; [apply minOver_le_init | lia].
Qed.

Lemma minOver_cases l m : minOver f m l = m ∨ ∃ a, a ∈ l ∧ f a = minOver f m l.
Proof.
  revert m. induction l as [|a l IH]; intros m; simpl; [by left|].
  destruct (IH (Z.min m (f a))) as [Heq | (a' & Hin & Ha')].
  - destruct (Z.min_spec m (f a)) as [[_ Hm] | [_ Hm]].
    + left. unfold minOver in *. lia.
    + right. exists a. split; [left|]. unfold minOver in *. lia.
  - right. exists a'. split; [by right | done].
Qed.

Lemma maxOver_ge_init l m : m ≤ maxOver f m l.
Proof.
  revert m. induction l as [|a l IH]; intros m; simpl; [lia|].
  etrans; [|apply IH]. lia.
Qed.

Lemma maxOver_ge l m a : a ∈ l → f a ≤ maxOver f m l.
Proof.
  revert m. induction l as [|a' l IH]; intros m Hin; [by inversion Hin|].
  simpl. apply elem_of_cons in Hin as [->|Hin]; [|by apply IH].
  etrans; [|apply maxOver_ge_init]. lia.
Qed.

Lemma maxOver_cases l m : maxOver f m l = m ∨ ∃ a, a ∈ l ∧ f a = maxOver f m l.
Proof.
  revert m. induction l as [|a l IH]; intros m; simpl; [by left|].
  destruct (IH (Z.max m (f a))) as [Heq | (a' & Hin & Ha')].
  - destruct (Z.max_spec m (f a)) as [[_ Hm] | [_ Hm]].
    + right. exists a. split; [left|]. unfold maxOver in *. lia.
    + left. unfold maxOver in *. lia.
  - right. exists a'. split; [by right | done].
Qed.

(** On a non-empty list whose values stay below (above) the initial
    value, the running minimum (maximum) is the least (greatest) value. *)
Lemma minOver_isMinOf l m :
  l ≠ [] → (∀ a, a ∈ l → f a ≤ m) → isMinOf f l (minOver f m l).
Proof.
  intros Hne Hm. split; [|by intros a; apply minOver_le].
  destruct (minOver_cases l m) as [Heq | (a & Hin & Ha)]; [|by eauto].
  destruct l as [|a l]; [done|]. exists a. split; [left|].
  pose proof (minOver_le (a :: l) m a ltac:(left)).
  pose proof (Hm a ltac:(left)). lia.
Qed.

Lemma maxOver_isMaxOf l m :
  l ≠ [] → (∀ a, a ∈ l → m ≤ f a) → isMaxOf f l (maxOver f m l).
Proof.
  intros Hne Hm. split; [|by intros a; apply maxOver_ge].
  destruct (maxOver_cases l m) as [Heq | (a & Hin & Ha)]; [|by eauto].
  destruct l as [|a l]; [done|]. exists a. split; [left|].
  pose proof (maxOver_ge (a :: l) m a ltac:(left)).
  pose proof (Hm a ltac:(left)). lia.
Qed.

Lemma isMinOf_unique l m m' : isMinOf f l m → isMinOf f l m' → m = m'.
Proof.
  intros [(a & Ha & <-) Hlo] [(a' & Ha' & <-) Hlo'].
  pose proof (Hlo a' Ha'). pose proof (Hlo' a Ha). lia.
Qed.

Lemma isMaxOf_unique l m m' : isMaxOf f l m → isMaxOf f l m' → m = m'.
Proof.
  intros [(a & Ha & <-) Hhi] [(a' & Ha' & <-) Hhi'].
  pose proof (Hhi a' Ha'). pose proof (Hhi' a Ha). lia.
Qed.
End MinMax.

(** ** The scans in closed form *)

Lemma normScanStep_fold p l s :
  fold_left (normScanStep p) l s
  = let F := filter (λ b, hasBlock p b = true) l in
    mkNormScan (blocks s ++ F) (minOver xOf (nMinX s) F)
               (minOver yOf (nMinY s) F) (minOver zOf (nMinZ s) F).
Proof.
  revert s. induction l as [|b l IH]; intros s; simpl.
  - rewrite app_nil_r. by destruct s.
  - rewrite IH, filter_cons. unfold normScanStep.
    destruct b as [[x y] z]. destruct (hasBlock p (x, y, z)) eqn:Hb.
    + rewrite decide_True by done. simpl. by rewrite <- app_assoc.
    + rewrite decide_False by congruence. done.
Qed.

Lemma normScan_eq p :
  normScan p
  = mkNormScan (blocksOf p) (minOver xOf GRID_SIZE (blocksOf p))
      (minOver yOf GRID_SIZE (blocksOf p)) (minOver zOf GRID_SIZE (blocksOf p)).
Proof. unfold normScan. by rewrite normScanStep_fold. Qed.

Lemma boundsStep_fold p l s :
  fold_left (boundsStep p) l s
  = let F := filter (λ b, hasBlock p b = true) l in
    mkBounds3 (minOver xOf (minX s) F) (maxOver xOf (maxX s) F)
              (minOver yOf (minY s) F) (maxOver yOf (maxY s) F)
              (minOver zOf (minZ s) F) (maxOver zOf (maxZ s) F).
Proof.
  revert s. induction l as [|b l IH]; intros s; simpl.
  - by destruct s.
  - rewrite IH, filter_cons. unfold boundsStep.
    destruct b as [[x y] z]. destruct (hasBlock p (x, y, z)) eqn:Hb.
    + rewrite decide_True by done. done.
    + rewrite decide_False by congruence. done.
Qed.

Lemma scan2DStep_fold g l s :
  fold_left (scan2DStep g) l s
  = let F := filter (λ rc, hasCell g rc = true) l in
    mkScan2D (filledCells s ++ F)
             (minOver fst (minR s) F) (maxOver fst (maxR s) F)
             (minOver snd (minC s) F) (maxOver snd (maxC s) F).
Proof.
  revert s. induction l as [|rc l IH]; intros s; simpl.
  - rewrite app_nil_r. by destruct s.
  - rewrite IH, filter_cons. unfold scan2DStep.
    destruct rc as [r c]. destruct (hasCell g (r, c)) eqn:Hb.
    + rewrite decide_True by done. simpl. by rewrite <- app_assoc.
    + rewrite decide_False by congruence. done.
Qed.

Lemma scanGrid_eq g :
  scanGrid g
  = mkScan2D (cellsOf g)
      (minOver fst GRID_SIZE (cellsOf g)) (maxOver fst (-1) (cellsOf g))
      (minOver snd GRID_SIZE (cellsOf g)) (maxOver snd (-1) (cellsOf g)).
Proof. unfold scanGrid. by rewrite scan2DStep_fold. Qed.

Lemma elem_of_cellsOf g r c :
  (r, c) ∈ cellsOf g ↔
  hasCell g (r, c) = true ∧ 0 ≤ r < GRID_SIZE ∧ 0 ≤ c < GRID_SIZE.
Proof. unfold cellsOf. by rewrite list_elem_of_filter, elem_of_scan2. Qed.

Lemma NoDup_cellsOf g : NoDup (cellsOf g).
Proof. apply NoDup_filter, NoDup_scan2. Qed.

(** ** Painting cells into a container *)

Lemma set3_shape p b v : shape3 (set3 p b v) = shape3 p.
Proof.
  destruct b as [[x y] z]. unfold shape3, set3.
  apply list_eq. intros i. rewrite !list_lookup_fmap.
  destruct (decide (i = Z.to_nat x)) as [->|Hne];
    [|by rewrite list_lookup_alter_ne].
  rewrite list_lookup_alter_eq. destruct (p !! Z.to_nat x) as [px|]; [|done].
  simpl. f_equal. unfold shape2. apply list_eq. intros j.
  rewrite !list_lookup_fmap.
  destruct (decide (j = Z.to_nat y)) as [->|Hne];
    [|by rewrite list_lookup_alter_ne].
  rewrite list_lookup_alter_eq. destruct (px !! Z.to_nat y) as [pxy|]; [|done].
  simpl. by rewrite length_insert.
Qed.

Lemma set2_shape g r c v : shape2 (set2 g r c v) = shape2 g.
Proof.
  unfold shape2, set2. apply list_eq. intros i. rewrite !list_lookup_fmap.
  destruct (decide (i = Z.to_nat r)) as [->|Hne];
    [|by rewrite list_lookup_alter_ne].
  rewrite list_lookup_alter_eq. destruct (g !! Z.to_nat r) as [row|]; [|done].
  simpl. by rewrite length_insert.
Qed.

Lemma toPolyCube_shape bs : isGridCube (toPolyCube bs).
Proof.
  unfold isGridCube, toPolyCube.
  assert (Hgen : ∀ p0, shape3 (fold_left (λ q b, set3 q b 1) bs p0) = shape3 p0).
  { induction bs as [|b bs IH]; intros p0; simpl; [done|].
    by rewrite IH, set3_shape. }
  rewrite Hgen. reflexivity.
Qed.

Lemma voxelAt_paint bs p0 b :
  Forall (λ a, inGrid a = true) bs →
  voxelAt (fold_left (λ q a, set3 q a 1) bs p0) b
  = if decide (b ∈ bs) then (λ _, 1) <$> voxelAt p0 b else voxelAt p0 b.
Proof.
  intros Hbs. revert p0.
  induction Hbs as [|a bs Ha Hbs IH]; intros p0; cbn [fold_left].
  - rewrite decide_False; [done | by inversion 1].
  - rewrite IH, voxelAt_set3 by done.
    destruct (decide (b ∈ a :: bs)) as [Hin|Hnin].
    + destruct (decide (b = a)) as [->|Hne].
      * destruct (decide _); [|done]. by destruct (voxelAt p0 a).
      * rewrite decide_True; [done|]. by apply elem_of_cons in Hin as [?|?].
    + rewrite decide_False by (intros ?; apply Hnin; by right).
      rewrite decide_False; [done|]. intros ->. apply Hnin. left.
Qed.

Lemma voxelAt_toPolyCube bs b :
  Forall (λ a, inGrid a = true) bs →
  voxelAt (toPolyCube bs) b
  = if inGrid b then Some (if decide (b ∈ bs) then 1 else 0) else None.
Proof.
  intros Hbs. unfold toPolyCube. rewrite voxelAt_paint by done.
  destruct (inGrid b) eqn:Hb.
  - assert (voxelAt emptyPolyCube b = Some 0) as -> by by apply voxelAt_emptyPolyCube.
    by destruct (decide _).
  - assert (voxelAt emptyPolyCube b = None) as ->; [|by destruct (decide _)].
    destruct (voxelAt emptyPolyCube b) eqn:Hv; [|done].
    apply voxelAt_emptyPolyCube in Hv as [_ ?]. congruence.
Qed.

Lemma hasBlock_toPolyCube bs b :
  Forall (λ a, inGrid a = true) bs →
  hasBlock (toPolyCube bs) b = true ↔ b ∈ bs.
Proof.
  intros Hbs. rewrite hasBlock_voxelAt, voxelAt_toPolyCube by done.
  destruct (inGrid b) eqn:Hb.
  - destruct (decide (b ∈ bs)); split; (done || congruence).
  - split; [done|]. intros Hin. rewrite Forall_forall in Hbs.
    specialize (Hbs _ Hin). congruence.
Qed.

(** Two cubes of the same extents that agree on every voxel are equal. *)
Lemma polyCube_ext p q :
  shape3 p = shape3 q →
  (∀ b, voxelAt p b = voxelAt q b) →
  p = q.
Proof.
  intros Hshape Hvox. apply list_eq. intros i.
  assert (Hi : shape3 p !! i = shape3 q !! i) by by rewrite Hshape.
  unfold shape3 in Hi. rewrite !list_lookup_fmap in Hi.
  destruct (p !! i) as [px|] eqn:Hpx, (q !! i) as [qx|] eqn:Hqx; try done.
  simpl in Hi. injection Hi as Hi. f_equal. apply list_eq. intros j.
  assert (Hj : shape2 px !! j = shape2 qx !! j) by by rewrite Hi.
  unfold shape2 in Hj. rewrite !list_lookup_fmap in Hj.
  destruct (px !! j) as [pxy|] eqn:Hpxy, (qx !! j) as [qxy|] eqn:Hqxy; try done.
  simpl in Hj. injection Hj as Hj. f_equal. apply list_eq. intros k.
  specialize (Hvox (Z.of_nat i, Z.of_nat j, Z.of_nat k)).
  unfold voxelAt in Hvox. rewrite !idx_nat, !Nat2Z.id in Hvox by lia.
  rewrite Hpx, Hqx in Hvox. rewrite !idx_nat, !Nat2Z.id in Hvox by lia.
  rewrite Hpxy, Hqxy in Hvox. by rewrite !idx_nat, !Nat2Z.id in Hvox by lia.
Qed.

Lemma grid_ext g g' :
  shape2 g = shape2 g' →
  (∀ r c, cellAt g r c = cellAt g' r c) →
  g = g'.
Proof.
  intros Hshape Hcell. apply list_eq. intros i.
  assert (Hi : shape2 g !! i = shape2 g' !! i) by by rewrite Hshape.
  unfold shape2 in Hi. rewrite !list_lookup_fmap in Hi.
  destruct (g !! i) as [row|] eqn:Hrow, (g' !! i) as [row'|] eqn:Hrow'; try done.
  f_equal. apply list_eq. intros j.
  specialize (Hcell (Z.of_nat i) (Z.of_nat j)).
  unfold cellAt in Hcell. rewrite !idx_nat, !Nat2Z.id in Hcell by lia.
  rewrite Hrow, Hrow' in Hcell. by rewrite !idx_nat, !Nat2Z.id in Hcell by lia.
Qed.

(** A cube built from a list of cells depends on the set of cells only. *)
Lemma toPolyCube_ext bs bs' :
  Forall (λ a, inGrid a = true) bs →
  Forall (λ a, inGrid a = true) bs' →
  (∀ b, b ∈ bs ↔ b ∈ bs') →
  toPolyCube bs = toPolyCube bs'.
Proof.
  intros Hbs Hbs' Heq. apply polyCube_ext.
  - by rewrite !toPolyCube_shape.
  - intros b. rewrite !voxelAt_toPolyCube by done.
    destruct (inGrid b); [|done]. f_equal.
    destruct (decide (b ∈ bs)) as [Hin|Hnin], (decide (b ∈ bs')) as [Hin'|Hnin'];
      try done.
    + by apply Heq in Hin.
    + by apply Heq in Hin'.
Qed.

(** ** normalizePolyCube *)

Lemma fold_left_fmap {A B C} (f : C → B → C) (g : A → B) (l : list A) (c : C) :
  fold_left f (g <$> l) c = fold_left (λ c a, f c (g a)) l c.
Proof. revert c. induction l as [|a l IH]; intros c; simpl; [done | apply IH]. Qed.

Lemma fold_left_pointwise {A C} (f g : C → A → C) (l : list A) (c : C) :
  (∀ c a, f c a = g c a) → fold_left f l c = fold_left g l c.
Proof.
  intros Hfg. revert c. induction l as [|a l IH]; intros c; simpl; [done|].
  by rewrite Hfg, IH.
Qed.

Lemma elem_of_nil_iff {A} (l : list A) : l = [] ↔ ∀ a, a ∉ l.
Proof.
  split; [intros -> a Ha; by inversion Ha|].
  destruct l as [|a l]; [done|]. intros Hl. destruct (Hl a). left.
Qed.

Section NormalizePolyCube.
Variable p : PolyCube.

Let B := blocksOf p.
Let lx := minOver xOf GRID_SIZE B.
Let ly := minOver yOf GRID_SIZE B.
Let lz := minOver zOf GRID_SIZE B.

Lemma normalizePolyCube_eq :
  normalizePolyCube p
  = toPolyCube ((λ b, (xOf b - lx, yOf b - ly, zOf b - lz)) <$> blocksOf p).
Proof.
  unfold normalizePolyCube, toPolyCube. rewrite normScan_eq, fold_left_fmap.
  cbn [blocks]. apply fold_left_pointwise. by intros q [[x y] z].
Qed.

Lemma blocksOf_bounds b :
  b ∈ B →
  0 ≤ lx ≤ xOf b ∧ xOf b < GRID_SIZE ∧
  0 ≤ ly ≤ yOf b ∧ yOf b < GRID_SIZE ∧
  0 ≤ lz ≤ zOf b ∧ zOf b < GRID_SIZE.
Proof.
  intros Hb.
  assert (Hall : ∀ a, a ∈ B →
    0 ≤ xOf a < GRID_SIZE ∧ 0 ≤ yOf a < GRID_SIZE ∧ 0 ≤ zOf a < GRID_SIZE).
  { intros [[x y] z] [_ Ha]%elem_of_blocksOf. by apply inGrid_spec. }
  pose proof (minOver_le xOf B GRID_SIZE b Hb).
  pose proof (minOver_le yOf B GRID_SIZE b Hb).
  pose proof (minOver_le zOf B GRID_SIZE b Hb).
  pose proof (Hall b Hb).
  assert (0 ≤ lx).
  { destruct (minOver_cases xOf B GRID_SIZE) as [Heq | (a & Ha & Heq)];
      subst lx; [rewrite Heq; done|]. rewrite <- Heq. apply (Hall a Ha). }
  assert (0 ≤ ly).
  { destruct (minOver_cases yOf B GRID_SIZE) as [Heq | (a & Ha & Heq)];
      subst ly; [rewrite Heq; done|]. rewrite <- Heq. apply (Hall a Ha). }
  assert (0 ≤ lz).
  { destruct (minOver_cases zOf B GRID_SIZE) as [Heq | (a & Ha & Heq)];
      subst lz; [rewrite Heq; done|]. rewrite <- Heq. apply (Hall a Ha). }
  subst lx ly lz. lia.
Qed.

Lemma shifted_inGrid :
  Forall (λ a, inGrid a = true)
    ((λ b, (xOf b - lx, yOf b - ly, zOf b - lz)) <$> B).
Proof.
  apply Forall_fmap, Forall_forall. intros b Hb. simpl.
  apply inGrid_spec. pose proof (blocksOf_bounds b Hb). lia.
Qed.

(** The occupied voxels of the normalised cube are the shifted ones. *)
Lemma elem_of_blocksOf_normalizePolyCube b :
  b ∈ blocksOf (normalizePolyCube p) ↔
  (xOf b + lx, yOf b + ly, zOf b + lz) ∈ B.
Proof.
  rewrite elem_of_blocksOf, normalizePolyCube_eq.
  rewrite hasBlock_toPolyCube by apply shifted_inGrid.
  rewrite list_elem_of_fmap. split.
  - intros [(a & -> & Ha) _]. destruct a as [[x y] z]. simpl.
    unfold xOf, yOf, zOf in *. simpl in *.
    by replace (x - lx + lx, y - ly + ly, z - lz + lz) with (x, y, z)
      by (f_equal; [f_equal|]; lia).
  - intros Hb. pose proof (blocksOf_bounds _ Hb) as Hbd.
    destruct b as [[x y] z]. unfold xOf, yOf, zOf in *. simpl in *. split.
    + eexists. split; [|exact Hb]. simpl. f_equal; [f_equal|]; lia.
    + apply inGrid_spec. lia.
Qed.

Lemma normalizePolyCube_voxelAt b :
  voxelAt (normalizePolyCube p) b
  = if inGrid b
    then Some (if decide ((xOf b + lx, yOf b + ly, zOf b + lz) ∈ B) then 1 else 0)
    else None.
Proof.
  rewrite normalizePolyCube_eq, voxelAt_toPolyCube by apply shifted_inGrid.
  destruct (inGrid b) eqn:Hin; [|done]. f_equal.
  pose proof (elem_of_blocksOf_normalizePolyCube b) as Hb.
  rewrite elem_of_blocksOf, normalizePolyCube_eq in Hb.
  rewrite hasBlock_toPolyCube in Hb by apply shifted_inGrid.
  destruct (decide _) as [H1|H1], (decide _) as [H2|H2]; try done.
  - destruct H2. apply Hb. done.
  - destruct H1. by apply Hb.
Qed.

Lemma normalizePolyCube_min_zero :
  B ≠ [] →
  isMinOf xOf (blocksOf (normalizePolyCube p)) 0 ∧
  isMinOf yOf (blocksOf (normalizePolyCube p)) 0 ∧
  isMinOf zOf (blocksOf (normalizePolyCube p)) 0.
Proof.
  intros Hne.
  assert (Hlt : ∀ f : BlockCoordinates → Z,
    (f = xOf ∨ f = yOf ∨ f = zOf) → ∀ a, a ∈ B → f a ≤ GRID_SIZE).
  { intros f Hf a Ha. pose proof (blocksOf_bounds a Ha).
    destruct Hf as [->|[->| ->]]; lia. }
  destruct (minOver_isMinOf xOf B GRID_SIZE Hne (Hlt xOf ltac:(tauto)))
    as [(ax & Hax & Hx) _].
  destruct (minOver_isMinOf yOf B GRID_SIZE Hne (Hlt yOf ltac:(tauto)))
    as [(ay & Hay & Hy) _].
  destruct (minOver_isMinOf zOf B GRID_SIZE Hne (Hlt zOf ltac:(tauto)))
    as [(az & Haz & Hz) _].
  assert (Hin : ∀ a, a ∈ B →
    (xOf a - lx, yOf a - ly, zOf a - lz) ∈ blocksOf (normalizePolyCube p)).
  { intros [[x y] z] Ha. apply elem_of_blocksOf_normalizePolyCube.
    unfold xOf, yOf, zOf. simpl.
    by replace (x - lx + lx, y - ly + ly, z - lz + lz) with (x, y, z)
      by (f_equal; [f_equal|]; lia). }
  assert (Hge : ∀ b, b ∈ blocksOf (normalizePolyCube p) →
    0 ≤ xOf b ∧ 0 ≤ yOf b ∧ 0 ≤ zOf b).
  { intros [[x y] z] [_ Hb%inGrid_spec]%elem_of_blocksOf.
    unfold xOf, yOf, zOf. simpl. lia. }
  repeat split.
  - eexists. split; [apply (Hin ax Hax)|]. unfold xOf at 1. simpl.
    fold lx in Hx. lia.
  - intros b Hb. apply (Hge b Hb).
  - eexists. split; [apply (Hin ay Hay)|]. unfold yOf at 1. simpl.
    fold ly in Hy. lia.
  - intros b Hb. apply (Hge b Hb).
  - eexists. split; [apply (Hin az Haz)|]. unfold zOf at 1. simpl.
    fold lz in Hz. lia.
  - intros b Hb. apply (Hge b Hb).
Qed.
End NormalizePolyCube.

Lemma blocksOf_inGrid p : Forall (λ a, inGrid a = true) (blocksOf p).
Proof. apply Forall_forall. by intros b [_ Hb]%elem_of_blocksOf. Qed.

Lemma toPolyCube_blocksOf bs :
  Forall (λ a, inGrid a = true) bs →
  toPolyCube (blocksOf (toPolyCube bs)) = toPolyCube bs.
Proof.
  intros Hbs. apply toPolyCube_ext; [apply blocksOf_inGrid | done |].
  intros b. rewrite elem_of_blocksOf, hasBlock_toPolyCube by done.
  split; [tauto|]. intros Hb. split; [done|].
  rewrite Forall_forall in Hbs. by apply Hbs.
Qed.

Lemma minOver_coord_bound (f : BlockCoordinates → Z) p :
  f = xOf ∨ f = yOf ∨ f = zOf →
  ∀ a, a ∈ blocksOf p → f a ≤ GRID_SIZE.
Proof.
  intros Hf [[x y] z] [_ Ha%inGrid_spec]%elem_of_blocksOf.
  destruct Hf as [->|[->| ->]]; unfold xOf, yOf, zOf; simpl; lia.
Qed.

Lemma normalizePolyCube_idempotent p :
  normalizePolyCube (normalizePolyCube p) = normalizePolyCube p.
Proof.
  destruct (decide (blocksOf p = [])) as [Hnil|Hne].
  - assert (HN : blocksOf (normalizePolyCube p) = []).
    { apply elem_of_nil_iff. intros b Hb%elem_of_blocksOf_normalizePolyCube.
      rewrite Hnil in Hb. by inversion Hb. }
    rewrite (normalizePolyCube_eq (normalizePolyCube p)), HN.
    by rewrite (normalizePolyCube_eq p), Hnil.
  - destruct (normalizePolyCube_min_zero p Hne) as (Hx & Hy & Hz).
    assert (HneN : blocksOf (normalizePolyCube p) ≠ []).
    { destruct Hx as [(a & Ha & _) _]. intros HN. rewrite HN in Ha.
      by inversion Ha. }
    rewrite (normalizePolyCube_eq (normalizePolyCube p)).
    rewrite (isMinOf_unique _ _ _ _
                 (minOver_isMinOf xOf _ GRID_SIZE HneN
                    (minOver_coord_bound xOf _ ltac:(tauto))) Hx).
    rewrite (isMinOf_unique _ _ _ _
                 (minOver_isMinOf yOf _ GRID_SIZE HneN
                    (minOver_coord_bound yOf _ ltac:(tauto))) Hy).
    rewrite (isMinOf_unique _ _ _ _
                 (minOver_isMinOf zOf _ GRID_SIZE HneN
                    (minOver_coord_bound zOf _ ltac:(tauto))) Hz).
    rewrite (list_fmap_ext _ id (blocksOf (normalizePolyCube p))).
    + rewrite list_fmap_id. rewrite (normalizePolyCube_eq p) at 1 2.
      apply toPolyCube_blocksOf, shifted_inGrid.
    + intros i [[x y] z] _. unfold xOf, yOf, zOf. simpl.
      f_equal; [f_equal|]; lia.
Qed.

(** ** normalize2DGrid *)

Lemma cellAt_createEmptyGrid_eq rows cols r c :
  cellAt (createEmptyGrid rows cols) r c
  = if (0 <=? r) && (r <? rows) && (0 <=? c) && (c <? cols) then Some 0 else None.
Proof.
  destruct (_ && _) eqn:Hin.
  - apply cellAt_createEmptyGrid.
    rewrite !andb_true_iff, !Z.leb_le, !Z.ltb_lt in Hin. lia.
  - destruct (cellAt _ r c) as [v|] eqn:Hv; [|done].
    apply cellAt_createEmptyGrid in Hv as (-> & Hr & Hc).
    rewrite <- not_true_iff_false in Hin. destruct Hin.
    rewrite !andb_true_iff, !Z.leb_le, !Z.ltb_lt. lia.
Qed.

Lemma shape2_createEmptyGrid rows cols : hasExtent2 (createEmptyGrid rows cols) rows cols.
Proof.
  unfold hasExtent2, shape2, createEmptyGrid.
  by rewrite fmap_replicate, length_replicate.
Qed.

Lemma paint2_shape lr lc cells g0 :
  shape2 (fold_left (λ grid '(r, c), set2 grid (r - lr) (c - lc) 1) cells g0)
  = shape2 g0.
Proof.
  revert g0. induction cells as [|[r c] cells IH]; intros g0; simpl; [done|].
  by rewrite IH, set2_shape.
Qed.

Lemma cellAt_paint2 lr lc cells g0 r c :
  Forall (λ rc, lr ≤ fst rc ∧ lc ≤ snd rc) cells →
  cellAt (fold_left (λ grid '(r, c), set2 grid (r - lr) (c - lc) 1) cells g0) r c
  = if decide ((r + lr, c + lc) ∈ cells) then (λ _, 1) <$> cellAt g0 r c
    else cellAt g0 r c.
Proof.
  intros Hcells. revert g0.
  induction Hcells as [|[r0 c0] cells [Hr Hc] Hcells IH]; intros g0;
    cbn [fold_left].
  - rewrite decide_False; [done | by inversion 1].
  - simpl in Hr, Hc. rewrite IH, cellAt_set2 by lia.
    destruct (decide ((r + lr, c + lc) ∈ (r0, c0) :: cells)) as [Hin|Hnin].
    + destruct (decide ((r, c) = (r0 - lr, c0 - lc))) as [[= -> ->]|Hne].
      * destruct (decide _); [|done]. by destruct (cellAt g0 _ _).
      * rewrite decide_True; [done|].
        apply elem_of_cons in Hin as [[= ? ?]|?]; [|done].
        destruct Hne. f_equal; lia.
    + rewrite decide_False by (intros ?; apply Hnin; by right).
      rewrite decide_False; [done|]. intros [= -> ->]. apply Hnin.
      replace (r0 - lr + lr) with r0 by lia. replace (c0 - lc + lc) with c0 by lia.
      left.
Qed.

Section Normalize2DGrid.
Variable g : OrthographicGridState.

Let C := cellsOf g.
Let lr := minOver fst GRID_SIZE C.
Let hr := maxOver fst (-1) C.
Let lc := minOver snd GRID_SIZE C.
Let hc := maxOver snd (-1) C.

Lemma cellsOf_scan rc :
  rc ∈ C → 0 ≤ fst rc < GRID_SIZE ∧ 0 ≤ snd rc < GRID_SIZE.
Proof. destruct rc as [r c]. intros (_ & Hr & Hc)%elem_of_cellsOf. done. Qed.

Lemma cellsOf_bounds rc :
  rc ∈ C →
  0 ≤ lr ≤ fst rc ∧ fst rc ≤ hr < GRID_SIZE ∧
  0 ≤ lc ≤ snd rc ∧ snd rc ≤ hc < GRID_SIZE.
Proof.
  intros Hrc.
  pose proof (minOver_le fst C GRID_SIZE rc Hrc).
  pose proof (minOver_le snd C GRID_SIZE rc Hrc).
  pose proof (maxOver_ge fst C (-1) rc Hrc).
  pose proof (maxOver_ge snd C (-1) rc Hrc).
  assert (0 ≤ lr).
  { destruct (minOver_cases fst C GRID_SIZE) as [Heq | (a & Ha & Heq)];
      subst lr; [rewrite Heq; done|]. rewrite <- Heq. apply (cellsOf_scan a Ha). }
  assert (0 ≤ lc).
  { destruct (minOver_cases snd C GRID_SIZE) as [Heq | (a & Ha & Heq)];
      subst lc; [rewrite Heq; done|]. rewrite <- Heq. apply (cellsOf_scan a Ha). }
  assert (hr < GRID_SIZE).
  { destruct (maxOver_cases fst C (-1)) as [Heq | (a & Ha & Heq)];
      subst hr; [rewrite Heq; done|]. rewrite <- Heq. apply (cellsOf_scan a Ha). }
  assert (hc < GRID_SIZE).
  { destruct (maxOver_cases snd C (-1)) as [Heq | (a & Ha & Heq)];
      subst hc; [rewrite Heq; done|]. rewrite <- Heq. apply (cellsOf_scan a Ha). }
  subst lr lc hr hc. lia.
Qed.

Lemma cellsOf_extremes :
  C ≠ [] →
  isMinOf fst C lr ∧ isMaxOf fst C hr ∧ isMinOf snd C lc ∧ isMaxOf snd C hc.
Proof.
  intros Hne. repeat split.
  - apply (minOver_isMinOf fst C GRID_SIZE Hne).
    intros a Ha. pose proof (cellsOf_scan a Ha). lia.
  - by intros a; apply minOver_le.
  - apply (maxOver_isMaxOf fst C (-1) Hne).
    intros a Ha. pose proof (cellsOf_scan a Ha). lia.
  - by intros a; apply maxOver_ge.
  - apply (minOver_isMinOf snd C GRID_SIZE Hne).
    intros a Ha. pose proof (cellsOf_scan a Ha). lia.
  - by intros a; apply minOver_le.
  - apply (maxOver_isMaxOf snd C (-1) Hne).
    intros a Ha. pose proof (cellsOf_scan a Ha). lia.
  - by intros a; apply maxOver_ge.
Qed.

Lemma normalize2DGrid_empty :
  C = [] → normalize2DGrid g = mkNormalized2D [] (mkSize 0 0).
Proof.
  intros HC. unfold normalize2DGrid. rewrite scanGrid_eq. cbn [filledCells].
  fold C. by rewrite HC.
Qed.

Lemma normalize2DGrid_nonempty :
  C ≠ [] →
  normalize2DGrid g
  = mkNormalized2D
      (fold_left (λ grid '(r, c), set2 grid (r - lr) (c - lc) 1) C
         (createEmptyGrid (hr - lr + 1) (hc - lc + 1)))
      (mkSize (hc - lc + 1) (hr - lr + 1)).
Proof.
  intros HC. unfold normalize2DGrid. rewrite scanGrid_eq.
  cbn [filledCells minR maxR minC maxC]. fold C.
  destruct C; [done|]. reflexivity.
Qed.

Lemma normalize2DGrid_extent :
  C ≠ [] →
  hasExtent2 (normalizedGrid (normalize2DGrid g)) (hr - lr + 1) (hc - lc + 1).
Proof.
  intros HC. rewrite normalize2DGrid_nonempty by done. cbn [normalizedGrid].
  unfold hasExtent2. rewrite paint2_shape. apply shape2_createEmptyGrid.
Qed.

Lemma normalize2DGrid_cellAt r c :
  C ≠ [] →
  cellAt (normalizedGrid (normalize2DGrid g)) r c
  = if (0 <=? r) && (r <? hr - lr + 1) && (0 <=? c) && (c <? hc - lc + 1)
    then Some (if decide ((r + lr, c + lc) ∈ C) then 1 else 0)
    else None.
Proof.
  intros HC. rewrite normalize2DGrid_nonempty by done. cbn [normalizedGrid].
  rewrite cellAt_paint2.
  - rewrite cellAt_createEmptyGrid_eq. destruct (_ && _); by destruct (decide _).
  - apply Forall_forall. intros rc Hrc. pose proof (cellsOf_bounds rc Hrc). lia.
Qed.

(** The filled cells of the normalised grid are the shifted ones. *)
Lemma elem_of_cellsOf_normalize2DGrid r c :
  C ≠ [] →
  (r, c) ∈ cellsOf (normalizedGrid (normalize2DGrid g)) ↔ (r + lr, c + lc) ∈ C.
Proof.
  intros HC. rewrite elem_of_cellsOf, hasCell_cellAt, normalize2DGrid_cellAt by done.
  split.
  - intros [Hcell _]. destruct (_ && _); [|done].
    by destruct (decide _).
  - intros Hin. pose proof (cellsOf_bounds _ Hin) as Hb. simpl in Hb.
    replace (_ && _) with true
      by (symmetry; rewrite !andb_true_iff, !Z.leb_le, !Z.ltb_lt; lia).
    rewrite decide_True by done. split; [done | lia].
Qed.
End Normalize2DGrid.

Lemma normalized2D_eta n : n = mkNormalized2D (normalizedGrid n) (dimensions n).
Proof. by destruct n. Qed.

Lemma normalize2DGrid_dimensions g :
  cellsOf g ≠ [] →
  dimensions (normalize2DGrid g)
  = mkSize (maxOver snd (-1) (cellsOf g) - minOver snd GRID_SIZE (cellsOf g) + 1)
           (maxOver fst (-1) (cellsOf g) - minOver fst GRID_SIZE (cellsOf g) + 1).
Proof. intros HC. by rewrite normalize2DGrid_nonempty. Qed.

(** The extremes of the filled cells of a normalised grid. *)
Lemma normalize2DGrid_extremes g :
  cellsOf g ≠ [] →
  let N := normalizedGrid (normalize2DGrid g) in
  cellsOf N ≠ [] ∧
  minOver fst GRID_SIZE (cellsOf N) = 0 ∧
  maxOver fst (-1) (cellsOf N)
    = maxOver fst (-1) (cellsOf g) - minOver fst GRID_SIZE (cellsOf g) ∧
  minOver snd GRID_SIZE (cellsOf N) = 0 ∧
  maxOver snd (-1) (cellsOf N)
    = maxOver snd (-1) (cellsOf g) - minOver snd GRID_SIZE (cellsOf g).
Proof.
  intros HC N.
  destruct (cellsOf_extremes g HC)
    as ([(a1 & Ha1 & E1) _] & [(a2 & Ha2 & E2) _] & [(a3 & Ha3 & E3) _]
        & [(a4 & Ha4 & E4) _]).
  assert (Hin : ∀ r c, (r, c) ∈ cellsOf g →
    (r - minOver fst GRID_SIZE (cellsOf g),
     c - minOver snd GRID_SIZE (cellsOf g)) ∈ cellsOf N).
  { intros r c Hrc. apply elem_of_cellsOf_normalize2DGrid; [done|].
    by replace (r - _ + _) with r by lia; replace (c - _ + _) with c by lia. }
  assert (Hout : ∀ rc, rc ∈ cellsOf N →
    (fst rc + minOver fst GRID_SIZE (cellsOf g),
     snd rc + minOver snd GRID_SIZE (cellsOf g)) ∈ cellsOf g).
  { intros [r c] Hrc. by apply elem_of_cellsOf_normalize2DGrid in Hrc. }
  assert (HN : cellsOf N ≠ []).
  { destruct a1 as [r c]. specialize (Hin r c Ha1). intros E. rewrite E in Hin.
    by inversion Hin. }
  destruct (cellsOf_extremes N HN) as (M1 & M2 & M3 & M4).
  split; [done|]. repeat split.
  - apply (isMinOf_unique _ _ _ _ M1). split.
    + destruct a1 as [r c]. eexists. split; [apply (Hin r c Ha1)|].
      cbn [fst snd] in *. lia.
    + intros a Ha. pose proof (cellsOf_scan N a Ha). lia.
  - apply (isMaxOf_unique _ _ _ _ M2). split.
    + destruct a2 as [r c]. eexists. split; [apply (Hin r c Ha2)|].
      cbn [fst snd] in *. lia.
    + intros a Ha. pose proof (cellsOf_bounds g _ (Hout a Ha)). cbn [fst snd] in *. lia.
  - apply (isMinOf_unique _ _ _ _ M3). split.
    + destruct a3 as [r c]. eexists. split; [apply (Hin r c Ha3)|].
      cbn [fst snd] in *. lia.
    + intros a Ha. pose proof (cellsOf_scan N a Ha). lia.
  - apply (isMaxOf_unique _ _ _ _ M4). split.
    + destruct a4 as [r c]. eexists. split; [apply (Hin r c Ha4)|].
      cbn [fst snd] in *. lia.
    + intros a Ha. pose proof (cellsOf_bounds g _ (Hout a Ha)). cbn [fst snd] in *. lia.
Qed.

Lemma normalize2DGrid_idempotent g :
  normalize2DGrid (normalizedGrid (normalize2DGrid g)) = normalize2DGrid g.
Proof.
  destruct (decide (cellsOf g = [])) as [Hnil|Hne].
  - rewrite (normalize2DGrid_empty g Hnil). reflexivity.
  - destruct (normalize2DGrid_extremes g Hne) as (HN & E1 & E2 & E3 & E4).
    rewrite (normalized2D_eta (normalize2DGrid (normalizedGrid _))).
    rewrite (normalized2D_eta (normalize2DGrid g)) at 3. f_equal.
    + apply grid_ext.
      * pose proof (normalize2DGrid_extent _ HN) as S1.
        pose proof (normalize2DGrid_extent g Hne) as S2.
        unfold hasExtent2 in S1, S2. rewrite S1, S2, E1, E2, E3, E4.
        f_equal; f_equal; lia.
      * intros r c. rewrite (normalize2DGrid_cellAt _ r c HN).
        rewrite (normalize2DGrid_cellAt g r c Hne).
        rewrite E1, E2, E3, E4, !Z.sub_0_r, !Z.add_0_r.
        destruct (_ && _); [|done]. f_equal.
        pose proof (elem_of_cellsOf_normalize2DGrid g r c Hne) as Hiff.
        destruct (decide _) as [H1|H1], (decide _) as [H2|H2]; try done.
        -- destruct H2. by apply Hiff.
        -- destruct H1. by apply Hiff.
    + rewrite !normalize2DGrid_dimensions by done.
      rewrite E1, E2, E3, E4. f_equal; lia.
Qed.

(** C5. Normalisation is idempotent: normalising the cube returned by
    [normalizePolyCube] returns that same cube, and normalising the grid
    returned by [normalize2DGrid] returns the same grid and the same
    dimensions, for every input (empty ones included). *)
Theorem C5_normalization_idempotent :
  (∀ p : PolyCube,
     normalizePolyCube (normalizePolyCube p) = normalizePolyCube p)
  ∧ (∀ g : OrthographicGridState,
       normalize2DGrid (normalizedGrid (normalize2DGrid g)) = normalize2DGrid g).
Proof. split; [apply normalizePolyCube_idempotent | apply normalize2DGrid_idempotent]. Qed.

Lemma normalizePolyCube_normalizedCube p : blocksOf p ≠ [] → normalizedCube p.
Proof.
  intros Hne.
  exists (minOver xOf GRID_SIZE (blocksOf p)), (minOver yOf GRID_SIZE (blocksOf p)),
    (minOver zOf GRID_SIZE (blocksOf p)).
  split; [apply minOver_isMinOf, (minOver_coord_bound xOf); tauto|].
  split; [apply minOver_isMinOf, (minOver_coord_bound yOf); tauto|].
  split; [apply minOver_isMinOf, (minOver_coord_bound zOf); tauto|].
  split; [rewrite normalizePolyCube_eq; apply toPolyCube_shape|].
  split; [apply normalizePolyCube_voxelAt|].
  by apply normalizePolyCube_min_zero.
Qed.

Lemma normalize2DGrid_normalizedSilhouette g :
  cellsOf g ≠ [] → normalizedSilhouette g.
Proof.
  intros Hne.
  destruct (cellsOf_extremes g Hne) as (M1 & M2 & M3 & M4).
  destruct (normalize2DGrid_extremes g Hne) as (HN & E1 & _ & E3 & _).
  destruct (cellsOf_extremes _ HN) as (N1 & _ & N3 & _).
  rewrite E1 in N1. rewrite E3 in N3.
  eexists _, _, _, _. repeat (split; [eassumption|]).
  split; [by apply normalize2DGrid_extent|].
  split; [by apply normalize2DGrid_dimensions|].
  split; [|done]. intros r c. by apply normalize2DGrid_cellAt.
Qed.

(** C4, as stated, fails for cubes: the cube returned by
    [normalizePolyCube] keeps the edge GRID_SIZE on every axis.  For the
    single block (2, 0, 5) the occupied x coordinates have min = max = 2,
    and the returned cube has 8 entries along x, not 1. *)
Lemma C4_fixed_container_counterexample :
  blocksOf (set3 emptyPolyCube (2, 0, 5) 1) = [(2, 0, 5)]
  ∧ ¬ tightAlongX (set3 emptyPolyCube (2, 0, 5) 1)
        (normalizePolyCube (set3 emptyPolyCube (2, 0, 5) 1)).
Proof.
  assert (HB : blocksOf (set3 emptyPolyCube (2, 0, 5) 1) = [(2, 0, 5)])
    by (vm_compute; reflexivity).
  split; [done|]. intros Htight. specialize (Htight 2 2). rewrite HB in Htight.
  assert (Hlen : length (normalizePolyCube (set3 emptyPolyCube (2, 0, 5) 1)) = 8%nat)
    by (vm_compute; reflexivity).
  rewrite Hlen in Htight.
  assert (Z.of_nat 8 = 2 - 2 + 1); [|lia].
  apply Htight; (split; [exists (2, 0, 5); split; [left | done]|]);
    intros a ->%list_elem_of_singleton; done.
Qed.

(** C4, amended.  For a cube with an occupied voxel, [normalizePolyCube]
    returns a cube of edge GRID_SIZE (not a tight container) in which a
    voxel is 1 exactly when the voxel moved back by the minimum of each axis
    is occupied in the input, and 0 otherwise.  For a grid with a filled
    cell, [normalize2DGrid] returns a grid of exactly max - min + 1 rows and
    columns, with the same shifted contents, and reports these extents.  In
    both, the least occupied coordinate is 0 on every axis.  Occupied means:
    holding 1 at indices below GRID_SIZE. *)
Theorem C4_normalization_shifts_to_origin (p : PolyCube) (g : OrthographicGridState) :
  blocksOf p ≠ [] → cellsOf g ≠ [] →
  normalizedCube p ∧ normalizedSilhouette g.
Proof.
  intros Hp Hg. split.
  - by apply normalizePolyCube_normalizedCube.
  - by apply normalize2DGrid_normalizedSilhouette.
Qed.

Lemma C4_normalization_shifts_to_origin_witness :
  normalizedCube (set3 (set3 emptyPolyCube (2, 0, 5) 1) (3, 0, 5) 1)
  ∧ normalizedSilhouette (set2 (set2 (createEmptyGrid 8 8) 3 4 1) 4 4 1).
Proof.
  apply (C4_normalization_shifts_to_origin
           (set3 (set3 emptyPolyCube (2, 0, 5) 1) (3, 0, 5) 1)
           (set2 (set2 (createEmptyGrid 8 8) 3 4 1) 4 4 1));
    vm_compute; discriminate.
Defined.

(** ** Face visibility *)

Section RendererFacts.
Context `{JSMath}.

Lemma elem_of_drawFace p b rx ry face d :
  d ∈ drawFace p b rx ry face →
  drawnBlock d = b ∧ drawnFace d = face
  ∧ isNaturallyExposed p b face = true ∧ isFacingCamera face rx ry = true.
Proof.
  unfold drawFace. destruct (isNaturallyExposed p b face); simpl;
    [|by inversion 1].
  destruct (isFacingCamera face rx ry); [|by inversion 1].
  destruct (faceStyle face) as [fill dashed].
  intros ->%list_elem_of_singleton. done.
Qed.

(** Whatever is drawn passed the occlusion test and the camera test. *)
Lemma elem_of_render p rx ry d :
  d ∈ render p rx ry →
  drawnFace d ∈ UNIT_CUBE_FACES
  ∧ isNaturallyExposed p (drawnBlock d) (drawnFace d) = true
  ∧ isFacingCamera (drawnFace d) rx ry = true.
Proof.
  unfold render. destruct (_ || _); [by inversion 1|].
  intros (blk & (face & Hd & Hface)%list_elem_of_bind & _)%list_elem_of_bind.
  apply elem_of_drawFace in Hd as (-> & -> & He & Hf). done.
Qed.

(** A face whose neighbour cell holds a block is not naturally exposed. *)
Lemma covered_face_not_exposed p b face :
  addBlock b (normal face) ∈ blocksOf p → isNaturallyExposed p b face = false.
Proof.
  intros [Hb Hin]%elem_of_blocksOf. unfold isNaturallyExposed.
  destruct (addBlock b (normal face)) as [[nx ny] nz].
  apply hasBlock_voxelAt in Hb. rewrite Hb. apply inGrid_spec in Hin.
  rewrite !orb_false_iff, !Z.ltb_ge, !Z.leb_gt. simpl. lia.
Qed.

Lemma facing_at_rest :
  isFacingCamera topFace 0 0 = true ∧ isFacingCamera bottomFace 0 0 = false ∧
  isFacingCamera frontFace 0 0 = true ∧ isFacingCamera backFace 0 0 = false ∧
  isFacingCamera rightFace 0 0 = true ∧ isFacingCamera leftFace 0 0 = false.
Proof.
  unfold isFacingCamera, dotProduct, rotateVector, applyRotation.
  rewrite Math_cos_zero, Math_sin_zero. vm_compute. done.
Qed.

Lemma lone_block_exposed p b face :
  blocksOf p = [b] → face ∈ UNIT_CUBE_FACES → isNaturallyExposed p b face = true.
Proof.
  intros HB Hface.
  assert (Hn : addBlock b (normal face) ≠ b).
  { destruct b as [[x y] z]. unfold UNIT_CUBE_FACES in Hface.
    repeat (apply elem_of_cons in Hface as [->|Hface]);
      [..|by inversion Hface]; simpl; intros [= ? ? ?]; lia. }
  destruct (isNaturallyExposed p b face) eqn:He; [done|]. destruct Hn.
  assert (Hin : addBlock b (normal face) ∈ blocksOf p);
    [|by rewrite HB in Hin; apply list_elem_of_singleton in Hin].
  unfold isNaturallyExposed in He.
  destruct (addBlock b (normal face)) as [[nx ny] nz].
  rewrite !orb_false_iff, !Z.ltb_ge, !Z.leb_gt in He.
  destruct He as [Hrange Hv]. apply elem_of_blocksOf. split.
  - apply hasBlock_voxelAt. destruct (voxelAt p (nx, ny, nz)) as [v|]; [|done].
    apply negb_false_iff, Z.eqb_eq in Hv. by subst.
  - apply inGrid_spec. lia.
Qed.

Lemma render_lone_block p b :
  blocksOf p = [b] →
  render p 0 0
  = drawFace p b 0 0 topFace ++ drawFace p b 0 0 bottomFace
    ++ drawFace p b 0 0 frontFace ++ drawFace p b 0 0 backFace
    ++ drawFace p b 0 0 rightFace ++ drawFace p b 0 0 leftFace.
Proof.
  intros HB. unfold render.
  assert (Hb : b ∈ blocksOf p) by (rewrite HB; left).
  apply elem_of_blocksOf in Hb as [Hb Hin].
  assert (Hlen : (length p =? 0)%nat = false).
  { destruct p; [by destruct b as [[x y] z]|done]. }
  assert (Hw : (width (calculateDimensions p) =? 0) = false).
  { unfold calculateDimensions. rewrite boundsStep_fold.
    fold (blocksOf p). rewrite HB. cbn. destruct b as [[x y] z].
    apply inGrid_spec in Hin. unfold xOf, GRID_SIZE in *. cbn.
    destruct (Z.eqb_spec (Z.max (-1) x) (-1)); [lia|]. cbn.
    apply Z.eqb_neq. lia. }
  rewrite Hlen, Hw. cbn [orb].
  unfold activeBlocks.
  rewrite (fold_push_filter (hasBlock p) (drawable 0 0)).
  fold (blocksOf p). rewrite HB. cbn [fmap list_fmap app stableSort foldr insertSorted].
  rewrite bind_cons. cbn [original drawable]. destruct b as [[x y] z].
  cbn [original]. unfold drawIsometricBlockFaces, UNIT_CUBE_FACES.
  rewrite !bind_cons. cbn [mbind list_bind]. by rewrite !app_nil_r.
Qed.
End RendererFacts.

(** C6. When two voxels met by the render scan are adjacent along one
    axis, the face of each towards the other fails the occlusion test on
    the unrotated grid, [drawFace] returns nothing for it without looking
    at the camera test, and no face drawn at any rotation is one of these
    two. *)
Theorem C6_shared_face_never_drawn `{JSMath} (p : PolyCube)
    (rotationX rotationY : float) (b b' : BlockCoordinates)
    (face face' : FaceDefinition) :
  b ∈ blocksOf p → b' ∈ blocksOf p →
  b' = addBlock b (normal face) → b = addBlock b' (normal face') →
  (isNaturallyExposed p b face = false
   ∧ isNaturallyExposed p b' face' = false)
  ∧ (drawFace p b rotationX rotationY face = []
     ∧ drawFace p b' rotationX rotationY face' = [])
  ∧ ∀ d, d ∈ render p rotationX rotationY →
         (drawnBlock d, drawnFace d) ≠ (b, face)
         ∧ (drawnBlock d, drawnFace d) ≠ (b', face').
Proof.
  intros Hb Hb' E E'.
  assert (He : isNaturallyExposed p b face = false)
    by (apply covered_face_not_exposed; by rewrite <- E).
  assert (He' : isNaturallyExposed p b' face' = false)
    by (apply covered_face_not_exposed; by rewrite <- E').
  split; [done|]. split.
  - unfold drawFace. by rewrite He, He'.
  - intros d (_ & Hd & _)%elem_of_render.
    split; intros [= Hblk Hface]; rewrite Hblk, Hface in Hd; congruence.
Qed.

Lemma C6_shared_face_never_drawn_witness :
  drawFace (H := polyMath) (set3 (set3 emptyPolyCube (0, 0, 0) 1) (1, 0, 0) 1)
    (0, 0, 0) 0.25%float 1.5%float rightFace = []
  ∧ drawFace (H := polyMath) (set3 (set3 emptyPolyCube (0, 0, 0) 1) (1, 0, 0) 1)
      (1, 0, 0) 0.25%float 1.5%float leftFace = [].
Proof.
  refine (proj1 (proj2 (C6_shared_face_never_drawn (H := polyMath)
            (set3 (set3 emptyPolyCube (0, 0, 0) 1) (1, 0, 0) 1)
            0.25%float 1.5%float (0, 0, 0) (1, 0, 0) rightFace leftFace
            _ _ _ _))).
  - apply elem_of_blocksOf. split; vm_compute; reflexivity.
  - apply elem_of_blocksOf. split; vm_compute; reflexivity.
  - reflexivity.
  - reflexivity.
Defined.

Section EffectRuns.
Context `{JSMath}.

Lemma drawIsometricBlockFaces_eq p b rx ry :
  drawIsometricBlockFaces p b rx ry
  = drawFace p b rx ry topFace ++ drawFace p b rx ry bottomFace
    ++ drawFace p b rx ry frontFace ++ drawFace p b rx ry backFace
    ++ drawFace p b rx ry rightFace ++ drawFace p b rx ry leftFace.
Proof.
  unfold drawIsometricBlockFaces, UNIT_CUBE_FACES.
  rewrite !bind_cons. cbn [mbind list_bind]. by rewrite !app_nil_r.
Qed.

Lemma isPolyCubeChanged_false prev p : isPolyCubeChanged prev p = false ↔ prev = Some p.
Proof.
  unfold isPolyCubeChanged. rewrite bool_decide_eq_false. split.
  - intros Hnn. by destruct (decide (prev = Some p)).
  - intros Heq Hne. by apply Hne.
Qed.

(** A run draws only if the polyCube is the one of the previous run and the
    canvas has a context, and then it draws what [render] gives. *)
Lemma renderEffect_drawing hasContext prev p rx ry :
  facesDrawn (renderEffect hasContext prev p rx ry)
  = if bool_decide (prev = Some p) && hasContext then render p rx ry else [].
Proof.
  unfold renderEffect.
  destruct (isPolyCubeChanged prev p) eqn:Hc.
  - rewrite bool_decide_eq_false_2; [done|].
    intros Heq%isPolyCubeChanged_false. congruence.
  - apply isPolyCubeChanged_false in Hc. rewrite bool_decide_eq_true_2 by done.
    by destruct hasContext.
Qed.

Lemma renderEffect_changed hasContext prev p rx ry :
  prev ≠ Some p →
  renderEffect hasContext prev p rx ry = mkEffectRun true (Some p) [].
Proof.
  intros Hne. unfold renderEffect, isPolyCubeChanged.
  by rewrite bool_decide_eq_true_2.
Qed.
End EffectRuns.

(** C7. For a polyCube whose scan meets exactly one voxel,
    [drawIsometricBlockFaces] at the angles (0, 0) draws exactly three faces
    of it, in this order: top (+y), front (+z) and right (+x), and these are
    the faces of a run of the render effect that draws, which is a run with
    a canvas context for the polyCube of the previous run; a run for a
    polyCube that has just changed resets the angles and draws nothing.  All
    six faces pass the neighbour occlusion test; bottom, back and left fail
    the camera test. *)
Theorem C7_lone_voxel_three_faces `{JSMath} (p : PolyCube) (b : BlockCoordinates) :
  blocksOf p = [b] →
  ((λ d, (drawnBlock d, drawnFace d)) <$> drawIsometricBlockFaces p b 0 0
   = [(b, topFace); (b, frontFace); (b, rightFace)])
  ∧ ((λ d, (drawnBlock d, drawnFace d))
       <$> facesDrawn (renderEffect true (Some p) p 0 0)
     = [(b, topFace); (b, frontFace); (b, rightFace)])
  ∧ (∀ hasContext prevPolyCube,
       prevPolyCube ≠ Some p →
       renderEffect hasContext prevPolyCube p 0 0 = mkEffectRun true (Some p) [])
  ∧ (∀ face, face ∈ UNIT_CUBE_FACES → isNaturallyExposed p b face = true)
  ∧ isFacingCamera bottomFace 0 0 = false
  ∧ isFacingCamera backFace 0 0 = false
  ∧ isFacingCamera leftFace 0 0 = false.
Proof.
  intros HB. destruct facing_at_rest as (F1 & F2 & F3 & F4 & F5 & F6).
  assert (Hdraw : (λ d, (drawnBlock d, drawnFace d)) <$> drawIsometricBlockFaces p b 0 0
                  = [(b, topFace); (b, frontFace); (b, rightFace)]).
  { rewrite drawIsometricBlockFaces_eq. unfold drawFace.
    rewrite !(lone_block_exposed p b _ HB), F1, F2, F3, F4, F5, F6 by in_list.
    reflexivity. }
  split; [exact Hdraw|]. split.
  - rewrite renderEffect_drawing, bool_decide_eq_true_2 by done. cbn [andb].
    rewrite (render_lone_block p b HB), <- drawIsometricBlockFaces_eq. exact Hdraw.
  - split; [intros hasContext prev Hne; by apply renderEffect_changed|].
    split; [intros face; by apply lone_block_exposed | done].
Qed.

Lemma C7_lone_voxel_three_faces_witness :
  (λ d, (drawnBlock d, drawnFace d))
    <$> drawIsometricBlockFaces (H := polyMath) (set3 emptyPolyCube (3, 2, 1) 1)
          (3, 2, 1) 0 0
  = [((3, 2, 1), topFace); ((3, 2, 1), frontFace); ((3, 2, 1), rightFace)].
Proof.
  refine (proj1 (C7_lone_voxel_three_faces (H := polyMath)
                   (set3 emptyPolyCube (3, 2, 1) 1) (3, 2, 1) _)).
  vm_compute. reflexivity.
Defined.

(** ** The random source and the sort *)

Lemma floorMul_bounds u n : 0 < n → 0 ≤ floorMul u n < n.
Proof.
  intros Hn. unfold floorMul.
  set (a := Z.of_nat (u_num u)). set (d := a + Z.of_nat (u_gap u) + 1).
  assert (0 ≤ a) by lia. assert (a < d) by lia. split.
  - apply Z.div_pos; nia.
  - apply Z.div_lt_upper_bound; nia.
Qed.

Lemma drawTarget_range level u :
  min (BLOCK_COUNTS_BY_LEVEL level) ≤ drawTarget level u
  ≤ max (BLOCK_COUNTS_BY_LEVEL level).
Proof.
  unfold drawTarget.
  pose proof (floorMul_bounds u
    (max (BLOCK_COUNTS_BY_LEVEL level) - min (BLOCK_COUNTS_BY_LEVEL level) + 1)).
  destruct level; simpl in *; lia.
Qed.

Lemma elem_of_insertSorted {A} (after : A → A → bool) a l x :
  x ∈ insertSorted after a l ↔ x = a ∨ x ∈ l.
Proof.
  induction l as [|b l IH]; simpl.
  - rewrite list_elem_of_singleton. split; [tauto|]. intros [?|Hx]; [done|].
    by inversion Hx.
  - destruct (after a b); rewrite !elem_of_cons; [rewrite IH|]; tauto.
Qed.

Lemma elem_of_stableSort {A} (after : A → A → bool) l x :
  x ∈ stableSort after l ↔ x ∈ l.
Proof.
  unfold stableSort. induction l as [|a l IH]; simpl; [done|].
  rewrite elem_of_insertSorted, elem_of_cons, IH. done.
Qed.

Lemma length_insertSorted {A} (after : A → A → bool) a l :
  length (insertSorted after a l) = S (length l).
Proof. induction l as [|b l IH]; simpl; [done|]. destruct (after a b); simpl; lia. Qed.

Lemma length_stableSort {A} (after : A → A → bool) l :
  length (stableSort after l) = length l.
Proof.
  unfold stableSort. induction l as [|a l IH]; simpl; [done|].
  by rewrite length_insertSorted, IH.
Qed.

(** ** Candidates of a growth step *)

Lemma candidateStep_inv m l c0 n :
  n ∈ potentialPoints (fold_left (candidateStep m) l c0) →
  n ∈ potentialPoints c0 ∨ (n ∈ l ∧ inGrid n = true ∧ mapHas m n = false).
Proof.
  revert c0. induction l as [|a l IH]; intros c0; simpl; [tauto|].
  intros [Hn | (Hn & Hin & Hm)]%IH; [|right; split; [by right | done]].
  unfold candidateStep in Hn. destruct (_ && _) eqn:Hc; [|tauto].
  simpl in Hn. apply elem_of_app in Hn as [Hn | ->%list_elem_of_singleton];
    [tauto|].
  apply andb_true_iff in Hc as [[Hin Hm]%andb_true_iff _].
  apply negb_true_iff in Hm. right. split; [left | done].
Qed.

Lemma collectCandidates_inv st n :
  n ∈ potentialPoints (collectCandidates st) →
  inGrid n = true ∧ mapHas (tempBlockMap st) n = false
  ∧ ∃ b d, b ∈ existingBlocks st ∧ d ∈ neighbors ∧ n = addBlock b d.
Proof.
  unfold collectCandidates.
  intros [Hn | (Hn & Hin & Hm)]%candidateStep_inv; [by inversion Hn|].
  split; [done|]. split; [done|].
  apply list_elem_of_bind in Hn as (b & Hn & Hb).
  apply list_elem_of_bind in Hn as (d & Hn & Hd).
  apply list_elem_of_singleton in Hn. eauto.
Qed.

(** ** The growth loop *)

Lemma idx_elem_of {A} (l : list A) i a : idx l i = Some a → a ∈ l.
Proof. intros [_ Hl]%idx_Some. by eapply list_elem_of_lookup_2. Qed.

Lemma mapHas_insert (m : gmap BlockCoordinates bool) k b :
  mapHas (<[k := true]> m) b = true ↔ b = k ∨ mapHas m b = true.
Proof.
  unfold mapHas. rewrite !bool_decide_eq_true.
  destruct (decide (b = k)) as [->|Hne].
  - rewrite lookup_insert_eq. split; [by left | by eauto].
  - rewrite lookup_insert_ne by done. tauto.
Qed.

Lemma pushBlock_inv st n :
  growInv st → n ∈ potentialPoints (collectCandidates st) →
  growInv (pushBlock st n).
Proof.
  intros (Hnd & Hgrid & Hmap & Hgrown) (Hin & Hm & b & d & Hb & Hd & ->)%collectCandidates_inv.
  assert (Hfresh : addBlock b d ∉ existingBlocks st).
  { intros Hn%Hmap. congruence. }
  unfold growInv, pushBlock. cbn [existingBlocks tempBlockMap]. repeat split.
  - apply NoDup_app. split; [done|]. split; [|apply NoDup_singleton].
    intros x Hx ->%list_elem_of_singleton. done.
  - apply Forall_app. split; [done|]. by apply Forall_singleton.
  - intros [->|Hx]%mapHas_insert; apply elem_of_app;
      [right; by apply list_elem_of_singleton | left; by apply Hmap].
  - intros [Hx%Hmap | ->%list_elem_of_singleton]%elem_of_app;
      apply mapHas_insert; tauto.
  - by apply Grown_push.
Qed.

Lemma grow_inv iters st src st' src' :
  growInv st → grow iters st src = (st', src') →
  growInv st'
  ∧ (length (existingBlocks st') ≤ length (existingBlocks st) + iters)%nat
  ∧ (length (existingBlocks st) ≤ length (existingBlocks st'))%nat.
Proof.
  revert st src. induction iters as [|iters IH]; intros st src Hinv; simpl.
  - intros [= <- <-]. split; [done | lia].
  - destruct (length _ =? 0)%nat; [intros [= <- <-]; split; [done | lia]|].
    unfold bind, random.
    destruct (idx _ _) as [nextBlock|] eqn:Hidx;
      [|intros [= <- <-]; split; [done | lia]].
    intros Hgrow. apply IH in Hgrow as (Hinv' & Hlen & Hlen').
    + split; [done|]. unfold pushBlock in Hlen, Hlen'.
      cbn [existingBlocks] in Hlen, Hlen'. rewrite length_app in Hlen, Hlen'.
      simpl in Hlen, Hlen'. lia.
    + apply pushBlock_inv; [done|].
      apply idx_elem_of in Hidx. by apply elem_of_stableSort in Hidx.
Qed.

(** ** Attempts *)

Lemma seed_inv x z :
  0 ≤ x < GRID_SIZE → 0 ≤ z < GRID_SIZE →
  growInv (mkGrowState {[(x, 0, z) := true]} [(x, 0, z)]).
Proof.
  intros Hx Hz. unfold growInv. cbn [existingBlocks tempBlockMap]. repeat split.
  - apply NoDup_singleton.
  - apply Forall_singleton, inGrid_spec. unfold GRID_SIZE in *. lia.
  - unfold mapHas. rewrite bool_decide_eq_true. intros [v Hv].
    apply lookup_singleton_Some in Hv as [<- _]. left.
  - intros ->%list_elem_of_singleton. unfold mapHas. rewrite bool_decide_eq_true.
    rewrite lookup_singleton_eq. eauto.
  - constructor.
Qed.

(** A pass that returns a cube returns the normalised cube of a grown,
    duplicate-free list of cells of the grid, of at least [minBlocks] and at
    most [targetBlocks] cells. *)
Lemma attempt_Some minBlocks targetBlocks src p src' :
  1 ≤ targetBlocks →
  attempt minBlocks targetBlocks src = (Some p, src') →
  ∃ bs, Grown bs ∧ NoDup bs ∧ Forall (λ b, inGrid b = true) bs
        ∧ minBlocks ≤ Z.of_nat (length bs) ≤ targetBlocks
        ∧ p = normalizePolyCube (toPolyCube bs).
Proof.
  intros Ht. unfold attempt, bind, random.
  set (start := mkGrowState _ _).
  destruct (grow _ start _) as [st src1] eqn:Hgrow.
  apply grow_inv in Hgrow as ((Hnd & Hgrid & _ & Hgrown) & Hlen & _).
  - destruct (Z.ltb_spec (Z.of_nat (length (existingBlocks st))) minBlocks);
      [by intros [= ]|].
    destruct (_ || _); [by intros [= ]|]. unfold ret. intros Heq.
    injection Heq as <- <-.
    exists (existingBlocks st).
    split; [exact Hgrown|]. split; [exact Hnd|]. split; [exact Hgrid|].
    split; [|reflexivity].
    subst start. cbn [existingBlocks length] in Hlen. lia.
  - apply seed_inv; change (GRID_SIZE `div` 2) with 4; cbn [draws drawn].
    + pose proof (floorMul_bounds (draws src (drawn src)) 4 eq_refl).
      unfold GRID_SIZE. lia.
    + pose proof (floorMul_bounds (draws src (S (drawn src))) 4 eq_refl).
      unfold GRID_SIZE. lia.
Qed.

Lemma attemptLoop_Some remaining minBlocks targetBlocks src p src' :
  attemptLoop remaining minBlocks targetBlocks src = (Some p, src') →
  ∃ src1, attempt minBlocks targetBlocks src1 = (Some p, src').
Proof.
  revert src. induction remaining as [|remaining IH]; intros src; simpl;
    [by intros [= ]|].
  unfold bind at 1. destruct (attempt _ _ src) as [[q|] src1] eqn:Hatt.
  - intros [= <- <-]. eauto.
  - apply IH.
Qed.

Lemma generateContiguousShape_Some level src p src' :
  generateContiguousShape level src = (Some p, src') →
  ∃ bs, Grown bs ∧ NoDup bs ∧ Forall (λ b, inGrid b = true) bs
        ∧ min (BLOCK_COUNTS_BY_LEVEL level) ≤ Z.of_nat (length bs)
          ≤ drawTarget level (draws src (drawn src))
        ∧ p = normalizePolyCube (toPolyCube bs).
Proof.
  unfold generateContiguousShape, bind at 1, random.
  intros [src1 Hatt]%attemptLoop_Some. apply attempt_Some in Hatt; [done|].
  pose proof (drawTarget_range level (draws src (drawn src))).
  destruct level; simpl in *; lia.
Qed.

(** ** Counting blocks *)

Lemma blocksOf_toPolyCube bs :
  NoDup bs → Forall (λ b, inGrid b = true) bs → blocksOf (toPolyCube bs) ≡ₚ bs.
Proof.
  intros Hnd Hgrid. apply NoDup_Permutation; [apply NoDup_blocksOf | done|].
  intros b. rewrite elem_of_blocksOf, hasBlock_toPolyCube by done.
  split; [tauto|]. intros Hb. split; [done|].
  rewrite Forall_forall in Hgrid. by apply Hgrid.
Qed.

Lemma blocksOf_normalizePolyCube p :
  ∃ lx ly lz,
    (λ b, (xOf b - lx, yOf b - ly, zOf b - lz)) <$> blocksOf p
    ≡ₚ blocksOf (normalizePolyCube p).
Proof.
  set (lx := minOver xOf GRID_SIZE (blocksOf p)).
  set (ly := minOver yOf GRID_SIZE (blocksOf p)).
  set (lz := minOver zOf GRID_SIZE (blocksOf p)).
  exists lx, ly, lz. apply NoDup_Permutation.
  - apply NoDup_fmap_2_strong; [|apply NoDup_blocksOf].
    intros [[x y] z] [[x' y'] z'] _ _. unfold xOf, yOf, zOf. cbn [fst snd].
    intros [= ? ? ?]. f_equal; [f_equal|]; lia.
  - apply NoDup_blocksOf.
  - intros b. rewrite elem_of_blocksOf_normalizePolyCube, list_elem_of_fmap.
    fold lx ly lz. split.
    + intros ([[x y] z] & -> & Ha). unfold xOf, yOf, zOf. cbn [fst snd].
      by replace (x - lx + lx, y - ly + ly, z - lz + lz) with (x, y, z)
        by (f_equal; [f_equal|]; lia).
    + intros Hb. eexists. split; [|exact Hb]. destruct b as [[x y] z].
      unfold xOf, yOf, zOf. cbn [fst snd]. f_equal; [f_equal|]; lia.
Qed.

Lemma blockCount_normalizePolyCube p :
  blockCount (normalizePolyCube p) = blockCount p.
Proof.
  unfold blockCount. destruct (blocksOf_normalizePolyCube p) as (lx & ly & lz & HP).
  by rewrite <- HP, length_fmap.
Qed.

Lemma blockCount_generated bs :
  NoDup bs → Forall (λ b, inGrid b = true) bs →
  blockCount (normalizePolyCube (toPolyCube bs)) = Z.of_nat (length bs).
Proof.
  intros Hnd Hgrid. rewrite blockCount_normalizePolyCube. unfold blockCount.
  by rewrite blocksOf_toPolyCube.
Qed.

(** C2. Every cube returned by [generateContiguousShape] holds a number of
    occupied voxels between the [min] and the [max] that
    BLOCK_COUNTS_BY_LEVEL gives for the level, whatever the random draws. *)
Theorem C2_block_count_in_range (level : Level) (src src' : RandomSource)
    (p : PolyCube) :
  generateContiguousShape level src = (Some p, src') →
  min (BLOCK_COUNTS_BY_LEVEL level) ≤ blockCount p ≤ max (BLOCK_COUNTS_BY_LEVEL level).
Proof.
  intros (bs & _ & Hnd & Hgrid & Hlen & ->)%generateContiguousShape_Some.
  rewrite blockCount_generated by done.
  pose proof (drawTarget_range level (draws src (drawn src))). lia.
Qed.

Lemma C2_block_count_in_range_witness :
  4 ≤ blockCount
        (default [] (fst (generateContiguousShape LEVEL_1
                            (constSource (mkUnit01 2 1))))) ≤ 7.
Proof.
  apply (C2_block_count_in_range LEVEL_1 (constSource (mkUnit01 2 1))
           (snd (generateContiguousShape LEVEL_1 (constSource (mkUnit01 2 1))))).
  vm_compute. reflexivity.
Defined.

(** ** Connectivity *)

Lemma adjacent_sym a b : adjacent a b → adjacent b a.
Proof. unfold adjacent. lia. Qed.

Lemma adjacent_neighbor b d : d ∈ neighbors → adjacent b (addBlock b d).
Proof.
  destruct b as [[x y] z]. unfold neighbors. intros Hd.
  repeat (apply elem_of_cons in Hd as [->|Hd]); [..|by inversion Hd];
    unfold adjacent, xOf, yOf, zOf; cbn [addBlock fst snd]; lia.
Qed.

Lemma linkedIn_mono bs bs' a b :
  (∀ x, x ∈ bs → x ∈ bs') → linkedIn bs a b → linkedIn bs' a b.
Proof. intros Hsub (Ha & Hb & Hadj). split; [|split]; auto. Qed.

Lemma rtc_linkedIn_mono bs bs' a b :
  (∀ x, x ∈ bs → x ∈ bs') → rtc (linkedIn bs) a b → rtc (linkedIn bs') a b.
Proof.
  intros Hsub. apply rtc_subrel. intros x y. by apply linkedIn_mono.
Qed.

Lemma rtc_linkedIn_sym bs a b : rtc (linkedIn bs) a b → rtc (linkedIn bs) b a.
Proof.
  induction 1 as [|a b c (Ha & Hb & Hadj) _ IH]; [done|].
  eapply rtc_r; [exact IH|]. split; [done|]. split; [done|]. by apply adjacent_sym.
Qed.

(** A grown list is connected. *)
Lemma Grown_connected bs :
  Grown bs → ∀ a b, a ∈ bs → b ∈ bs → rtc (linkedIn bs) a b.
Proof.
  induction 1 as [s | bs b0 d Hgrown IH Hb0 Hd].
  - by intros a b ->%list_elem_of_singleton ->%list_elem_of_singleton.
  - set (n := addBlock b0 d).
    assert (Hsub : ∀ x, x ∈ bs → x ∈ bs ++ [n])
      by (intros x Hx; apply elem_of_app; by left).
    assert (Hn : n ∈ bs ++ [n])
      by (apply elem_of_app; right; by apply list_elem_of_singleton).
    assert (Hlink : linkedIn (bs ++ [n]) b0 n).
    { split; [by apply Hsub|]. split; [done|]. by apply adjacent_neighbor. }
    assert (Hto : ∀ a, a ∈ bs → rtc (linkedIn (bs ++ [n])) a n).
    { intros a Ha. eapply rtc_r; [|exact Hlink].
      eapply rtc_linkedIn_mono; [exact Hsub|]. by apply IH. }
    intros a b [Ha | ->%list_elem_of_singleton]%elem_of_app
                [Hb | ->%list_elem_of_singleton]%elem_of_app.
    + eapply rtc_linkedIn_mono; [exact Hsub|]. by apply IH.
    + by apply Hto.
    + by apply rtc_linkedIn_sym, Hto.
    + done.
Qed.

(** A translation that maps the cells of [bs] into [bs'] maps paths to
    paths. *)
Lemma rtc_linkedIn_translate bs bs' (t : BlockCoordinates) a b :
  (∀ x, x ∈ bs → addBlock x t ∈ bs') →
  rtc (linkedIn bs) a b → rtc (linkedIn bs') (addBlock a t) (addBlock b t).
Proof.
  intros Hmap. induction 1 as [|a b c (Ha & Hb & Hadj) _ IH]; [done|].
  eapply rtc_l; [|exact IH]. split; [by apply Hmap|]. split; [by apply Hmap|].
  destruct a as [[x y] z], b as [[x' y'] z'], t as [[tx ty] tz].
  unfold adjacent, xOf, yOf, zOf in *. cbn [addBlock fst snd] in *. lia.
Qed.

Lemma elem_of_blocksOf_toPolyCube bs b :
  Forall (λ a, inGrid a = true) bs → b ∈ blocksOf (toPolyCube bs) ↔ b ∈ bs.
Proof.
  intros Hgrid. rewrite elem_of_blocksOf, hasBlock_toPolyCube by done.
  split; [tauto|]. intros Hb. split; [done|].
  rewrite Forall_forall in Hgrid. by apply Hgrid.
Qed.

Lemma generated_sixConnected bs :
  Grown bs → NoDup bs → Forall (λ b, inGrid b = true) bs →
  sixConnected (normalizePolyCube (toPolyCube bs)).
Proof.
  intros Hgrown Hnd Hgrid.
  set (P := toPolyCube bs).
  set (lx := minOver xOf GRID_SIZE (blocksOf P)).
  set (ly := minOver yOf GRID_SIZE (blocksOf P)).
  set (lz := minOver zOf GRID_SIZE (blocksOf P)).
  assert (Hback : ∀ a, a ∈ blocksOf (normalizePolyCube P) →
            (xOf a + lx, yOf a + ly, zOf a + lz) ∈ bs).
  { intros a Ha%elem_of_blocksOf_normalizePolyCube.
    by apply (elem_of_blocksOf_toPolyCube bs _ Hgrid). }
  assert (Hfwd : ∀ x, x ∈ bs →
            addBlock x (- lx, - ly, - lz) ∈ blocksOf (normalizePolyCube P)).
  { intros [[x y] z] Hx. apply elem_of_blocksOf_normalizePolyCube.
    apply (elem_of_blocksOf_toPolyCube bs _ Hgrid).
    subst lx ly lz. unfold xOf, yOf, zOf. cbn [addBlock fst snd].
    match goal with
    | |- ?t ∈ bs => replace t with (x, y, z) by (f_equal; [f_equal|]; lia)
    end.
    done. }
  intros a b Ha Hb.
  pose proof (Grown_connected bs Hgrown _ _ (Hback a Ha) (Hback b Hb)) as Hpath.
  apply (rtc_linkedIn_translate bs (blocksOf (normalizePolyCube P))
           (- lx, - ly, - lz)) in Hpath; [|exact Hfwd].
  destruct a as [[ax ay] az], b as [[bx by_] bz].
  subst lx ly lz. unfold xOf, yOf, zOf in Hpath. cbn [addBlock fst snd] in Hpath.
  match type of Hpath with
  | rtc _ ?s ?t =>
      replace s with (ax, ay, az) in Hpath by (f_equal; [f_equal|]; lia);
      replace t with (bx, by_, bz) in Hpath by (f_equal; [f_equal|]; lia)
  end.
  exact Hpath.
Qed.

(** C3. Every cube returned by [generateContiguousShape] is 6-connected:
    any two occupied voxels are joined by a path of occupied voxels in
    which consecutive voxels differ by exactly 1 along exactly one axis. *)
Theorem C3_generated_shape_connected (level : Level) (src src' : RandomSource)
    (p : PolyCube) :
  generateContiguousShape level src = (Some p, src') → sixConnected p.
Proof.
  intros (bs & Hgrown & Hnd & Hgrid & _ & ->)%generateContiguousShape_Some.
  by apply generated_sixConnected.
Qed.

Lemma C3_generated_shape_connected_witness :
  sixConnected
    (default [] (fst (generateContiguousShape LEVEL_2
                        (constSource (mkUnit01 1 1))))).
Proof.
  apply (C3_generated_shape_connected LEVEL_2 (constSource (mkUnit01 1 1))
           (snd (generateContiguousShape LEVEL_2 (constSource (mkUnit01 1 1))))).
  vm_compute. reflexivity.
Defined.

Lemma attemptLoop_unfold remaining minBlocks targetBlocks src :
  attemptLoop (S remaining) minBlocks targetBlocks src
  = match attempt minBlocks targetBlocks src with
    | (Some p, src') => (Some p, src')
    | (None, src') => attemptLoop remaining minBlocks targetBlocks src'
    end.
Proof.
  cbn [attemptLoop]. unfold bind at 1.
  by destruct (attempt minBlocks targetBlocks src) as [[p|] src'].
Qed.

(** ** The first pass always succeeds *)

Lemma isMinOf_snoc {A} (f : A → Z) l a m :
  isMinOf f l m → isMinOf f (l ++ [a]) (Z.min m (f a)).
Proof.
  intros [(w & Hw & Hfw) Hlo]. split.
  - destruct (Z.min_spec m (f a)) as [[_ ->] | [_ ->]].
    + exists w. split; [apply elem_of_app; by left | done].
    + exists a. split; [apply elem_of_app; right; by apply list_elem_of_singleton | done].
  - intros x [Hx | ->%list_elem_of_singleton]%elem_of_app; [|lia].
    specialize (Hlo x Hx). lia.
Qed.

Lemma isMaxOf_snoc {A} (f : A → Z) l a m :
  isMaxOf f l m → isMaxOf f (l ++ [a]) (Z.max m (f a)).
Proof.
  intros [(w & Hw & Hfw) Hhi]. split.
  - destruct (Z.max_spec m (f a)) as [[_ ->] | [_ ->]].
    + exists a. split; [apply elem_of_app; right; by apply list_elem_of_singleton | done].
    + exists w. split; [apply elem_of_app; by left | done].
  - intros x [Hx | ->%list_elem_of_singleton]%elem_of_app; [|lia].
    specialize (Hhi x Hx). lia.
Qed.

Lemma isMinOf_singleton {A} (f : A → Z) a : isMinOf f [a] (f a).
Proof.
  split; [exists a; split; [left | done]|].
  by intros x ->%list_elem_of_singleton.
Qed.

Lemma isMaxOf_singleton {A} (f : A → Z) a : isMaxOf f [a] (f a).
Proof.
  split; [exists a; split; [left | done]|].
  by intros x ->%list_elem_of_singleton.
Qed.

Lemma Grown_boxed bs : Grown bs → boxed bs.
Proof.
  induction 1 as [s | bs b d Hgrown IH Hb Hd].
  - exists (xOf s), (xOf s), (yOf s), (yOf s), (zOf s), (zOf s).
    repeat (split; [apply isMinOf_singleton || apply isMaxOf_singleton|]).
    simpl. lia.
  - destruct IH as (lx & hx & ly & hy & lz & hz & Mx & Nx & My & Ny & Mz & Nz & Hsum).
    set (n := addBlock b d).
    exists (Z.min lx (xOf n)), (Z.max hx (xOf n)), (Z.min ly (yOf n)),
      (Z.max hy (yOf n)), (Z.min lz (zOf n)), (Z.max hz (zOf n)).
    repeat (split; [by apply isMinOf_snoc || by apply isMaxOf_snoc|]).
    rewrite length_app. cbn [length].
    pose proof (proj2 Mx b Hb). pose proof (proj2 Nx b Hb).
    pose proof (proj2 My b Hb). pose proof (proj2 Ny b Hb).
    pose proof (proj2 Mz b Hb). pose proof (proj2 Nz b Hb).
    subst n. destruct b as [[x y] z]. unfold neighbors in Hd.
    repeat (apply elem_of_cons in Hd as [->|Hd]); [..|by inversion Hd];
      unfold xOf, yOf, zOf in *; cbn [addBlock fst snd] in *; lia.
Qed.

(** A grown list of at most 21 cells of the grid has a free neighbour cell
    inside the grid. *)
Lemma free_neighbor bs :
  Grown bs → Forall (λ b, inGrid b = true) bs → (length bs ≤ 21)%nat →
  ∃ b d, b ∈ bs ∧ d ∈ neighbors ∧ inGrid (addBlock b d) = true
         ∧ addBlock b d ∉ bs.
Proof.
  intros Hgrown Hgrid Hlen.
  destruct (Grown_boxed bs Hgrown)
    as (lx & hx & ly & hy & lz & hz & Mx & Nx & My & Ny & Mz & Nz & Hsum).
  rewrite Forall_forall in Hgrid.
  assert (Hin : ∀ b, b ∈ bs →
    0 ≤ xOf b < 8 ∧ 0 ≤ yOf b < 8 ∧ 0 ≤ zOf b < 8).
  { intros [[x y] z] Hb. apply Hgrid in Hb. by apply inGrid_spec in Hb. }
  destruct Mx as [(mx & Hmx & Emx) Lx], Nx as [(nx & Hnx & Enx) Ux].
  destruct My as [(my & Hmy & Emy) Ly], Ny as [(ny & Hny & Eny) Uy].
  destruct Mz as [(mz & Hmz & Emz) Lz], Nz as [(nz & Hnz & Enz) Uz].
  pose proof (Hin _ Hmx). pose proof (Hin _ Hnx). pose proof (Hin _ Hmy).
  pose proof (Hin _ Hny). pose proof (Hin _ Hmz). pose proof (Hin _ Hnz).
  assert (Hcase : hx < 7 ∨ 0 < lx ∨ hy < 7 ∨ 0 < ly ∨ hz < 7 ∨ 0 < lz) by lia.
  destruct Hcase as [Hc | [Hc | [Hc | [Hc | [Hc | Hc]]]]].
  - exists nx, (1, 0, 0). split; [done|]. split; [in_list|].
    destruct nx as [[x y] z]. unfold xOf, yOf, zOf in *. cbn [addBlock fst snd] in *.
    split; [apply inGrid_spec; unfold GRID_SIZE; lia|].
    intros Hn%Ux. cbn [fst snd] in Hn. lia.
  - exists mx, (-1, 0, 0). split; [done|]. split; [in_list|].
    destruct mx as [[x y] z]. unfold xOf, yOf, zOf in *. cbn [addBlock fst snd] in *.
    split; [apply inGrid_spec; unfold GRID_SIZE; lia|].
    intros Hn%Lx. cbn [fst snd] in Hn. lia.
  - exists ny, (0, 1, 0). split; [done|]. split; [in_list|].
    destruct ny as [[x y] z]. unfold xOf, yOf, zOf in *. cbn [addBlock fst snd] in *.
    split; [apply inGrid_spec; unfold GRID_SIZE; lia|].
    intros Hn%Uy. cbn [fst snd] in Hn. lia.
  - exists my, (0, -1, 0). split; [done|]. split; [in_list|].
    destruct my as [[x y] z]. unfold xOf, yOf, zOf in *. cbn [addBlock fst snd] in *.
    split; [apply inGrid_spec; unfold GRID_SIZE; lia|].
    intros Hn%Ly. cbn [fst snd] in Hn. lia.
  - exists nz, (0, 0, 1). split; [done|]. split; [in_list|].
    destruct nz as [[x y] z]. unfold xOf, yOf, zOf in *. cbn [addBlock fst snd] in *.
    split; [apply inGrid_spec; unfold GRID_SIZE; lia|].
    intros Hn%Uz. cbn [fst snd] in Hn. lia.
  - exists mz, (0, 0, -1). split; [done|]. split; [in_list|].
    destruct mz as [[x y] z]. unfold xOf, yOf, zOf in *. cbn [addBlock fst snd] in *.
    split; [apply inGrid_spec; unfold GRID_SIZE; lia|].
    intros Hn%Lz. cbn [fst snd] in Hn. lia.
Qed.

Lemma candidateStep_nonempty m l c0 :
  (∀ n, setHas (potentialPointsSet c0) n = true → n ∈ potentialPoints c0) →
  potentialPoints c0 ≠ []
  ∨ (∃ n, n ∈ l ∧ inGrid n = true ∧ mapHas m n = false) →
  potentialPoints (fold_left (candidateStep m) l c0) ≠ [].
Proof.
  revert c0. induction l as [|a l IH]; intros c0 Hset Hex; cbn [fold_left].
  - destruct Hex as [Hne | (n & Hn & _)]; [done | by inversion Hn].
  - apply IH.
    + unfold candidateStep. destruct (_ && _); [|done].
      cbn [potentialPoints potentialPointsSet]. intros n. unfold setHas.
      rewrite bool_decide_eq_true, elem_of_union, elem_of_singleton, elem_of_app.
      intros [-> | Hn]; [right; by apply list_elem_of_singleton|].
      left. apply Hset. unfold setHas. by rewrite bool_decide_eq_true.
    + unfold candidateStep.
      destruct Hex as [Hne | (n & [-> | Hn]%elem_of_cons & Hin & Hm)].
      * left. destruct (_ && _); [|done]. cbn [potentialPoints].
        by destruct (potentialPoints c0).
      * rewrite Hin, Hm. cbn [andb negb].
        destruct (setHas (potentialPointsSet c0) a) eqn:Hs; cbn [negb].
        -- left. apply Hset in Hs. intros E. rewrite E in Hs. by inversion Hs.
        -- left. cbn [potentialPoints]. by destruct (potentialPoints c0).
      * right. eauto.
Qed.

Lemma collectCandidates_nonempty st :
  growInv st → (length (existingBlocks st) ≤ 21)%nat →
  potentialPoints (collectCandidates st) ≠ [].
Proof.
  intros (Hnd & Hgrid & Hmap & Hgrown) Hlen.
  destruct (free_neighbor _ Hgrown Hgrid Hlen) as (b & d & Hb & Hd & Hin & Hfree).
  unfold collectCandidates. apply candidateStep_nonempty.
  - cbn [potentialPointsSet]. intros n. unfold setHas.
    rewrite bool_decide_eq_true. intros Hn. by apply not_elem_of_empty in Hn.
  - right. exists (addBlock b d). split; [|split; [done|]].
    + apply list_elem_of_bind. exists b. split; [|done].
      apply list_elem_of_bind. exists d. split; [|done].
      by apply list_elem_of_singleton.
    + destruct (mapHas (tempBlockMap st) (addBlock b d)) eqn:Hm; [|done].
      by apply Hmap in Hm.
Qed.

Lemma grow_progress iters st src :
  growInv st → (length (existingBlocks st) + iters ≤ 22)%nat →
  length (existingBlocks (fst (grow iters st src)))
  = (length (existingBlocks st) + iters)%nat.
Proof.
  revert st src. induction iters as [|iters IH]; intros st src Hinv Hlen;
    cbn [grow]; [unfold ret; cbn [fst]; lia|].
  pose proof (collectCandidates_nonempty st Hinv ltac:(lia)) as Hne.
  destruct (Nat.eqb_spec (length (potentialPoints (collectCandidates st))) 0)
    as [E|_]; [by destruct (potentialPoints (collectCandidates st))|].
  unfold bind, random.
  set (sorted := stableSort byHeightDesc (potentialPoints (collectCandidates st))).
  assert (Hsorted : (0 < length sorted)%nat).
  { subst sorted. rewrite length_stableSort.
    destruct (potentialPoints (collectCandidates st)); [done | simpl; lia]. }
  pose proof (floorMul_bounds (draws src (drawn src))
                (Z.min (Z.of_nat (length sorted)) 5) ltac:(lia)) as Hi.
  destruct (idx sorted _) as [nextBlock|] eqn:Hidx.
  - rewrite IH.
    + unfold pushBlock. cbn [existingBlocks]. rewrite length_app. simpl. lia.
    + apply pushBlock_inv; [done|].
      apply idx_elem_of in Hidx. by apply elem_of_stableSort in Hidx.
    + unfold pushBlock. cbn [existingBlocks]. rewrite length_app. simpl. lia.
  - rewrite idx_nat in Hidx by lia. apply lookup_ge_None in Hidx. lia.
Qed.

Lemma calculateDimensions_fits p :
  blocksOf p ≠ [] →
  1 ≤ width (calculateDimensions p) ≤ GRID_SIZE
  ∧ 1 ≤ height (calculateDimensions p) ≤ GRID_SIZE
  ∧ 1 ≤ depth (calculateDimensions p) ≤ GRID_SIZE.
Proof.
  intros Hne. unfold calculateDimensions. rewrite boundsStep_fold.
  fold (blocksOf p). cbn [minX maxX minY maxY minZ maxZ].
  destruct (blocksOf p) as [|b B] eqn:HB; [done|].
  assert (Hb : b ∈ blocksOf p) by (rewrite HB; left).
  assert (Hall : ∀ a, a ∈ blocksOf p →
    0 ≤ xOf a < GRID_SIZE ∧ 0 ≤ yOf a < GRID_SIZE ∧ 0 ≤ zOf a < GRID_SIZE).
  { intros [[x y] z] [_ Ha]%elem_of_blocksOf. by apply inGrid_spec. }
  rewrite <- HB.
  pose proof (minOver_le xOf _ GRID_SIZE b Hb).
  pose proof (minOver_le yOf _ GRID_SIZE b Hb).
  pose proof (minOver_le zOf _ GRID_SIZE b Hb).
  pose proof (maxOver_ge xOf _ (-1) b Hb).
  pose proof (maxOver_ge yOf _ (-1) b Hb).
  pose proof (maxOver_ge zOf _ (-1) b Hb).
  pose proof (Hall b Hb).
  assert (0 ≤ minOver xOf GRID_SIZE (blocksOf p)).
  { destruct (minOver_cases xOf (blocksOf p) GRID_SIZE) as [-> | (a & Ha & <-)];
      [done | apply (Hall a Ha)]. }
  assert (0 ≤ minOver yOf GRID_SIZE (blocksOf p)).
  { destruct (minOver_cases yOf (blocksOf p) GRID_SIZE) as [-> | (a & Ha & <-)];
      [done | apply (Hall a Ha)]. }
  assert (0 ≤ minOver zOf GRID_SIZE (blocksOf p)).
  { destruct (minOver_cases zOf (blocksOf p) GRID_SIZE) as [-> | (a & Ha & <-)];
      [done | apply (Hall a Ha)]. }
  assert (maxOver xOf (-1) (blocksOf p) < GRID_SIZE).
  { destruct (maxOver_cases xOf (blocksOf p) (-1)) as [-> | (a & Ha & <-)];
      [done | apply (Hall a Ha)]. }
  assert (maxOver yOf (-1) (blocksOf p) < GRID_SIZE).
  { destruct (maxOver_cases yOf (blocksOf p) (-1)) as [-> | (a & Ha & <-)];
      [done | apply (Hall a Ha)]. }
  assert (maxOver zOf (-1) (blocksOf p) < GRID_SIZE).
  { destruct (maxOver_cases zOf (blocksOf p) (-1)) as [-> | (a & Ha & <-)];
      [done | apply (Hall a Ha)]. }
  destruct (Z.eqb_spec (maxOver xOf (-1) (blocksOf p)) (-1));
    cbn [width height depth]; lia.
Qed.

(** The pass, with its draws named. *)
Lemma attempt_eq minBlocks targetBlocks src :
  attempt minBlocks targetBlocks src
  = let start := (floorMul (draws src (drawn src)) 4, 0,
                  floorMul (draws src (S (drawn src))) 4) in
    let '(st, src1) := grow (Z.to_nat (targetBlocks - 1))
                         (mkGrowState {[start := true]} [start])
                         (mkRandomSource (draws src) (S (S (drawn src)))) in
    if Z.of_nat (length (existingBlocks st)) <? minBlocks then (None, src1)
    else
      let normalizedPolyCube := normalizePolyCube (toPolyCube (existingBlocks st)) in
      let d := calculateDimensions normalizedPolyCube in
      if (GRID_SIZE <? width d) || (GRID_SIZE <? height d) || (GRID_SIZE <? depth d)
         || (width d =? 0)
      then (None, src1)
      else (Some normalizedPolyCube, src1).
Proof.
  unfold attempt, bind, random, ret. cbn [draws drawn].
  change (GRID_SIZE `div` 2) with 4. cbv zeta.
  destruct (grow _ _ _) as [st src1].
  destruct (_ <? _); [done|]. by destruct (_ || _).
Qed.

Lemma grow_from_seed x z targetBlocks src :
  0 ≤ x < GRID_SIZE → 0 ≤ z < GRID_SIZE → 1 ≤ targetBlocks ≤ 22 →
  growInv (fst (grow (Z.to_nat (targetBlocks - 1))
                  (mkGrowState {[(x, 0, z) := true]} [(x, 0, z)]) src))
  ∧ Z.of_nat (length (existingBlocks
        (fst (grow (Z.to_nat (targetBlocks - 1))
                (mkGrowState {[(x, 0, z) := true]} [(x, 0, z)]) src))))
    = targetBlocks.
Proof.
  intros Hx Hz Ht. pose proof (seed_inv x z Hx Hz) as Hstart. split.
  - destruct (grow _ _ src) as [st src1] eqn:Hgrow.
    by apply grow_inv in Hgrow as (Hinv & _ & _).
  - rewrite grow_progress; [|done|]; cbn [existingBlocks length]; lia.
Qed.

Lemma blockCount_unfold p : blockCount p = Z.of_nat (length (blocksOf p)).
Proof. reflexivity. Qed.

Lemma generated_nonempty bs :
  bs ≠ [] → NoDup bs → Forall (λ b, inGrid b = true) bs →
  blocksOf (normalizePolyCube (toPolyCube bs)) ≠ [].
Proof.
  intros Hne Hnd Hgrid E.
  pose proof (blockCount_generated _ Hnd Hgrid) as Hcount.
  rewrite blockCount_unfold, E in Hcount.
  apply Hne, nil_length_inv. apply Nat2Z.inj in Hcount. by symmetry.
Qed.

(** The size check of a pass never rejects a generated cube. *)
Lemma generated_fits bs :
  bs ≠ [] → NoDup bs → Forall (λ b, inGrid b = true) bs →
  (GRID_SIZE <? width (calculateDimensions (normalizePolyCube (toPolyCube bs))))
  || (GRID_SIZE <? height (calculateDimensions (normalizePolyCube (toPolyCube bs))))
  || (GRID_SIZE <? depth (calculateDimensions (normalizePolyCube (toPolyCube bs))))
  || (width (calculateDimensions (normalizePolyCube (toPolyCube bs))) =? 0) = false.
Proof.
  intros Hne Hnd Hgrid.
  destruct (calculateDimensions_fits _ (generated_nonempty bs Hne Hnd Hgrid))
    as (Hw & Hh & Hd).
  revert Hw Hh Hd.
  generalize (calculateDimensions (normalizePolyCube (toPolyCube bs))).
  intros d Hw Hh Hd. rewrite !orb_false_iff, !Z.ltb_ge, Z.eqb_neq. lia.
Qed.

(** Whatever the draws, a pass with a target of at most 22 blocks returns a
    cube of exactly that many blocks. *)
Lemma attempt_total minBlocks targetBlocks src :
  1 ≤ targetBlocks ≤ 22 → minBlocks ≤ targetBlocks →
  ∃ p src', attempt minBlocks targetBlocks src = (Some p, src')
            ∧ blockCount p = targetBlocks.
Proof.
  intros Ht Hmin. rewrite attempt_eq. cbv zeta.
  pose proof (floorMul_bounds (draws src (drawn src)) 4 eq_refl) as Hx.
  pose proof (floorMul_bounds (draws src (S (drawn src))) 4 eq_refl) as Hz.
  destruct (grow_from_seed (floorMul (draws src (drawn src)) 4)
              (floorMul (draws src (S (drawn src))) 4) targetBlocks
              (mkRandomSource (draws src) (S (S (drawn src)))))
    as [(Hnd & Hgrid & _ & Hgrown) Hlen]; [unfold GRID_SIZE; lia..|lia|].
  destruct (grow _ _ _) as [st src1]. cbn [fst] in *.
  destruct (Z.ltb_spec (Z.of_nat (length (existingBlocks st))) minBlocks); [lia|].
  assert (Hne : existingBlocks st ≠ []).
  { intros E. rewrite E in Hlen. cbn [length] in Hlen. lia. }
  rewrite (generated_fits _ Hne Hnd Hgrid).
  eexists _, _. split; [reflexivity|].
  rewrite blockCount_generated by done. lia.
Qed.

(** The generator never fails: for every level and every sequence of
    draws, the first pass returns a cube, and the cube holds exactly as many
    blocks as the target drawn for the invocation. *)
Lemma generateContiguousShape_total level src :
  ∃ p src', generateContiguousShape level src = (Some p, src')
            ∧ attempt (min (BLOCK_COUNTS_BY_LEVEL level))
                (drawTarget level (draws src (drawn src))) (advance src)
              = (Some p, src')
            ∧ blockCount p = drawTarget level (draws src (drawn src)).
Proof.
  pose proof (drawTarget_range level (draws src (drawn src))) as Ht.
  destruct (attempt_total (min (BLOCK_COUNTS_BY_LEVEL level))
              (drawTarget level (draws src (drawn src))) (advance src))
    as (p & src' & Hatt & Hcount).
  - destruct level; simpl in *; lia.
  - lia.
  - exists p, src'. split; [|done].
    unfold generateContiguousShape, bind at 1, random. fold (advance src).
    unfold MAX_REGEN_ATTEMPTS. rewrite attemptLoop_unfold. by rewrite Hatt.
Qed.

(** ** The target of an invocation *)





(** ** Worked examples *)

(** The scenario of the specification: grid size 8, a single voxel at
    (0, 0, 0); every view has one filled cell, placed by the offsets (3, 3). *)
Example single_voxel_views :
  cellsOf (front (calculateOrthographicProjections
                    (set3 emptyPolyCube (0, 0, 0) 1) (mkDims 1 1 1))) = [(4, 3)]
  ∧ cellsOf (top (calculateOrthographicProjections
                    (set3 emptyPolyCube (0, 0, 0) 1) (mkDims 1 1 1))) = [(3, 3)]
  ∧ cellsOf (side (calculateOrthographicProjections
                     (set3 emptyPolyCube (0, 0, 0) 1) (mkDims 1 1 1))) = [(4, 3)]
  ∧ calculateDimensions (set3 emptyPolyCube (0, 0, 0) 1) = mkDims 1 1 1
  ∧ frontOffsets (calculateOrthographicProjections
                    (set3 emptyPolyCube (0, 0, 0) 1) (mkDims 1 1 1)) = mkOffsets 3 3.
Proof. vm_compute. done. Qed.

(** An L of three blocks away from the origin, normalised. *)
Example normalize_L :
  blocksOf (normalizePolyCube
              (toPolyCube [(4, 2, 5); (5, 2, 5); (5, 3, 5)]))
  = [(0, 0, 0); (1, 0, 0); (1, 1, 0)]
  ∧ calculateDimensions
      (normalizePolyCube (toPolyCube [(4, 2, 5); (5, 2, 5); (5, 3, 5)]))
    = mkDims 2 2 1.
Proof. vm_compute. done. Qed.

Example normalize2DGrid_L :
  normalize2DGrid (set2 (set2 (set2 (createEmptyGrid 8 8) 3 4 1) 4 4 1) 4 5 1)
  = mkNormalized2D [[1; 0]; [1; 1]] (mkSize 2 2).
Proof. vm_compute. done. Qed.

(** A run of the generator at LEVEL_2 with every draw equal to 1/2: the
    target is 9, the seed is (2, 0, 2), every pick is the third candidate,
    and the run uses 11 draws (the target, the seed, eight picks). *)
Example generate_half :
  blocksOf <$> fst (generateContiguousShape LEVEL_2 (constSource (mkUnit01 1 0)))
  = Some [(0, 0, 0); (0, 1, 0); (0, 2, 0); (1, 0, 0); (1, 1, 0); (1, 2, 0);
          (2, 0, 0); (2, 1, 0); (2, 2, 0)]
  ∧ drawn (snd (generateContiguousShape LEVEL_2 (constSource (mkUnit01 1 0))))
    = 11%nat.
Proof. vm_compute. done. Qed.

(** Two blocks side by side, drawn at rest: the left block shows its top
    and front, the right block its top, front and right. *)
Example render_pair :
  (λ d, (drawnBlock d, normal (drawnFace d), drawnFill d))
    <$> render (H := polyMath)
          (toPolyCube [(0, 0, 0); (1, 0, 0)]) 0 0
  = [((0, 0, 0), (0, 1, 0), ShadeTop); ((0, 0, 0), (0, 0, 1), ShadeFront);
     ((1, 0, 0), (0, 1, 0), ShadeTop); ((1, 0, 0), (0, 0, 1), ShadeFront);
     ((1, 0, 0), (1, 0, 0), ShadeSide)].
Proof. vm_compute. done. Qed.

(** * Further properties *)

(** ** Extremes and their images *)

Lemma isMinOf_nonempty {A} (f : A → Z) l m : isMinOf f l m → l ≠ [].
Proof. intros [(a & Ha & _) _] ->. by inversion Ha. Qed.

Lemma isMaxOf_nonempty {A} (f : A → Z) l m : isMaxOf f l m → l ≠ [].
Proof. intros [(a & Ha & _) _] ->. by inversion Ha. Qed.

Section Images.
Context {A B : Type} (f : A → Z) (g : B → Z) (l : list A) (l' : list B) (k : Z).

Lemma isMinOf_shift m :
  (∀ b, b ∈ l' → ∃ a, a ∈ l ∧ g b = f a + k) →
  (∀ a, a ∈ l → ∃ b, b ∈ l' ∧ g b = f a + k) →
  isMinOf f l m → isMinOf g l' (m + k).
Proof.
  intros Hback Hfwd [(a & Ha & <-) Hlo]. split.
  - destruct (Hfwd a Ha) as (b & Hb & Hg). eauto.
  - intros b Hb. destruct (Hback b Hb) as (a' & Ha' & ->).
    specialize (Hlo a' Ha'). lia.
Qed.

Lemma isMaxOf_shift m :
  (∀ b, b ∈ l' → ∃ a, a ∈ l ∧ g b = f a + k) →
  (∀ a, a ∈ l → ∃ b, b ∈ l' ∧ g b = f a + k) →
  isMaxOf f l m → isMaxOf g l' (m + k).
Proof.
  intros Hback Hfwd [(a & Ha & <-) Hhi]. split.
  - destruct (Hfwd a Ha) as (b & Hb & Hg). eauto.
  - intros b Hb. destruct (Hback b Hb) as (a' & Ha' & ->).
    specialize (Hhi a' Ha'). lia.
Qed.

Lemma isMinOf_flip m :
  (∀ b, b ∈ l' → ∃ a, a ∈ l ∧ g b = k - f a) →
  (∀ a, a ∈ l → ∃ b, b ∈ l' ∧ g b = k - f a) →
  isMaxOf f l m → isMinOf g l' (k - m).
Proof.
  intros Hback Hfwd [(a & Ha & <-) Hhi]. split.
  - destruct (Hfwd a Ha) as (b & Hb & Hg). eauto.
  - intros b Hb. destruct (Hback b Hb) as (a' & Ha' & ->).
    specialize (Hhi a' Ha'). lia.
Qed.

Lemma isMaxOf_flip m :
  (∀ b, b ∈ l' → ∃ a, a ∈ l ∧ g b = k - f a) →
  (∀ a, a ∈ l → ∃ b, b ∈ l' ∧ g b = k - f a) →
  isMinOf f l m → isMaxOf g l' (k - m).
Proof.
  intros Hback Hfwd [(a & Ha & <-) Hlo]. split.
  - destruct (Hfwd a Ha) as (b & Hb & Hg). eauto.
  - intros b Hb. destruct (Hback b Hb) as (a' & Ha' & ->).
    specialize (Hlo a' Ha'). lia.
Qed.
End Images.

(** ** The bounding box of a cube *)

Lemma blocksOf_coords p b :
  b ∈ blocksOf p →
  0 ≤ xOf b < GRID_SIZE ∧ 0 ≤ yOf b < GRID_SIZE ∧ 0 ≤ zOf b < GRID_SIZE.
Proof. destruct b as [[x y] z]. intros [_ Hb]%elem_of_blocksOf. by apply inGrid_spec. Qed.

Lemma extremes_spec p :
  blocksOf p ≠ [] →
  isMinOf xOf (blocksOf p) (loX p) ∧ isMaxOf xOf (blocksOf p) (hiX p) ∧
  isMinOf yOf (blocksOf p) (loY p) ∧ isMaxOf yOf (blocksOf p) (hiY p) ∧
  isMinOf zOf (blocksOf p) (loZ p) ∧ isMaxOf zOf (blocksOf p) (hiZ p).
Proof.
  intros Hne. unfold loX, hiX, loY, hiY, loZ, hiZ.
  repeat split;
    try (apply minOver_isMinOf; [done|]); try (apply maxOver_isMaxOf; [done|]);
    try (intros a; apply minOver_le); try (intros a; apply maxOver_ge);
    intros a Ha; pose proof (blocksOf_coords p a Ha); lia.
Qed.

Lemma extremes_range p :
  blocksOf p ≠ [] →
  0 ≤ loX p ≤ hiX p ∧ hiX p < GRID_SIZE ∧
  0 ≤ loY p ≤ hiY p ∧ hiY p < GRID_SIZE ∧
  0 ≤ loZ p ≤ hiZ p ∧ hiZ p < GRID_SIZE.
Proof.
  intros Hne.
  destruct (extremes_spec p Hne)
    as ([(a1 & H1 & E1) L1] & [(a2 & H2 & E2) L2] & [(a3 & H3 & E3) L3]
        & [(a4 & H4 & E4) L4] & [(a5 & H5 & E5) L5] & [(a6 & H6 & E6) L6]).
  pose proof (blocksOf_coords p a1 H1). pose proof (blocksOf_coords p a2 H2).
  pose proof (blocksOf_coords p a3 H3). pose proof (blocksOf_coords p a4 H4).
  pose proof (blocksOf_coords p a5 H5). pose proof (blocksOf_coords p a6 H6).
  pose proof (L1 a2 H2). pose proof (L3 a4 H4). pose proof (L5 a6 H6). lia.
Qed.

Lemma extremes_unique p mx Mx my My mz Mz :
  isMinOf xOf (blocksOf p) mx → isMaxOf xOf (blocksOf p) Mx →
  isMinOf yOf (blocksOf p) my → isMaxOf yOf (blocksOf p) My →
  isMinOf zOf (blocksOf p) mz → isMaxOf zOf (blocksOf p) Mz →
  loX p = mx ∧ hiX p = Mx ∧ loY p = my ∧ hiY p = My ∧ loZ p = mz ∧ hiZ p = Mz.
Proof.
  intros H1 H2 H3 H4 H5 H6.
  destruct (extremes_spec p (isMinOf_nonempty _ _ _ H1)) as (E1 & E2 & E3 & E4 & E5 & E6).
  repeat split;
    (eapply isMinOf_unique; eassumption) || (eapply isMaxOf_unique; eassumption).
Qed.

Lemma calculateDimensions_eq p :
  calculateDimensions p
  = if hiX p =? -1 then mkDims 0 0 0
    else mkDims (hiX p - loX p + 1) (hiY p - loY p + 1) (hiZ p - loZ p + 1).
Proof. unfold calculateDimensions. by rewrite boundsStep_fold. Qed.

Lemma calculateDimensions_empty p :
  blocksOf p = [] → calculateDimensions p = mkDims 0 0 0.
Proof.
  intros E. rewrite calculateDimensions_eq. unfold hiX. by rewrite E.
Qed.

Lemma calculateDimensions_nonempty p :
  blocksOf p ≠ [] →
  calculateDimensions p
  = mkDims (hiX p - loX p + 1) (hiY p - loY p + 1) (hiZ p - loZ p + 1).
Proof.
  intros Hne. rewrite calculateDimensions_eq.
  pose proof (extremes_range p Hne).
  destruct (Z.eqb_spec (hiX p) (-1)); [lia | done].
Qed.

(** X1. [calculateDimensions] reports a width of 0 exactly when the scan
    meets no occupied voxel, and then all three dimensions are 0; this is
    the emptiness test the generator and the isometric view rely on. *)
Theorem X1_dimensions_zero_iff_empty (p : PolyCube) :
  (width (calculateDimensions p) = 0 ↔ blocksOf p = [])
  ∧ (calculateDimensions p = mkDims 0 0 0 ↔ blocksOf p = []).
Proof.
  assert (Hw : width (calculateDimensions p) = 0 → blocksOf p = []).
  { intros Hw. destruct (decide (blocksOf p = [])) as [|Hne]; [done|].
    rewrite calculateDimensions_nonempty in Hw by done.
    pose proof (extremes_range p Hne). cbn [width] in Hw. lia. }
  split; split.
  - exact Hw.
  - intros E. by rewrite calculateDimensions_empty.
  - intros E. apply Hw. by rewrite E.
  - apply calculateDimensions_empty.
Qed.

(** X2. For a cube with an occupied voxel, [calculateDimensions] returns
    max - min + 1 of the occupied coordinates on each axis; each dimension
    lies between 1 and GRID_SIZE, and every occupied voxel lies in the box
    that starts at the minima and has these dimensions. *)
Theorem X2_dimensions_bounding_box (p : PolyCube) :
  blocksOf p ≠ [] →
  ∃ mx Mx my My mz Mz,
    isMinOf xOf (blocksOf p) mx ∧ isMaxOf xOf (blocksOf p) Mx ∧
    isMinOf yOf (blocksOf p) my ∧ isMaxOf yOf (blocksOf p) My ∧
    isMinOf zOf (blocksOf p) mz ∧ isMaxOf zOf (blocksOf p) Mz ∧
    calculateDimensions p = mkDims (Mx - mx + 1) (My - my + 1) (Mz - mz + 1) ∧
    1 ≤ width (calculateDimensions p) ≤ GRID_SIZE ∧
    1 ≤ height (calculateDimensions p) ≤ GRID_SIZE ∧
    1 ≤ depth (calculateDimensions p) ≤ GRID_SIZE ∧
    ∀ b, b ∈ blocksOf p →
      mx ≤ xOf b < mx + width (calculateDimensions p) ∧
      my ≤ yOf b < my + height (calculateDimensions p) ∧
      mz ≤ zOf b < mz + depth (calculateDimensions p).
Proof.
  intros Hne. destruct (extremes_spec p Hne) as (E1 & E2 & E3 & E4 & E5 & E6).
  pose proof (extremes_range p Hne) as Hr.
  exists (loX p), (hiX p), (loY p), (hiY p), (loZ p), (hiZ p).
  rewrite calculateDimensions_nonempty by done. cbn [width height depth].
  repeat (split; [done || lia|]).
  intros b Hb.
  pose proof (proj2 E1 b Hb). pose proof (proj2 E2 b Hb).
  pose proof (proj2 E3 b Hb). pose proof (proj2 E4 b Hb).
  pose proof (proj2 E5 b Hb). pose proof (proj2 E6 b Hb). lia.
Qed.

Lemma X2_dimensions_bounding_box_witness :
  1 ≤ width (calculateDimensions (toPolyCube [(4, 2, 5); (5, 2, 5); (5, 3, 5)])) ≤ 8.
Proof.
  destruct (X2_dimensions_bounding_box
              (toPolyCube [(4, 2, 5); (5, 2, 5); (5, 3, 5)]))
    as (mx & Mx & my & My & mz & Mz & _ & _ & _ & _ & _ & _ & _ & Hw & _).
  - vm_compute. discriminate.
  - exact Hw.
Defined.

(** ** More on normalizePolyCube *)

Lemma normalizePolyCube_blocks p b :
  b ∈ blocksOf (normalizePolyCube p)
  ↔ (xOf b + loX p, yOf b + loY p, zOf b + loZ p) ∈ blocksOf p.
Proof. apply elem_of_blocksOf_normalizePolyCube. Qed.

Lemma normalizePolyCube_shape p : isGridCube (normalizePolyCube p).
Proof. rewrite normalizePolyCube_eq. apply toPolyCube_shape. Qed.

(** A normalised cube is determined by its occupied voxels. *)
Lemma normalizePolyCube_canonical p :
  normalizePolyCube p = toPolyCube (blocksOf (normalizePolyCube p)).
Proof.
  rewrite (normalizePolyCube_eq p) at 2.
  rewrite toPolyCube_blocksOf by apply shifted_inGrid.
  apply normalizePolyCube_eq.
Qed.

Lemma normalizePolyCube_ext p q :
  (∀ b, b ∈ blocksOf (normalizePolyCube p) ↔ b ∈ blocksOf (normalizePolyCube q)) →
  normalizePolyCube p = normalizePolyCube q.
Proof.
  intros Hsame. rewrite (normalizePolyCube_canonical p), (normalizePolyCube_canonical q).
  apply toPolyCube_ext; [apply blocksOf_inGrid.. | exact Hsame].
Qed.

Lemma normalizePolyCube_empty_iff p :
  blocksOf (normalizePolyCube p) = [] ↔ blocksOf p = [].
Proof.
  rewrite !elem_of_nil_iff. split.
  - intros HN [[x y] z] Hb. apply (HN (x - loX p, y - loY p, z - loZ p)).
    apply normalizePolyCube_blocks. unfold xOf, yOf, zOf. cbn [fst snd].
    by replace (x - loX p + loX p, y - loY p + loY p, z - loZ p + loZ p)
      with (x, y, z) by (f_equal; [f_equal|]; lia).
  - intros Hp b Hb%normalizePolyCube_blocks. by apply Hp in Hb.
Qed.

(** The extremes of a normalised cube. *)
Lemma normalizePolyCube_extremes p :
  blocksOf p ≠ [] →
  loX (normalizePolyCube p) = 0 ∧ hiX (normalizePolyCube p) = hiX p - loX p ∧
  loY (normalizePolyCube p) = 0 ∧ hiY (normalizePolyCube p) = hiY p - loY p ∧
  loZ (normalizePolyCube p) = 0 ∧ hiZ (normalizePolyCube p) = hiZ p - loZ p.
Proof.
  intros Hne. destruct (extremes_spec p Hne) as (E1 & E2 & E3 & E4 & E5 & E6).
  assert (Hback : ∀ b, b ∈ blocksOf (normalizePolyCube p) →
    ∃ a, a ∈ blocksOf p ∧ xOf b = xOf a + - loX p ∧ yOf b = yOf a + - loY p
         ∧ zOf b = zOf a + - loZ p).
  { intros b Hb%normalizePolyCube_blocks. eexists. split; [exact Hb|].
    unfold xOf, yOf, zOf. cbn [fst snd]. lia. }
  assert (Hfwd : ∀ a, a ∈ blocksOf p →
    ∃ b, b ∈ blocksOf (normalizePolyCube p) ∧ xOf b = xOf a + - loX p
         ∧ yOf b = yOf a + - loY p ∧ zOf b = zOf a + - loZ p).
  { intros [[x y] z] Ha. exists (x - loX p, y - loY p, z - loZ p). split.
    - apply normalizePolyCube_blocks. unfold xOf, yOf, zOf. cbn [fst snd].
      by replace (x - loX p + loX p, y - loY p + loY p, z - loZ p + loZ p)
        with (x, y, z) by (f_equal; [f_equal|]; lia).
    - unfold xOf, yOf, zOf. cbn [fst snd]. lia. }
  pose proof (extremes_unique (normalizePolyCube p)
    (loX p + - loX p) (hiX p + - loX p) (loY p + - loY p) (hiY p + - loY p)
    (loZ p + - loZ p) (hiZ p + - loZ p)) as Hu.
  destruct Hu as (U1 & U2 & U3 & U4 & U5 & U6).
  - eapply isMinOf_shift; [| |exact E1].
    + intros b (a & Ha & Hx & _)%Hback. eauto.
    + intros a (b & Hb & Hx & _)%Hfwd. eauto.
  - eapply isMaxOf_shift; [| |exact E2].
    + intros b (a & Ha & Hx & _)%Hback. eauto.
    + intros a (b & Hb & Hx & _)%Hfwd. eauto.
  - eapply isMinOf_shift; [| |exact E3].
    + intros b (a & Ha & _ & Hy & _)%Hback. eauto.
    + intros a (b & Hb & _ & Hy & _)%Hfwd. eauto.
  - eapply isMaxOf_shift; [| |exact E4].
    + intros b (a & Ha & _ & Hy & _)%Hback. eauto.
    + intros a (b & Hb & _ & Hy & _)%Hfwd. eauto.
  - eapply isMinOf_shift; [| |exact E5].
    + intros b (a & Ha & _ & _ & Hz)%Hback. eauto.
    + intros a (b & Hb & _ & _ & Hz)%Hfwd. eauto.
  - eapply isMaxOf_shift; [| |exact E6].
    + intros b (a & Ha & _ & _ & Hz)%Hback. eauto.
    + intros a (b & Hb & _ & _ & Hz)%Hfwd. eauto.
  - lia.
Qed.

Lemma calculateDimensions_normalizePolyCube p :
  calculateDimensions (normalizePolyCube p) = calculateDimensions p.
Proof.
  destruct (decide (blocksOf p = [])) as [E|Hne].
  - rewrite !calculateDimensions_empty; [done.. | by apply normalizePolyCube_empty_iff].
  - rewrite !calculateDimensions_nonempty;
      [|done | by rewrite normalizePolyCube_empty_iff].
    destruct (normalizePolyCube_extremes p Hne) as (-> & -> & -> & -> & -> & ->).
    f_equal; lia.
Qed.

(** X3. Normalising a cube does not change the dimensions that
    [calculateDimensions] reports for it. *)
Theorem X3_normalize_keeps_dimensions (p : PolyCube) :
  calculateDimensions (normalizePolyCube p) = calculateDimensions p.
Proof. apply calculateDimensions_normalizePolyCube. Qed.

(** X4. For every input, also a ragged or oversized array,
    [normalizePolyCube] returns a cube of edge GRID_SIZE whose cells hold 0
    or 1 and which has exactly as many occupied voxels as the scan of the
    input meets. *)
Theorem X4_normalize_well_formed (p : PolyCube) :
  isGridCube (normalizePolyCube p)
  ∧ (∀ b, inGrid b = true →
          voxelAt (normalizePolyCube p) b = Some 0
          ∨ voxelAt (normalizePolyCube p) b = Some 1)
  ∧ (∀ b, inGrid b = false → voxelAt (normalizePolyCube p) b = None)
  ∧ blockCount (normalizePolyCube p) = blockCount p.
Proof.
  split; [apply normalizePolyCube_shape|].
  split; [|split; [|apply blockCount_normalizePolyCube]].
  - intros b Hb. rewrite normalizePolyCube_voxelAt, Hb.
    destruct (decide _); tauto.
  - intros b Hb. by rewrite normalizePolyCube_voxelAt, Hb.
Qed.

Lemma movedBy_empty t p q : movedBy t p q → blocksOf q = [] ↔ blocksOf p = [].
Proof.
  intros Hm. rewrite !elem_of_nil_iff. split.
  - intros Hq a Ha. apply (Hq (addBlock a t)), Hm. eauto.
  - intros Hp b (a & Ha & _)%Hm. by apply Hp in Ha.
Qed.

Lemma movedBy_extremes tx ty tz p q :
  movedBy (tx, ty, tz) p q → blocksOf p ≠ [] →
  loX q = loX p + tx ∧ loY q = loY p + ty ∧ loZ q = loZ p + tz ∧
  hiX q = hiX p + tx ∧ hiY q = hiY p + ty ∧ hiZ q = hiZ p + tz.
Proof.
  intros Hm Hne. destruct (extremes_spec p Hne) as (E1 & E2 & E3 & E4 & E5 & E6).
  assert (Hback : ∀ b, b ∈ blocksOf q →
    ∃ a, a ∈ blocksOf p ∧ xOf b = xOf a + tx ∧ yOf b = yOf a + ty
         ∧ zOf b = zOf a + tz).
  { intros b ([[x y] z] & Ha & ->)%Hm. eexists. split; [exact Ha|]. done. }
  assert (Hfwd : ∀ a, a ∈ blocksOf p →
    ∃ b, b ∈ blocksOf q ∧ xOf b = xOf a + tx ∧ yOf b = yOf a + ty
         ∧ zOf b = zOf a + tz).
  { intros [[x y] z] Ha. exists (addBlock (x, y, z) (tx, ty, tz)).
    split; [apply Hm; eauto | done]. }
  destruct (extremes_unique q (loX p + tx) (hiX p + tx) (loY p + ty) (hiY p + ty)
              (loZ p + tz) (hiZ p + tz)) as (U1 & U2 & U3 & U4 & U5 & U6).
  - eapply isMinOf_shift; [| |exact E1].
    + intros b (a & Ha & Hx & _)%Hback. eauto.
    + intros a (b & Hb & Hx & _)%Hfwd. eauto.
  - eapply isMaxOf_shift; [| |exact E2].
    + intros b (a & Ha & Hx & _)%Hback. eauto.
    + intros a (b & Hb & Hx & _)%Hfwd. eauto.
  - eapply isMinOf_shift; [| |exact E3].
    + intros b (a & Ha & _ & Hy & _)%Hback. eauto.
    + intros a (b & Hb & _ & Hy & _)%Hfwd. eauto.
  - eapply isMaxOf_shift; [| |exact E4].
    + intros b (a & Ha & _ & Hy & _)%Hback. eauto.
    + intros a (b & Hb & _ & Hy & _)%Hfwd. eauto.
  - eapply isMinOf_shift; [| |exact E5].
    + intros b (a & Ha & _ & _ & Hz)%Hback. eauto.
    + intros a (b & Hb & _ & _ & Hz)%Hfwd. eauto.
  - eapply isMaxOf_shift; [| |exact E6].
    + intros b (a & Ha & _ & _ & Hz)%Hback. eauto.
    + intros a (b & Hb & _ & _ & Hz)%Hfwd. eauto.
  - tauto.
Qed.

Lemma normalizePolyCube_movedBy t p q :
  movedBy t p q → normalizePolyCube q = normalizePolyCube p.
Proof.
  intros Hm. apply normalizePolyCube_ext. intros b.
  destruct (decide (blocksOf p = [])) as [E|Hne].
  - assert (E' : blocksOf q = []) by by apply (movedBy_empty t p q).
    apply normalizePolyCube_empty_iff in E, E'. rewrite E, E'. done.
  - destruct t as [[tx ty] tz].
    destruct (movedBy_extremes tx ty tz p q Hm Hne) as (X & Y & Z & _).
    rewrite !normalizePolyCube_blocks, X, Y, Z. split.
    + intros ([[x y] z] & Ha & Heq)%Hm. cbn [addBlock] in Heq.
      injection Heq as Hx Hy Hz.
      by replace (xOf b + loX p, yOf b + loY p, zOf b + loZ p) with (x, y, z)
        by (f_equal; [f_equal|]; lia).
    + intros Hb. apply Hm. eexists. split; [exact Hb|].
      cbn [addBlock]. f_equal; [f_equal|]; lia.
Qed.

(** X5. Normalisation forgets position: when the occupied voxels of one
    cube are those of another moved by a fixed vector, both normalise to the
    same cube. *)
Theorem X5_normalize_translation_invariant (t : BlockCoordinates) (p q : PolyCube) :
  movedBy t p q → normalizePolyCube q = normalizePolyCube p.
Proof. apply normalizePolyCube_movedBy. Qed.

Lemma X5_normalize_translation_invariant_witness :
  normalizePolyCube (toPolyCube [(4, 2, 5); (5, 2, 5); (5, 3, 5)])
  = normalizePolyCube (toPolyCube [(1, 0, 1); (2, 0, 1); (2, 1, 1)]).
Proof.
  apply (X5_normalize_translation_invariant (3, 2, 4)).
  intros b. rewrite !elem_of_blocksOf_toPolyCube
    by (apply (bool_decide_unpack _); vm_compute; exact I).
  split.
  - intros Hb. repeat (apply elem_of_cons in Hb as [->|Hb]); [..|by inversion Hb];
      [exists (1, 0, 1) | exists (2, 0, 1) | exists (2, 1, 1)];
      (split; [in_list | reflexivity]).
  - intros (a & Ha & ->).
    repeat (apply elem_of_cons in Ha as [->|Ha]); [..|by inversion Ha]; in_list.
Defined.

(** ** rotatePolyCube90 *)

Lemma quarterTurn_inGrid b : inGrid b = true → inGrid (quarterTurn b) = true.
Proof.
  destruct b as [[x y] z]. unfold quarterTurn, xOf, yOf, zOf. cbn [fst snd].
  rewrite !inGrid_spec. unfold GRID_SIZE. lia.
Qed.

Lemma rotateStep_fold p l q0 :
  Forall (λ b, inGrid b = true) l →
  fold_left (rotateStep p) l q0
  = fold_left (λ q b, set3 q b 1)
      (quarterTurn <$> filter (λ b, hasBlock p b = true) l) q0.
Proof.
  intros Hl. revert q0. induction Hl as [|b l Hb Hl IH]; intros q0; [done|].
  cbn [fold_left]. rewrite IH, filter_cons. unfold rotateStep.
  destruct b as [[x y] z]. destruct (hasBlock p (x, y, z)) eqn:Hp.
  - rewrite decide_True by done. rewrite fmap_cons. cbn [fold_left].
    apply inGrid_spec in Hb.
    replace (_ && _) with true; [done|].
    symmetry. rewrite !andb_true_iff, !Z.leb_le, !Z.ltb_lt. lia.
  - by rewrite decide_False by congruence.
Qed.

Lemma scan3_inGrid : Forall (λ b, inGrid b = true) scan3.
Proof. apply Forall_forall. intros b. by rewrite elem_of_scan3. Qed.

Lemma rotatePolyCube90_eq p :
  rotatePolyCube90 p = normalizePolyCube (toPolyCube (quarterTurn <$> blocksOf p)).
Proof.
  unfold rotatePolyCube90. by rewrite rotateStep_fold by apply scan3_inGrid.
Qed.

Lemma turned_inGrid p : Forall (λ b, inGrid b = true) (quarterTurn <$> blocksOf p).
Proof.
  apply Forall_fmap, Forall_forall. intros b [_ Hb]%elem_of_blocksOf.
  by apply quarterTurn_inGrid.
Qed.

Lemma turned_blocks p b :
  b ∈ blocksOf (toPolyCube (quarterTurn <$> blocksOf p))
  ↔ ∃ a, a ∈ blocksOf p ∧ b = quarterTurn a.
Proof.
  rewrite elem_of_blocksOf_toPolyCube by apply turned_inGrid.
  rewrite list_elem_of_fmap. split; intros (a & H1 & H2); eauto.
Qed.

Lemma turned_empty p :
  blocksOf (toPolyCube (quarterTurn <$> blocksOf p)) = [] ↔ blocksOf p = [].
Proof.
  rewrite !elem_of_nil_iff. split.
  - intros HN a Ha. apply (HN (quarterTurn a)), turned_blocks. eauto.
  - intros Hp b (a & Ha & _)%turned_blocks. by apply Hp in Ha.
Qed.

Lemma turned_extremes p :
  blocksOf p ≠ [] →
  loX (toPolyCube (quarterTurn <$> blocksOf p)) = loZ p ∧
  hiX (toPolyCube (quarterTurn <$> blocksOf p)) = hiZ p ∧
  loY (toPolyCube (quarterTurn <$> blocksOf p)) = loY p ∧
  hiY (toPolyCube (quarterTurn <$> blocksOf p)) = hiY p ∧
  loZ (toPolyCube (quarterTurn <$> blocksOf p)) = GRID_SIZE - 1 - hiX p ∧
  hiZ (toPolyCube (quarterTurn <$> blocksOf p)) = GRID_SIZE - 1 - loX p.
Proof.
  intros Hne. destruct (extremes_spec p Hne) as (E1 & E2 & E3 & E4 & E5 & E6).
  set (R := toPolyCube (quarterTurn <$> blocksOf p)).
  assert (Hback : ∀ b, b ∈ blocksOf R →
    ∃ a, a ∈ blocksOf p ∧ xOf b = zOf a + 0 ∧ yOf b = yOf a + 0
         ∧ zOf b = GRID_SIZE - 1 - xOf a).
  { intros b (a & Ha & ->)%turned_blocks. exists a. split; [done|].
    unfold quarterTurn, xOf, yOf, zOf. cbn [fst snd]. lia. }
  assert (Hfwd : ∀ a, a ∈ blocksOf p →
    ∃ b, b ∈ blocksOf R ∧ xOf b = zOf a + 0 ∧ yOf b = yOf a + 0
         ∧ zOf b = GRID_SIZE - 1 - xOf a).
  { intros a Ha. exists (quarterTurn a). split; [apply turned_blocks; eauto|].
    unfold quarterTurn, xOf, yOf, zOf. cbn [fst snd]. lia. }
  destruct (extremes_unique R (loZ p + 0) (hiZ p + 0) (loY p + 0) (hiY p + 0)
              (GRID_SIZE - 1 - hiX p) (GRID_SIZE - 1 - loX p))
    as (U1 & U2 & U3 & U4 & U5 & U6).
  - eapply isMinOf_shift; [| |exact E5].
    + intros b (a & Ha & Hx & _)%Hback. eauto.
    + intros a (b & Hb & Hx & _)%Hfwd. eauto.
  - eapply isMaxOf_shift; [| |exact E6].
    + intros b (a & Ha & Hx & _)%Hback. eauto.
    + intros a (b & Hb & Hx & _)%Hfwd. eauto.
  - eapply isMinOf_shift; [| |exact E3].
    + intros b (a & Ha & _ & Hy & _)%Hback. eauto.
    + intros a (b & Hb & _ & Hy & _)%Hfwd. eauto.
  - eapply isMaxOf_shift; [| |exact E4].
    + intros b (a & Ha & _ & Hy & _)%Hback. eauto.
    + intros a (b & Hb & _ & Hy & _)%Hfwd. eauto.
  - eapply isMinOf_flip; [| |exact E2].
    + intros b (a & Ha & _ & _ & Hz)%Hback. eauto.
    + intros a (b & Hb & _ & _ & Hz)%Hfwd. eauto.
  - eapply isMaxOf_flip; [| |exact E1].
    + intros b (a & Ha & _ & _ & Hz)%Hback. eauto.
    + intros a (b & Hb & _ & _ & Hz)%Hfwd. eauto.
  - lia.
Qed.

Lemma rotatePolyCube90_empty_iff p :
  blocksOf (rotatePolyCube90 p) = [] ↔ blocksOf p = [].
Proof. by rewrite rotatePolyCube90_eq, normalizePolyCube_empty_iff, turned_empty. Qed.

(** The occupied voxels of the rotated cube, in closed form. *)
Lemma rotatePolyCube90_blocks p b :
  blocksOf p ≠ [] →
  b ∈ blocksOf (rotatePolyCube90 p)
  ↔ ∃ a, a ∈ blocksOf p
         ∧ b = (zOf a - loZ p, yOf a - loY p, hiX p - xOf a).
Proof.
  intros Hne. rewrite rotatePolyCube90_eq, normalizePolyCube_blocks.
  destruct (turned_extremes p Hne) as (-> & _ & -> & _ & -> & _).
  rewrite turned_blocks. destruct b as [[x y] z].
  unfold quarterTurn, xOf, yOf, zOf. cbn [fst snd]. split.
  - intros ([[ax ay] az] & Ha & Heq). cbn [fst snd] in Heq.
    injection Heq as Hx Hy Hz. exists (ax, ay, az). split; [done|].
    cbn [fst snd]. f_equal; [f_equal|]; lia.
  - intros ([[ax ay] az] & Ha & Heq). cbn [fst snd] in Heq.
    injection Heq as -> -> ->. exists (ax, ay, az). split; [done|].
    cbn [fst snd]. f_equal; [f_equal|]; lia.
Qed.

Lemma rotatePolyCube90_extremes p :
  blocksOf p ≠ [] →
  loX (rotatePolyCube90 p) = 0 ∧ hiX (rotatePolyCube90 p) = hiZ p - loZ p ∧
  loY (rotatePolyCube90 p) = 0 ∧ hiY (rotatePolyCube90 p) = hiY p - loY p ∧
  loZ (rotatePolyCube90 p) = 0 ∧ hiZ (rotatePolyCube90 p) = hiX p - loX p.
Proof.
  intros Hne. rewrite rotatePolyCube90_eq.
  destruct (normalizePolyCube_extremes (toPolyCube (quarterTurn <$> blocksOf p)))
    as (-> & -> & -> & -> & -> & ->); [by rewrite turned_empty|].
  destruct (turned_extremes p Hne) as (-> & -> & -> & -> & -> & ->). lia.
Qed.

Lemma blockCount_rotatePolyCube90 p : blockCount (rotatePolyCube90 p) = blockCount p.
Proof.
  rewrite rotatePolyCube90_eq, blockCount_normalizePolyCube, !blockCount_unfold.
  rewrite blocksOf_toPolyCube; [by rewrite length_fmap | | apply turned_inGrid].
  apply NoDup_fmap_2_strong; [|apply NoDup_blocksOf].
  intros [[x y] z] [[x' y'] z'] _ _. unfold quarterTurn, xOf, yOf, zOf.
  cbn [fst snd]. intros [= ? ? ?]. f_equal; [f_equal|]; lia.
Qed.

Lemma calculateDimensions_rotatePolyCube90 p :
  calculateDimensions (rotatePolyCube90 p)
  = mkDims (depth (calculateDimensions p)) (height (calculateDimensions p))
           (width (calculateDimensions p)).
Proof.
  destruct (decide (blocksOf p = [])) as [E|Hne].
  - rewrite !calculateDimensions_empty; [done.. | by apply rotatePolyCube90_empty_iff].
  - rewrite !calculateDimensions_nonempty;
      [|done | by rewrite rotatePolyCube90_empty_iff].
    destruct (rotatePolyCube90_extremes p Hne) as (-> & -> & -> & -> & -> & ->).
    cbn [width height depth]. f_equal; lia.
Qed.

(** X6. [rotatePolyCube90] keeps the number of occupied voxels and swaps
    width and depth: the rotated cube is as wide as the input is deep, as
    deep as the input is wide, and as high. *)
Theorem X6_rotate_keeps_count_swaps_dimensions (p : PolyCube) :
  blockCount (rotatePolyCube90 p) = blockCount p
  ∧ calculateDimensions (rotatePolyCube90 p)
    = mkDims (depth (calculateDimensions p)) (height (calculateDimensions p))
             (width (calculateDimensions p)).
Proof.
  split; [apply blockCount_rotatePolyCube90 | apply calculateDimensions_rotatePolyCube90].
Qed.

(** X7. The occupied voxels of the rotated cube are exactly the images of
    the occupied voxels (x, y, z) of the input under
    (x, y, z) |-> (z - min z, y - min y, max x - x); the range check inside
    the scan never drops a block. *)
Theorem X7_rotate_closed_form (p : PolyCube) (b : BlockCoordinates) :
  blocksOf p ≠ [] →
  ∃ Mx my mz,
    isMaxOf xOf (blocksOf p) Mx ∧ isMinOf yOf (blocksOf p) my ∧
    isMinOf zOf (blocksOf p) mz ∧
    (b ∈ blocksOf (rotatePolyCube90 p)
     ↔ ∃ a, a ∈ blocksOf p ∧ b = (zOf a - mz, yOf a - my, Mx - xOf a)).
Proof.
  intros Hne. destruct (extremes_spec p Hne) as (_ & E2 & E3 & _ & E5 & _).
  exists (hiX p), (loY p), (loZ p). repeat (split; [done|]).
  by apply rotatePolyCube90_blocks.
Qed.

Lemma X7_rotate_closed_form_witness :
  ∃ Mx my mz,
    isMaxOf xOf (blocksOf (toPolyCube [(4, 2, 5); (5, 2, 5); (5, 3, 5)])) Mx ∧
    isMinOf yOf (blocksOf (toPolyCube [(4, 2, 5); (5, 2, 5); (5, 3, 5)])) my ∧
    isMinOf zOf (blocksOf (toPolyCube [(4, 2, 5); (5, 2, 5); (5, 3, 5)])) mz ∧
    ((0, 0, 1) ∈ blocksOf (rotatePolyCube90
                             (toPolyCube [(4, 2, 5); (5, 2, 5); (5, 3, 5)]))
     ↔ ∃ a, a ∈ blocksOf (toPolyCube [(4, 2, 5); (5, 2, 5); (5, 3, 5)])
            ∧ (0, 0, 1) = (zOf a - mz, yOf a - my, Mx - xOf a)).
Proof.
  apply (X7_rotate_closed_form (toPolyCube [(4, 2, 5); (5, 2, 5); (5, 3, 5)]) (0, 0, 1)).
  vm_compute. discriminate.
Defined.

Lemma rotatePolyCube90_ext p q :
  (∀ b, b ∈ blocksOf (rotatePolyCube90 p) ↔ b ∈ blocksOf (normalizePolyCube q)) →
  rotatePolyCube90 p = normalizePolyCube q.
Proof.
  intros H. rewrite rotatePolyCube90_eq. apply normalizePolyCube_ext.
  intros b. rewrite <- rotatePolyCube90_eq. apply H.
Qed.

Lemma rotatePolyCube90_twice_blocks p b :
  blocksOf p ≠ [] →
  b ∈ blocksOf (rotatePolyCube90 (rotatePolyCube90 p))
  ↔ ∃ a, a ∈ blocksOf p
         ∧ b = (hiX p - xOf a, yOf a - loY p, hiZ p - zOf a).
Proof.
  intros Hne.
  assert (Hne1 : blocksOf (rotatePolyCube90 p) ≠ [])
    by by rewrite rotatePolyCube90_empty_iff.
  rewrite (rotatePolyCube90_blocks _ _ Hne1).
  destruct (rotatePolyCube90_extremes p Hne) as (_ & -> & -> & _ & -> & _).
  split.
  - intros (a1 & Ha1 & ->). apply (rotatePolyCube90_blocks _ _ Hne) in Ha1.
    destruct Ha1 as (a & Ha & ->). exists a. split; [done|].
    unfold xOf, yOf, zOf. cbn [fst snd]. f_equal; [f_equal|]; lia.
  - intros (a & Ha & ->).
    exists (zOf a - loZ p, yOf a - loY p, hiX p - xOf a). split.
    + apply (rotatePolyCube90_blocks _ _ Hne). eauto.
    + unfold xOf, yOf, zOf. cbn [fst snd]. f_equal; [f_equal|]; lia.
Qed.

Lemma rotatePolyCube90_twice_extremes p :
  blocksOf p ≠ [] →
  loX (rotatePolyCube90 (rotatePolyCube90 p)) = 0 ∧
  hiX (rotatePolyCube90 (rotatePolyCube90 p)) = hiX p - loX p ∧
  loY (rotatePolyCube90 (rotatePolyCube90 p)) = 0 ∧
  hiY (rotatePolyCube90 (rotatePolyCube90 p)) = hiY p - loY p ∧
  loZ (rotatePolyCube90 (rotatePolyCube90 p)) = 0 ∧
  hiZ (rotatePolyCube90 (rotatePolyCube90 p)) = hiZ p - loZ p.
Proof.
  intros Hne.
  assert (Hne1 : blocksOf (rotatePolyCube90 p) ≠ [])
    by by rewrite rotatePolyCube90_empty_iff.
  destruct (rotatePolyCube90_extremes _ Hne1) as (-> & -> & -> & -> & -> & ->).
  destruct (rotatePolyCube90_extremes p Hne) as (-> & -> & -> & -> & -> & ->). lia.
Qed.

Lemma rotatePolyCube90_four p :
  rotatePolyCube90 (rotatePolyCube90 (rotatePolyCube90 (rotatePolyCube90 p)))
  = normalizePolyCube p.
Proof.
  apply rotatePolyCube90_ext. intros b.
  destruct (decide (blocksOf p = [])) as [E|Hne].
  - assert (E4 : blocksOf (rotatePolyCube90 (rotatePolyCube90
                   (rotatePolyCube90 (rotatePolyCube90 p)))) = [])
      by by rewrite !rotatePolyCube90_empty_iff.
    assert (En : blocksOf (normalizePolyCube p) = [])
      by by rewrite normalizePolyCube_empty_iff.
    by rewrite E4, En.
  - assert (Hne2 : blocksOf (rotatePolyCube90 (rotatePolyCube90 p)) ≠ [])
      by by rewrite !rotatePolyCube90_empty_iff.
    rewrite (rotatePolyCube90_twice_blocks _ _ Hne2).
    destruct (rotatePolyCube90_twice_extremes p Hne) as (_ & -> & -> & _ & _ & ->).
    rewrite normalizePolyCube_blocks. destruct b as [[x y] z]. split.
    + intros (a2 & Ha2 & Hb).
      apply (rotatePolyCube90_twice_blocks _ _ Hne) in Ha2.
      destruct Ha2 as ([[ax ay] az] & Ha & ->).
      unfold xOf, yOf, zOf in Hb |- *. cbn [fst snd] in Hb |- *.
      injection Hb as -> -> ->.
      replace (_, _, _) with (ax, ay, az); [done|]. f_equal; [f_equal|]; lia.
    + intros Ha.
      exists (hiX p - (xOf (x, y, z) + loX p), yOf (x, y, z) + loY p - loY p,
              hiZ p - (zOf (x, y, z) + loZ p)). split.
      * apply (rotatePolyCube90_twice_blocks _ _ Hne). eexists. split; [exact Ha|].
        unfold xOf, yOf, zOf. cbn [fst snd]. reflexivity.
      * unfold xOf, yOf, zOf. cbn [fst snd]. f_equal; [f_equal|]; lia.
Qed.

Lemma rotatePolyCube90_movedBy t p q :
  movedBy t p q → rotatePolyCube90 q = rotatePolyCube90 p.
Proof.
  destruct t as [[tx ty] tz].
  intros Hm. rewrite (rotatePolyCube90_eq p). apply rotatePolyCube90_ext. intros b.
  rewrite <- rotatePolyCube90_eq.
  destruct (decide (blocksOf p = [])) as [E|Hne].
  - assert (Eq : blocksOf q = []) by by apply (movedBy_empty (tx, ty, tz) p q).
    assert (E1 : blocksOf (rotatePolyCube90 p) = [])
      by by rewrite rotatePolyCube90_empty_iff.
    assert (E2 : blocksOf (rotatePolyCube90 q) = [])
      by by rewrite rotatePolyCube90_empty_iff.
    by rewrite E1, E2.
  - assert (Hneq : blocksOf q ≠ []) by by rewrite (movedBy_empty (tx, ty, tz) p q Hm).
    rewrite (rotatePolyCube90_blocks _ _ Hne), (rotatePolyCube90_blocks _ _ Hneq).
    destruct (movedBy_extremes tx ty tz p q Hm Hne) as (_ & -> & -> & -> & _ & _).
    split.
    + intros (a & Ha & ->). apply Hm in Ha as (a0 & Ha0 & ->). exists a0.
      split; [done|]. destruct a0 as [[x y] z].
      unfold addBlock, xOf, yOf, zOf. cbn [fst snd]. f_equal; [f_equal|]; lia.
    + intros (a0 & Ha0 & ->).
      exists (addBlock a0 (tx, ty, tz)). split.
      * apply Hm. eauto.
      * destruct a0 as [[x y] z].
        unfold addBlock, xOf, yOf, zOf. cbn [fst snd]. f_equal; [f_equal|]; lia.
Qed.

(** X8. Four quarter turns bring every solid back to its normalized
    position: rotatePolyCube90 applied four times equals normalizePolyCube. *)
Theorem X8_four_rotations_normalize (p : PolyCube) :
  rotatePolyCube90 (rotatePolyCube90 (rotatePolyCube90 (rotatePolyCube90 p)))
  = normalizePolyCube p.
Proof. apply rotatePolyCube90_four. Qed.

(** X9. The rotation does not depend on where the solid sits in the grid:
    two solids that are translates of each other rotate to the same cube,
    and the rotated cube is already normalized. *)
Theorem X9_rotate_position_independent (t : BlockCoordinates) (p q : PolyCube) :
  movedBy t p q →
  rotatePolyCube90 q = rotatePolyCube90 p
  ∧ normalizePolyCube (rotatePolyCube90 q) = rotatePolyCube90 q.
Proof.
  intros Hm. split; [by apply (rotatePolyCube90_movedBy t)|].
  rewrite rotatePolyCube90_eq. apply normalizePolyCube_idempotent.
Qed.

Lemma X9_rotate_position_independent_witness :
  rotatePolyCube90 (toPolyCube [(4, 2, 5); (5, 2, 5); (5, 3, 5)])
  = rotatePolyCube90 (toPolyCube [(1, 0, 1); (2, 0, 1); (2, 1, 1)])
  ∧ normalizePolyCube (rotatePolyCube90 (toPolyCube [(4, 2, 5); (5, 2, 5); (5, 3, 5)]))
    = rotatePolyCube90 (toPolyCube [(4, 2, 5); (5, 2, 5); (5, 3, 5)]).
Proof.
  apply (X9_rotate_position_independent (3, 2, 4)).
  intros b. rewrite !elem_of_blocksOf_toPolyCube
    by (apply (bool_decide_unpack _); vm_compute; exact I).
  split.
  - intros Hb. repeat (apply elem_of_cons in Hb as [->|Hb]); [..|by inversion Hb];
      [exists (1, 0, 1) | exists (2, 0, 1) | exists (2, 1, 1)];
      (split; [in_list | reflexivity]).
  - intros (a & Ha & ->).
    repeat (apply elem_of_cons in Ha as [->|Ha]); [..|by inversion Ha]; in_list.
Defined.

(** ** More on generateContiguousShape *)

(** While cells are left, every iteration of the growth loop uses one
    draw. *)
Lemma grow_draws iters st src :
  growInv st → (length (existingBlocks st) + iters ≤ 22)%nat →
  snd (grow iters st src) = mkRandomSource (draws src) (drawn src + iters).
Proof.
  revert st src. induction iters as [|iters IH]; intros st src Hinv Hlen;
    cbn [grow].
  { unfold ret. cbn [snd]. destruct src as [f n]. cbn [draws drawn].
    by rewrite Nat.add_0_r. }
  pose proof (collectCandidates_nonempty st Hinv ltac:(lia)) as Hne.
  destruct (Nat.eqb_spec (length (potentialPoints (collectCandidates st))) 0)
    as [E|_]; [by destruct (potentialPoints (collectCandidates st))|].
  unfold bind, random.
  set (sorted := stableSort byHeightDesc (potentialPoints (collectCandidates st))).
  assert (Hsorted : (0 < length sorted)%nat).
  { subst sorted. rewrite length_stableSort.
    destruct (potentialPoints (collectCandidates st)); [done | simpl; lia]. }
  pose proof (floorMul_bounds (draws src (drawn src))
                (Z.min (Z.of_nat (length sorted)) 5) ltac:(lia)) as Hi.
  destruct (idx sorted _) as [nextBlock|] eqn:Hidx.
  - rewrite IH.
    + cbn [draws drawn]. f_equal. lia.
    + apply pushBlock_inv; [done|].
      apply idx_elem_of in Hidx. by apply elem_of_stableSort in Hidx.
    + unfold pushBlock. cbn [existingBlocks]. rewrite length_app. simpl. lia.
  - rewrite idx_nat in Hidx by lia. apply lookup_ge_None in Hidx. lia.
Qed.

Lemma attempt_draws minBlocks targetBlocks src :
  1 ≤ targetBlocks ≤ 22 →
  snd (attempt minBlocks targetBlocks src)
  = mkRandomSource (draws src) (drawn src + Z.to_nat targetBlocks + 1).
Proof.
  intros Ht. rewrite attempt_eq. cbv zeta.
  pose proof (floorMul_bounds (draws src (drawn src)) 4 eq_refl) as Hx.
  pose proof (floorMul_bounds (draws src (S (drawn src))) 4 eq_refl) as Hz.
  pose proof (grow_draws (Z.to_nat (targetBlocks - 1))
    (mkGrowState {[(floorMul (draws src (drawn src)) 4, 0,
                    floorMul (draws src (S (drawn src))) 4) := true]}
       [(floorMul (draws src (drawn src)) 4, 0,
         floorMul (draws src (S (drawn src))) 4)])
    (mkRandomSource (draws src) (S (S (drawn src))))) as Hdraws.
  destruct (grow _ _ _) as [st src1]. cbn [snd draws drawn] in Hdraws.
  assert (Hsrc : src1 = mkRandomSource (draws src) (drawn src + Z.to_nat targetBlocks + 1)).
  { rewrite Hdraws.
    - f_equal. lia.
    - apply seed_inv; unfold GRID_SIZE; lia.
    - cbn [existingBlocks length]. lia. }
  destruct (_ <? _); [done|]. by destruct (_ || _).
Qed.

Lemma generateContiguousShape_draws level src :
  snd (generateContiguousShape level src)
  = mkRandomSource (draws src)
      (drawn src + Z.to_nat (drawTarget level (draws src (drawn src))) + 2).
Proof.
  pose proof (drawTarget_range level (draws src (drawn src))) as Ht.
  destruct (generateContiguousShape_total level src) as (p & src' & Hgen & Hatt & _).
  rewrite Hgen. cbn [snd].
  assert (Hsnd : snd (attempt (min (BLOCK_COUNTS_BY_LEVEL level))
                   (drawTarget level (draws src (drawn src))) (advance src)) = src')
    by by rewrite Hatt.
  rewrite attempt_draws in Hsnd by (destruct level; simpl in *; lia).
  rewrite <- Hsnd. unfold advance. cbn [draws drawn]. f_equal. lia.
Qed.

(** X10. [generateContiguousShape] never returns [null]: for every level and
    every sequence of random draws, the first pass of the retry loop returns
    a cube; the cube has exactly the drawn target number of blocks, and the
    call uses target + 2 draws (the target, the two seed coordinates, one
    pick per added block). *)
Theorem X10_generator_never_fails (level : Level) (src : RandomSource) :
  ∃ p,
    generateContiguousShape level src
    = (Some p,
       mkRandomSource (draws src)
         (drawn src + Z.to_nat (drawTarget level (draws src (drawn src))) + 2))
    ∧ attempt (min (BLOCK_COUNTS_BY_LEVEL level))
        (drawTarget level (draws src (drawn src))) (advance src)
      = generateContiguousShape level src
    ∧ blockCount p = drawTarget level (draws src (drawn src)).
Proof.
  pose proof (generateContiguousShape_draws level src) as Hd.
  destruct (generateContiguousShape_total level src) as (p & src' & Hgen & Hatt & Hc).
  rewrite Hgen in Hd. cbn [snd] in Hd. subst src'.
  exists p. split; [exact Hgen|]. split; [by rewrite Hatt, Hgen | exact Hc].
Qed.

Lemma isMinOf_same {A} (f : A → Z) l l' m :
  (∀ a, a ∈ l ↔ a ∈ l') → isMinOf f l m → isMinOf f l' m.
Proof.
  intros Hs [(a & Ha & E) Hlo]. split.
  - exists a. split; [by apply Hs | done].
  - intros b Hb. by apply Hlo, Hs.
Qed.

Lemma isMaxOf_same {A} (f : A → Z) l l' m :
  (∀ a, a ∈ l ↔ a ∈ l') → isMaxOf f l m → isMaxOf f l' m.
Proof.
  intros Hs [(a & Ha & E) Hhi]. split.
  - exists a. split; [by apply Hs | done].
  - intros b Hb. by apply Hhi, Hs.
Qed.

(** A grown list of [n] cells spans, over the three axes together, at most
    [n + 2] cells. *)
Lemma generated_compact bs :
  Grown bs → NoDup bs → Forall (λ b, inGrid b = true) bs →
  width (calculateDimensions (normalizePolyCube (toPolyCube bs)))
  + height (calculateDimensions (normalizePolyCube (toPolyCube bs)))
  + depth (calculateDimensions (normalizePolyCube (toPolyCube bs)))
  ≤ Z.of_nat (length bs) + 2.
Proof.
  intros Hgrown Hnd Hgrid.
  rewrite calculateDimensions_normalizePolyCube.
  destruct (Grown_boxed bs Hgrown)
    as (lx & hx & ly & hy & lz & hz & Mx & Nx & My & Ny & Mz & Nz & Hsum).
  assert (Hs : ∀ a, a ∈ bs ↔ a ∈ blocksOf (toPolyCube bs)).
  { intros a. symmetry. by apply elem_of_blocksOf_toPolyCube. }
  destruct (extremes_unique (toPolyCube bs) lx hx ly hy lz hz)
    as (E1 & E2 & E3 & E4 & E5 & E6);
    [by eapply isMinOf_same || by eapply isMaxOf_same ..|].
  rewrite calculateDimensions_nonempty.
  - cbn [width height depth]. lia.
  - eapply isMinOf_nonempty, isMinOf_same; [exact Hs | exact Mx].
Qed.

Lemma Grown_nonempty bs : Grown bs → bs ≠ [].
Proof. intros [b|bs' b d _ _ _]; [done|]. by destruct bs'. Qed.

(** X11. Every cube returned by [generateContiguousShape] is a
    GRID_SIZE-cube that normalisation leaves unchanged, whose dimensions lie
    between 1 and GRID_SIZE, and whose width, height and depth together
    exceed its number of blocks by at most 2 (each added block touches an
    earlier one, so it extends the bounding box by at most one cell). *)
Theorem X11_generated_cube_well_formed (level : Level) (src src' : RandomSource)
    (p : PolyCube) :
  generateContiguousShape level src = (Some p, src') →
  isGridCube p
  ∧ normalizePolyCube p = p
  ∧ 1 ≤ width (calculateDimensions p) ≤ GRID_SIZE
  ∧ 1 ≤ height (calculateDimensions p) ≤ GRID_SIZE
  ∧ 1 ≤ depth (calculateDimensions p) ≤ GRID_SIZE
  ∧ width (calculateDimensions p) + height (calculateDimensions p)
    + depth (calculateDimensions p) ≤ blockCount p + 2.
Proof.
  intros (bs & Hgrown & Hnd & Hgrid & _ & ->)%generateContiguousShape_Some.
  split; [apply normalizePolyCube_shape|].
  split; [apply normalizePolyCube_idempotent|].
  pose proof (calculateDimensions_fits _
                (generated_nonempty bs (Grown_nonempty bs Hgrown) Hnd Hgrid))
    as (Hw & Hh & Hd).
  pose proof (generated_compact bs Hgrown Hnd Hgrid) as Hsum.
  rewrite (blockCount_generated bs Hnd Hgrid).
  revert Hw Hh Hd Hsum.
  generalize (calculateDimensions (normalizePolyCube (toPolyCube bs))).
  intros d Hw Hh Hd Hsum. repeat split; lia.
Qed.

Lemma X11_generated_cube_well_formed_witness :
  isGridCube (default [] (fst (generateContiguousShape LEVEL_3
                                 (constSource (mkUnit01 3 1)))))
  ∧ normalizePolyCube (default [] (fst (generateContiguousShape LEVEL_3
                                          (constSource (mkUnit01 3 1)))))
    = default [] (fst (generateContiguousShape LEVEL_3 (constSource (mkUnit01 3 1))))
  ∧ 1 ≤ width (calculateDimensions
                 (default [] (fst (generateContiguousShape LEVEL_3
                                     (constSource (mkUnit01 3 1)))))) ≤ GRID_SIZE
  ∧ 1 ≤ height (calculateDimensions
                  (default [] (fst (generateContiguousShape LEVEL_3
                                      (constSource (mkUnit01 3 1)))))) ≤ GRID_SIZE
  ∧ 1 ≤ depth (calculateDimensions
                 (default [] (fst (generateContiguousShape LEVEL_3
                                     (constSource (mkUnit01 3 1)))))) ≤ GRID_SIZE
  ∧ width (calculateDimensions
             (default [] (fst (generateContiguousShape LEVEL_3
                                 (constSource (mkUnit01 3 1))))))
    + height (calculateDimensions
                (default [] (fst (generateContiguousShape LEVEL_3
                                    (constSource (mkUnit01 3 1))))))
    + depth (calculateDimensions
               (default [] (fst (generateContiguousShape LEVEL_3
                                   (constSource (mkUnit01 3 1))))))
    ≤ blockCount (default [] (fst (generateContiguousShape LEVEL_3
                                     (constSource (mkUnit01 3 1))))) + 2.
Proof.
  apply (X11_generated_cube_well_formed LEVEL_3 (constSource (mkUnit01 3 1))
           (snd (generateContiguousShape LEVEL_3 (constSource (mkUnit01 3 1))))).
  vm_compute. reflexivity.
Defined.

(** ** More on normalize2DGrid *)

Lemma extremes2_spec g :
  cellsOf g ≠ [] →
  isMinOf fst (cellsOf g) (loR g) ∧ isMaxOf fst (cellsOf g) (hiR g) ∧
  isMinOf snd (cellsOf g) (loC g) ∧ isMaxOf snd (cellsOf g) (hiC g).
Proof. apply cellsOf_extremes. Qed.

Lemma extremes2_unique g mr Mr mc Mc :
  isMinOf fst (cellsOf g) mr → isMaxOf fst (cellsOf g) Mr →
  isMinOf snd (cellsOf g) mc → isMaxOf snd (cellsOf g) Mc →
  loR g = mr ∧ hiR g = Mr ∧ loC g = mc ∧ hiC g = Mc.
Proof.
  intros H1 H2 H3 H4.
  destruct (extremes2_spec g (isMinOf_nonempty _ _ _ H1)) as (E1 & E2 & E3 & E4).
  repeat split;
    (eapply isMinOf_unique; eassumption) || (eapply isMaxOf_unique; eassumption).
Qed.

Lemma extremes2_range g :
  cellsOf g ≠ [] →
  0 ≤ loR g ≤ hiR g ∧ hiR g < GRID_SIZE ∧ 0 ≤ loC g ≤ hiC g ∧ hiC g < GRID_SIZE.
Proof.
  intros Hne.
  destruct (extremes2_spec g Hne)
    as ([(a1 & H1 & E1) L1] & [(a2 & H2 & E2) L2] & [(a3 & H3 & E3) L3]
        & [(a4 & H4 & E4) L4]).
  pose proof (cellsOf_scan g a1 H1). pose proof (cellsOf_scan g a2 H2).
  pose proof (cellsOf_scan g a3 H3). pose proof (cellsOf_scan g a4 H4).
  pose proof (L1 a2 H2). pose proof (L3 a4 H4). lia.
Qed.

Lemma normalize2DGrid_cells g r c :
  cellsOf g ≠ [] →
  (r, c) ∈ cellsOf (normalizedGrid (normalize2DGrid g))
  ↔ (r + loR g, c + loC g) ∈ cellsOf g.
Proof. apply elem_of_cellsOf_normalize2DGrid. Qed.

Lemma normalize2DGrid_size g :
  cellsOf g ≠ [] →
  dimensions (normalize2DGrid g) = mkSize (hiC g - loC g + 1) (hiR g - loR g + 1).
Proof. apply normalize2DGrid_dimensions. Qed.

Lemma normalize2DGrid_cell_values g r c :
  cellsOf g ≠ [] →
  cellAt (normalizedGrid (normalize2DGrid g)) r c
  = if (0 <=? r) && (r <? hiR g - loR g + 1) && (0 <=? c) && (c <? hiC g - loC g + 1)
    then Some (if decide ((r + loR g, c + loC g) ∈ cellsOf g) then 1 else 0)
    else None.
Proof. apply normalize2DGrid_cellAt. Qed.

Lemma normalize2DGrid_blank g :
  cellsOf g = [] → normalize2DGrid g = mkNormalized2D [] (mkSize 0 0).
Proof. apply normalize2DGrid_empty. Qed.

(** The result for a grid with a filled cell is never the result for a
    grid without one. *)
Lemma normalize2DGrid_blank_iff g :
  size_width (dimensions (normalize2DGrid g)) = 0 ↔ cellsOf g = [].
Proof.
  split.
  - intros Hw. destruct (decide (cellsOf g = [])) as [|Hne]; [done|].
    rewrite normalize2DGrid_size in Hw by done. cbn [size_width] in Hw.
    pose proof (extremes2_range g Hne). lia.
  - intros E. by rewrite normalize2DGrid_blank.
Qed.

(** Two grids with the same filled cells relative to their corners
    normalise to the same result. *)
Lemma normalize2DGrid_ext g g' :
  cellsOf g ≠ [] → cellsOf g' ≠ [] →
  (∀ r c, (r + loR g, c + loC g) ∈ cellsOf g ↔ (r + loR g', c + loC g') ∈ cellsOf g') →
  normalize2DGrid g = normalize2DGrid g'.
Proof.
  intros Hne Hne' Hsame.
  destruct (extremes2_spec g Hne)
    as (_ & [(a2 & H2 & E2) L2] & _ & [(a4 & H4 & E4) L4]).
  destruct (extremes2_spec g' Hne')
    as (_ & [(b2 & G2 & F2) M2] & _ & [(b4 & G4 & F4) M4]).
  assert (Hto : ∀ a, a ∈ cellsOf g →
            (fst a - loR g + loR g', snd a - loC g + loC g') ∈ cellsOf g').
  { intros [r c] Ha. apply Hsame. cbn [fst snd].
    by replace (r - loR g + loR g, c - loC g + loC g) with (r, c) by (f_equal; lia). }
  assert (Hfrom : ∀ a, a ∈ cellsOf g' →
            (fst a - loR g' + loR g, snd a - loC g' + loC g) ∈ cellsOf g).
  { intros [r c] Ha. apply Hsame. cbn [fst snd].
    by replace (r - loR g' + loR g', c - loC g' + loC g') with (r, c)
      by (f_equal; lia). }
  pose proof (M2 _ (Hto a2 H2)) as P1. pose proof (M4 _ (Hto a4 H4)) as P2.
  pose proof (L2 _ (Hfrom b2 G2)) as P3. pose proof (L4 _ (Hfrom b4 G4)) as P4.
  cbn [fst snd] in P1, P2, P3, P4.
  assert (Hh : hiR g - loR g = hiR g' - loR g') by lia.
  assert (Hw : hiC g - loC g = hiC g' - loC g') by lia.
  rewrite (normalized2D_eta (normalize2DGrid g)), (normalized2D_eta (normalize2DGrid g')).
  f_equal.
  - apply grid_ext.
    + pose proof (normalize2DGrid_extent g Hne) as S1.
      pose proof (normalize2DGrid_extent g' Hne') as S2.
      unfold hasExtent2 in S1, S2. rewrite S1, S2.
      fold (loR g) (hiR g) (loC g) (hiC g) (loR g') (hiR g') (loC g') (hiC g').
      by rewrite Hh, Hw.
    + intros r c. rewrite !normalize2DGrid_cell_values by done.
      rewrite Hh, Hw. destruct (_ && _); [|done]. f_equal.
      destruct (decide _) as [Hin|Hout], (decide _) as [Hin'|Hout']; try done.
      * by apply Hsame in Hin.
      * by apply Hsame in Hin'.
  - rewrite !normalize2DGrid_size by done. by rewrite Hh, Hw.
Qed.

Lemma cellsMovedBy_empty dr dc g g' :
  cellsMovedBy dr dc g g' → cellsOf g' = [] ↔ cellsOf g = [].
Proof.
  intros Hm. rewrite !elem_of_nil_iff. split.
  - intros Hq [r c] Ha. apply (Hq (r + dr, c + dc)), Hm.
    by replace (r + dr - dr, c + dc - dc) with (r, c) by (f_equal; lia).
  - intros Hp [r c] Ha%Hm. by apply Hp in Ha.
Qed.

Lemma cellsMovedBy_extremes dr dc g g' :
  cellsMovedBy dr dc g g' → cellsOf g ≠ [] →
  loR g' = loR g + dr ∧ hiR g' = hiR g + dr ∧ loC g' = loC g + dc ∧ hiC g' = hiC g + dc.
Proof.
  intros Hm Hne. destruct (extremes2_spec g Hne) as (E1 & E2 & E3 & E4).
  assert (Hback : ∀ b, b ∈ cellsOf g' →
    ∃ a, a ∈ cellsOf g ∧ fst b = fst a + dr ∧ snd b = snd a + dc).
  { intros [r c] Hb%Hm. exists (r - dr, c - dc). cbn [fst snd]. split; [done | lia]. }
  assert (Hfwd : ∀ a, a ∈ cellsOf g →
    ∃ b, b ∈ cellsOf g' ∧ fst b = fst a + dr ∧ snd b = snd a + dc).
  { intros [r c] Ha. exists (r + dr, c + dc). cbn [fst snd]. split; [|lia].
    apply Hm. by replace (r + dr - dr, c + dc - dc) with (r, c) by (f_equal; lia). }
  apply extremes2_unique.
  - eapply isMinOf_shift; [| |exact E1].
    + intros b (a & Ha & Hr & _)%Hback. eauto.
    + intros a (b & Hb & Hr & _)%Hfwd. eauto.
  - eapply isMaxOf_shift; [| |exact E2].
    + intros b (a & Ha & Hr & _)%Hback. eauto.
    + intros a (b & Hb & Hr & _)%Hfwd. eauto.
  - eapply isMinOf_shift; [| |exact E3].
    + intros b (a & Ha & _ & Hc)%Hback. eauto.
    + intros a (b & Hb & _ & Hc)%Hfwd. eauto.
  - eapply isMaxOf_shift; [| |exact E4].
    + intros b (a & Ha & _ & Hc)%Hback. eauto.
    + intros a (b & Hb & _ & Hc)%Hfwd. eauto.
Qed.

Lemma normalize2DGrid_cellsMovedBy dr dc g g' :
  cellsMovedBy dr dc g g' → normalize2DGrid g' = normalize2DGrid g.
Proof.
  intros Hm. destruct (decide (cellsOf g = [])) as [E|Hne].
  - rewrite (normalize2DGrid_blank g E).
    apply normalize2DGrid_blank. by apply (cellsMovedBy_empty dr dc g g').
  - assert (Hne' : cellsOf g' ≠ []) by by rewrite (cellsMovedBy_empty dr dc g g' Hm).
    apply normalize2DGrid_ext; [done..|]. intros r c.
    destruct (cellsMovedBy_extremes dr dc g g' Hm Hne) as (-> & _ & -> & _).
    rewrite (Hm (r + (loR g + dr)) (c + (loC g + dc))).
    by replace (r + (loR g + dr) - dr, c + (loC g + dc) - dc)
      with (r + loR g, c + loC g) by (f_equal; lia).
Qed.

Lemma normalize2DGrid_eq_moved g g' :
  normalize2DGrid g' = normalize2DGrid g → ∃ dr dc, cellsMovedBy dr dc g g'.
Proof.
  intros Heq. destruct (decide (cellsOf g = [])) as [E|Hne].
  - assert (E' : cellsOf g' = []).
    { apply normalize2DGrid_blank_iff. rewrite Heq. by apply normalize2DGrid_blank_iff. }
    exists 0, 0. intros r c. rewrite E, E'. split; intros Hx; inversion Hx.
  - assert (Hne' : cellsOf g' ≠ []).
    { intros E'%normalize2DGrid_blank_iff. rewrite Heq in E'.
      by apply normalize2DGrid_blank_iff in E'. }
    exists (loR g' - loR g), (loC g' - loC g). intros r c.
    pose proof (normalize2DGrid_cells g' (r - loR g') (c - loC g') Hne') as H1.
    pose proof (normalize2DGrid_cells g (r - loR g') (c - loC g') Hne) as H2.
    rewrite Heq in H1.
    replace (r - loR g' + loR g', c - loC g' + loC g') with (r, c) in H1
      by (f_equal; lia).
    replace (r - loR g' + loR g, c - loC g' + loC g)
      with (r - (loR g' - loR g), c - (loC g' - loC g)) in H2 by (f_equal; lia).
    by rewrite <- H1, H2.
Qed.

(** X12. [normalize2DGrid] identifies exactly the silhouettes that are
    translates of each other: two grids have the same normalised grid and
    dimensions if and only if the filled cells of one are those of the other
    moved by some fixed number of rows and columns. *)
Theorem X12_normalize2D_equal_iff_translate (g g' : OrthographicGridState) :
  normalize2DGrid g' = normalize2DGrid g ↔ ∃ dr dc, cellsMovedBy dr dc g g'.
Proof.
  split; [apply normalize2DGrid_eq_moved|].
  intros (dr & dc & Hm). by apply (normalize2DGrid_cellsMovedBy dr dc).
Qed.

(** ** get2DGridDimensions *)

Lemma bounds2Step_fold g l s :
  fold_left (bounds2Step g) l s
  = let F := filter (λ rc, hasCell g rc = true) l in
    mkBounds2 (minOver fst (gMinR s) F) (maxOver fst (gMaxR s) F)
              (minOver snd (gMinC s) F) (maxOver snd (gMaxC s) F).
Proof.
  revert s. induction l as [|rc l IH]; intros s; simpl.
  - by destruct s.
  - rewrite IH, filter_cons. unfold bounds2Step.
    destruct rc as [r c]. destruct (hasCell g (r, c)) eqn:Hb.
    + by rewrite decide_True by done.
    + by rewrite decide_False by congruence.
Qed.

Lemma get2DGridDimensions_eq g :
  get2DGridDimensions g
  = if hiR g =? -1 then mkSize 0 0
    else mkSize (hiC g - loC g + 1) (hiR g - loR g + 1).
Proof. unfold get2DGridDimensions. by rewrite bounds2Step_fold. Qed.

(** X13. The bounding box that the drawing canvas computes with
    [get2DGridDimensions] is the [dimensions] that [normalize2DGrid] returns
    for the same grid; it is 0 by 0 exactly for a grid without a filled
    cell, and otherwise between 1 and GRID_SIZE both ways. *)
Theorem X13_grid_dimensions_agree (g : OrthographicGridState) :
  get2DGridDimensions g = dimensions (normalize2DGrid g)
  ∧ (get2DGridDimensions g = mkSize 0 0 ↔ cellsOf g = [])
  ∧ (cellsOf g ≠ [] →
     1 ≤ size_width (get2DGridDimensions g) ≤ GRID_SIZE
     ∧ 1 ≤ size_height (get2DGridDimensions g) ≤ GRID_SIZE).
Proof.
  assert (Heq : get2DGridDimensions g = dimensions (normalize2DGrid g)).
  { rewrite get2DGridDimensions_eq.
    destruct (decide (cellsOf g = [])) as [E|Hne].
    - rewrite normalize2DGrid_blank by done. unfold hiR. by rewrite E.
    - rewrite normalize2DGrid_size by done.
      pose proof (extremes2_range g Hne).
      destruct (Z.eqb_spec (hiR g) (-1)); [lia | done]. }
  split; [exact Heq|]. rewrite Heq. split.
  - split.
    + intros Hz. apply normalize2DGrid_blank_iff. by rewrite Hz.
    + intros E. by rewrite normalize2DGrid_blank.
  - intros Hne. rewrite normalize2DGrid_size by done. cbn [size_width size_height].
    pose proof (extremes2_range g Hne). lia.
Qed.

(** ** The check of a drawing *)

Lemma cellOrZero_cellAt g r c v : cellAt g r c = Some v → cellOrZero g r c = Some v.
Proof. unfold cellAt, cellOrZero. by destruct (idx g r). Qed.

Lemma viewCorrect_true s t :
  normalize2DGrid s = normalize2DGrid t → viewCorrect s t = true.
Proof.
  intros Heq. unfold viewCorrect. cbv zeta. rewrite Heq, !Z.eqb_refl.
  cbn [negb orb]. apply forallb_forall. intros r _.
  apply forallb_forall. intros c _. by apply bool_decide_eq_true.
Qed.

Lemma viewCorrect_eq s t :
  viewCorrect s t = true → normalize2DGrid s = normalize2DGrid t.
Proof.
  unfold viewCorrect. cbv zeta.
  destruct (negb _ || negb _) eqn:Hd; [discriminate|].
  apply orb_false_iff in Hd as [Hw Hh].
  apply negb_false_iff, Z.eqb_eq in Hw. apply negb_false_iff, Z.eqb_eq in Hh.
  intros Hall.
  destruct (decide (cellsOf s = [])) as [E|Hne].
  { assert (E' : cellsOf t = []).
    { apply normalize2DGrid_blank_iff. rewrite <- Hw.
      by apply normalize2DGrid_blank_iff. }
    by rewrite !normalize2DGrid_blank. }
  assert (Hne' : cellsOf t ≠ []).
  { intros E'%normalize2DGrid_blank_iff. rewrite <- Hw in E'.
    by apply normalize2DGrid_blank_iff in E'. }
  rewrite (normalize2DGrid_size s Hne), (normalize2DGrid_size t Hne') in Hw, Hh.
  rewrite (normalize2DGrid_size t Hne') in Hall.
  cbn [size_width size_height] in Hw, Hh, Hall.
  rewrite (normalized2D_eta (normalize2DGrid s)), (normalized2D_eta (normalize2DGrid t)).
  f_equal.
  - apply grid_ext.
    + pose proof (normalize2DGrid_extent s Hne) as S1.
      pose proof (normalize2DGrid_extent t Hne') as S2.
      unfold hasExtent2 in S1, S2. rewrite S1, S2.
      fold (loR s) (hiR s) (loC s) (hiC s) (loR t) (hiR t) (loC t) (hiC t).
      by rewrite Hh, Hw.
    + intros r c.
      pose proof (normalize2DGrid_cell_values s r c Hne) as V1.
      pose proof (normalize2DGrid_cell_values t r c Hne') as V2.
      rewrite Hh, Hw in V1.
      destruct (_ && _) eqn:Hin; [|by rewrite V1, V2].
      rewrite !andb_true_iff, !Z.leb_le, !Z.ltb_lt in Hin.
      rewrite forallb_forall in Hall.
      assert (Hr : In r (seqZ 0 (hiR t - loR t + 1))).
      { apply list_elem_of_In, elem_of_seqZ. lia. }
      specialize (Hall r Hr). rewrite forallb_forall in Hall.
      assert (Hc : In c (seqZ 0 (hiC t - loC t + 1))).
      { apply list_elem_of_In, elem_of_seqZ. lia. }
      specialize (Hall c Hc). apply bool_decide_eq_true in Hall.
      rewrite (cellOrZero_cellAt _ _ _ _ V1), (cellOrZero_cellAt _ _ _ _ V2) in Hall.
      by rewrite V1, V2.
  - rewrite !normalize2DGrid_size by done. by rewrite Hh, Hw.
Qed.

(** X14. The check that [validateDrawing] and [handleAskTutor] run on one
    view accepts the student's grid exactly when it normalises to the same
    grid and dimensions as the solution's: the cell-by-cell loop over the
    solution's extent, with its fallback to 0 for a missing row, decides
    equality of the two normalised results. *)
Theorem X14_view_check_decides_equal_normal_forms (student solution : OrthographicGridState) :
  viewCorrect student solution = true
  ↔ normalize2DGrid student = normalize2DGrid solution.
Proof. split; [apply viewCorrect_eq | apply viewCorrect_true]. Qed.

Lemma viewCorrect_moved s t :
  viewCorrect s t = true ↔ ∃ dr dc, cellsMovedBy dr dc t s.
Proof.
  split.
  - intros Heq%viewCorrect_eq. by apply normalize2DGrid_eq_moved.
  - intros (dr & dc & Hm). by apply viewCorrect_true, (normalize2DGrid_cellsMovedBy dr dc).
Qed.

Lemma validateDrawing_eq student solution :
  validateDrawing student solution
  = mkValidation
      (viewCorrect (drawnFront student) (front solution)
       && viewCorrect (drawnTop student) (top solution)
       && viewCorrect (drawnSide student) (side solution))
      ((if viewCorrect (drawnFront student) (front solution) then [] else [ViewFront])
       ++ (if viewCorrect (drawnTop student) (top solution) then [] else [ViewTop])
       ++ (if viewCorrect (drawnSide student) (side solution) then [] else [ViewSide])).
Proof.
  unfold validateDrawing, validateStep. cbn [fold_left drawingOf viewGrid].
  generalize (viewCorrect (drawnFront student) (front solution)).
  generalize (viewCorrect (drawnTop student) (top solution)).
  generalize (viewCorrect (drawnSide student) (side solution)).
  by intros [] [] [].
Qed.

(** X15. [validateDrawing] reports success exactly when each of the three
    drawings is a translate of the solution's view; [incorrectViews] holds
    exactly the views that are not, each once and in the order front, top,
    side. *)
Theorem X15_validation_accepts_translates (student : StudentDrawings)
    (solution : OrthographicViews) :
  (allCorrect (validateDrawing student solution) = true
   ↔ ∀ v, ∃ dr dc, cellsMovedBy dr dc (viewGrid v solution) (drawingOf v student))
  ∧ (∀ v, v ∈ incorrectViews (validateDrawing student solution)
          ↔ ¬ ∃ dr dc, cellsMovedBy dr dc (viewGrid v solution) (drawingOf v student))
  ∧ incorrectViews (validateDrawing student solution)
    `sublist_of` [ViewFront; ViewTop; ViewSide].
Proof.
  rewrite validateDrawing_eq. cbn [allCorrect incorrectViews].
  pose proof (viewCorrect_moved (drawnFront student) (front solution)) as HF.
  pose proof (viewCorrect_moved (drawnTop student) (top solution)) as HT.
  pose proof (viewCorrect_moved (drawnSide student) (side solution)) as HS.
  assert (Hall : (∀ v, ∃ dr dc, cellsMovedBy dr dc (viewGrid v solution) (drawingOf v student))
    ↔ (∃ dr dc, cellsMovedBy dr dc (front solution) (drawnFront student))
      ∧ (∃ dr dc, cellsMovedBy dr dc (top solution) (drawnTop student))
      ∧ (∃ dr dc, cellsMovedBy dr dc (side solution) (drawnSide student))).
  { split.
    - intros Hv. split; [apply (Hv ViewFront)|]. split; [apply (Hv ViewTop)|].
      apply (Hv ViewSide).
    - intros (H1 & H2 & H3) []; assumption. }
  rewrite Hall. clear Hall.
  assert (Hnot : ∀ b (P : Prop), (b = true ↔ P) → (b = false ↔ ¬ P)).
  { intros [] P HP; split; try done; intros HnP; [destruct HnP; by apply HP|].
    intros HP'. by apply HP in HP'. }
  apply Hnot in HF as HF', HT as HT', HS as HS'.
  split; [|split].
  - rewrite !andb_true_iff. tauto.
  - intros v.
    destruct (viewCorrect (drawnFront student) (front solution)),
      (viewCorrect (drawnTop student) (top solution)),
      (viewCorrect (drawnSide student) (side solution));
      cbn [app]; destruct v; cbn [viewGrid drawingOf];
      rewrite ?elem_of_cons, ?elem_of_nil;
      intuition (try discriminate; try congruence).
  - destruct (viewCorrect (drawnFront student) (front solution)),
      (viewCorrect (drawnTop student) (top solution)),
      (viewCorrect (drawnSide student) (side solution)); cbn [app];
      repeat first [apply sublist_nil | apply sublist_skip | apply sublist_cons].
Qed.

(** ** handleCellToggle *)

Lemma idx_imap {A B} (f : nat → A → B) l i :
  idx (imap f l) i = f (Z.to_nat i) <$> idx l i.
Proof. unfold idx. destruct (0 <=? i); [apply list_lookup_imap | done]. Qed.

Lemma shape2_toggleCell g row col : shape2 (toggleCell g row col) = shape2 g.
Proof.
  unfold shape2, toggleCell. apply list_eq. intros i.
  rewrite !list_lookup_fmap, list_lookup_imap.
  destruct (g !! i) as [r|]; [|done]. cbn [fmap option_fmap option_map].
  destruct (Z.of_nat i =? row); [by rewrite length_imap | done].
Qed.

Lemma cellAt_toggleCell g row col r c :
  cellAt (toggleCell g row col) r c
  = if bool_decide ((r, c) = (row, col))
    then (λ v, if v =? 1 then 0 else 1) <$> cellAt g r c
    else cellAt g r c.
Proof.
  unfold cellAt, toggleCell. rewrite idx_imap.
  destruct (idx g r) as [gr|] eqn:Hr; cbn [fmap option_fmap option_map];
    [|by destruct (bool_decide _)].
  apply idx_Some in Hr as [Hr0 _]. rewrite Z2Nat.id by done.
  destruct (Z.eqb_spec r row) as [->|Hrow].
  - rewrite idx_imap. destruct (idx gr c) as [v|] eqn:Hc;
      cbn [fmap option_fmap option_map]; [|by destruct (bool_decide _)].
    apply idx_Some in Hc as [Hc0 _]. rewrite Z2Nat.id by done.
    destruct (Z.eqb_spec c col) as [->|Hcol].
    + by rewrite bool_decide_eq_true_2.
    + rewrite bool_decide_eq_false_2; [done | congruence].
  - rewrite bool_decide_eq_false_2; [done | congruence].
Qed.

Lemma binaryGrid_cellAt g r c v : binaryGrid g → cellAt g r c = Some v → v = 0 ∨ v = 1.
Proof.
  unfold binaryGrid, cellAt. intros Hb.
  destruct (idx g r) as [gr|] eqn:Hr; [|done].
  apply idx_Some in Hr as [_ Hr]. intros [_ Hc]%idx_Some.
  pose proof (Forall_lookup_1 _ _ _ _ Hb Hr) as Hgr.
  exact (Forall_lookup_1 _ _ _ _ Hgr Hc).
Qed.

Lemma toggleCell_twice g row col :
  binaryGrid g → toggleCell (toggleCell g row col) row col = g.
Proof.
  intros Hb. apply grid_ext; [by rewrite !shape2_toggleCell|]. intros r c.
  rewrite !cellAt_toggleCell. destruct (bool_decide _); [|done].
  destruct (cellAt g r c) as [v|] eqn:Hv; [|done].
  cbn [fmap option_fmap option_map].
  by destruct (binaryGrid_cellAt g r c v Hb Hv) as [-> | ->].
Qed.

Lemma binaryGrid_toggleCell g row col : binaryGrid g → binaryGrid (toggleCell g row col).
Proof.
  unfold binaryGrid, toggleCell. intros Hb. apply Forall_lookup. intros i gr.
  rewrite list_lookup_imap. destruct (g !! i) as [r0|] eqn:Hi; [|done].
  cbn [fmap option_fmap option_map]. intros [= <-].
  pose proof (Forall_lookup_1 _ _ _ _ Hb Hi) as Hr0.
  destruct (Z.of_nat i =? row); [|done]. apply Forall_lookup. intros j v.
  rewrite list_lookup_imap. destruct (r0 !! j) as [v0|] eqn:Hj; [|done].
  cbn [fmap option_fmap option_map]. intros [= <-].
  destruct (Z.of_nat j =? col); [|exact (Forall_lookup_1 _ _ _ _ Hr0 Hj)].
  destruct (v0 =? 1); tauto.
Qed.

(** X16. A toggle changes one cell of one drawing: in the drawing of the
    given view the cell (row, col), when it exists, becomes 0 if it held 1
    and 1 otherwise, every other cell keeps its value and the grid keeps its
    extents; the drawings of the other two views are returned unchanged. *)
Theorem X16_toggle_changes_one_cell (row col : Z) (viewType : ViewType)
    (prev : StudentDrawings) :
  (∀ r c,
     cellAt (drawingOf viewType (handleCellToggle row col viewType prev)) r c
     = if bool_decide ((r, c) = (row, col))
       then (λ v, if v =? 1 then 0 else 1) <$> cellAt (drawingOf viewType prev) r c
       else cellAt (drawingOf viewType prev) r c)
  ∧ shape2 (drawingOf viewType (handleCellToggle row col viewType prev))
    = shape2 (drawingOf viewType prev)
  ∧ (∀ v, v ≠ viewType →
          drawingOf v (handleCellToggle row col viewType prev) = drawingOf v prev).
Proof.
  split; [|split].
  - intros r c. destruct viewType; cbn [handleCellToggle drawingOf drawnFront
      drawnTop drawnSide]; apply cellAt_toggleCell.
  - destruct viewType; cbn [handleCellToggle drawingOf drawnFront drawnTop
      drawnSide]; apply shape2_toggleCell.
  - intros v Hv. by destruct viewType, v.
Qed.

(** X17. On drawings that hold only 0 and 1, as every grid the application
    builds does, a toggle keeps them so, and toggling the same cell twice
    restores the drawings. *)
Theorem X17_toggle_twice_restores (row col : Z) (viewType : ViewType)
    (prev : StudentDrawings) :
  binaryGrid (drawingOf viewType prev) →
  handleCellToggle row col viewType (handleCellToggle row col viewType prev) = prev
  ∧ binaryGrid (drawingOf viewType (handleCellToggle row col viewType prev)).
Proof.
  intros Hb. split.
  - destruct prev as [f t s].
    destruct viewType; cbn [handleCellToggle drawingOf drawnFront drawnTop drawnSide] in *;
      by rewrite toggleCell_twice.
  - destruct viewType; cbn [handleCellToggle drawingOf drawnFront drawnTop
      drawnSide] in *; by apply binaryGrid_toggleCell.
Qed.

Lemma X17_toggle_twice_restores_witness :
  handleCellToggle 2 5 ViewTop (handleCellToggle 2 5 ViewTop blankDrawings)
  = blankDrawings
  ∧ binaryGrid (drawingOf ViewTop (handleCellToggle 2 5 ViewTop blankDrawings)).
Proof.
  apply (X17_toggle_twice_restores 2 5 ViewTop blankDrawings).
  unfold binaryGrid. repeat (constructor; [repeat constructor|]). constructor.
Defined.

(** ** The marked cells of the three views *)

Lemma markAll_paint p f l g :
  markAll p f l g
  = fold_left (λ grid '(r, c), set2 grid (r - 0) (c - 0) 1)
      (filter (λ rc, inCanvas rc = true) (f <$> filter (λ b, hasBlock p b = true) l)) g.
Proof.
  unfold markAll. revert g. induction l as [|b l IH]; intros g; [done|].
  cbn [fold_left]. rewrite IH, filter_cons.
  destruct (hasBlock p b) eqn:Hb.
  - rewrite decide_True by done. rewrite fmap_cons, filter_cons.
    unfold markCell. destruct (f b) as [r c].
    change ((0 <=? r) && (r <? GRID_SIZE) && (0 <=? c) && (c <? GRID_SIZE))
      with (inCanvas (r, c)).
    destruct (inCanvas (r, c)) eqn:Hin.
    + rewrite decide_True by done. cbn [fold_left]. by rewrite !Z.sub_0_r.
    + by rewrite decide_False by congruence.
  - by rewrite decide_False by congruence.
Qed.

Lemma inCanvas_spec r c :
  inCanvas (r, c) = true ↔ 0 ≤ r < GRID_SIZE ∧ 0 ≤ c < GRID_SIZE.
Proof. unfold inCanvas. rewrite !andb_true_iff, !Z.leb_le, !Z.ltb_lt. lia. Qed.

Lemma cellAt_markAll p f r c :
  cellAt (markAll p f scan3 (createEmptyGrid GRID_SIZE GRID_SIZE)) r c
  = if inCanvas (r, c)
    then Some (if decide ((r, c) ∈ f <$> blocksOf p) then 1 else 0)
    else None.
Proof.
  rewrite markAll_paint. fold (blocksOf p). rewrite cellAt_paint2.
  - rewrite cellAt_createEmptyGrid_eq. fold (inCanvas (r, c)). rewrite !Z.add_0_r.
    destruct (inCanvas (r, c)) eqn:Hin.
    + destruct (decide _) as [Hm|Hm], (decide _) as [Hm'|Hm']; try done.
      * destruct Hm'. by apply list_elem_of_filter in Hm as [_ Hm].
      * destruct Hm. by apply list_elem_of_filter.
    + by destruct (decide _).
  - apply Forall_forall. intros [r' c'] [Hin _]%list_elem_of_filter.
    apply inCanvas_spec in Hin. cbn [fst snd]. lia.
Qed.

Lemma shape2_markAll p f l g : shape2 (markAll p f l g) = shape2 g.
Proof. rewrite markAll_paint. apply paint2_shape. Qed.

Lemma views_eq p d v :
  viewGrid v (calculateOrthographicProjections p d)
  = if (width d =? 0) || (height d =? 0) || (depth d =? 0)
    then createEmptyGrid GRID_SIZE GRID_SIZE
    else markAll p (forwardCell v (viewOffsets v (calculateOrthographicProjections p d)))
           scan3 (createEmptyGrid GRID_SIZE GRID_SIZE).
Proof.
  unfold calculateOrthographicProjections.
  destruct (_ || _); [by destruct v|].
  rewrite projectStep_split.
  by destruct v.
Qed.

Lemma cellsOf_blank : cellsOf (createEmptyGrid GRID_SIZE GRID_SIZE) = [].
Proof. vm_compute. reflexivity. Qed.

Lemma cellsOf_view p d v r c :
  (r, c) ∈ cellsOf (viewGrid v (calculateOrthographicProjections p d))
  ↔ (width d ≠ 0 ∧ height d ≠ 0 ∧ depth d ≠ 0)
    ∧ inCanvas (r, c) = true
    ∧ ∃ b, b ∈ blocksOf p
           ∧ forwardCell v (viewOffsets v (calculateOrthographicProjections p d)) b
             = (r, c).
Proof.
  rewrite views_eq.
  destruct (_ || _) eqn:Hz.
  - rewrite cellsOf_blank. rewrite !orb_true_iff, !Z.eqb_eq in Hz.
    split; [intros Hx; inversion Hx | tauto].
  - rewrite !orb_false_iff, !Z.eqb_neq in Hz.
    rewrite elem_of_cellsOf, hasCell_cellAt, cellAt_markAll, <- inCanvas_spec.
    destruct (inCanvas (r, c)); [|split; [intros [[=] _] | intros (_ & [=] & _)]].
    destruct (decide _) as [Hm|Hm].
    + apply list_elem_of_fmap in Hm as (b & Hf & Hb). split; [|tauto].
      intros _. split; [tauto|]. split; [done|]. eauto.
    + split; [intros [[=] _]|]. intros (_ & _ & b & Hb & Hf). destruct Hm.
      apply list_elem_of_fmap. eauto.
Qed.

Lemma binaryGrid_view p d v :
  hasExtent2 (viewGrid v (calculateOrthographicProjections p d)) GRID_SIZE GRID_SIZE
  ∧ ∀ r c, cellAt (viewGrid v (calculateOrthographicProjections p d)) r c
           = if inCanvas (r, c)
             then Some (if decide ((r, c) ∈ cellsOf
                            (viewGrid v (calculateOrthographicProjections p d)))
                        then 1 else 0)
             else None.
Proof.
  split.
  - rewrite views_eq. destruct (_ || _); [apply shape2_createEmptyGrid|].
    unfold hasExtent2. rewrite shape2_markAll. apply shape2_createEmptyGrid.
  - intros r c.
    destruct (decide _) as [Hm|Hm].
    + pose proof Hm as Hm'. apply elem_of_cellsOf in Hm' as (Hc & Hr).
      apply hasCell_cellAt in Hc. rewrite Hc.
      by rewrite (proj2 (inCanvas_spec r c) Hr).
    + revert Hm. rewrite elem_of_cellsOf, hasCell_cellAt, <- inCanvas_spec.
      rewrite views_eq. destruct (_ || _).
      * rewrite cellAt_createEmptyGrid_eq. fold (inCanvas (r, c)).
        by destruct (inCanvas (r, c)).
      * rewrite cellAt_markAll. destruct (inCanvas (r, c)); [|done].
        destruct (decide _); [|done]. intros Hm. destruct Hm. done.
Qed.

(** X18. The three views are GRID_SIZE x GRID_SIZE grids of 0 and 1, and
    their filled cells are known exactly: a canvas cell of a view holds 1 if
    and only if no dimension passed in is 0 and some occupied voxel is sent
    to that cell by the forward formula of the view with the returned
    offsets; a voxel whose image falls outside the canvas is dropped. *)
Theorem X18_views_exact (p : PolyCube) (d : Dimensions) (v : ViewType) (r c : Z) :
  hasExtent2 (viewGrid v (calculateOrthographicProjections p d)) GRID_SIZE GRID_SIZE
  ∧ cellAt (viewGrid v (calculateOrthographicProjections p d)) r c
    = (if inCanvas (r, c)
       then Some (if decide ((r, c) ∈ cellsOf
                      (viewGrid v (calculateOrthographicProjections p d)))
                  then 1 else 0)
       else None)
  ∧ ((r, c) ∈ cellsOf (viewGrid v (calculateOrthographicProjections p d))
     ↔ (width d ≠ 0 ∧ height d ≠ 0 ∧ depth d ≠ 0)
       ∧ inCanvas (r, c) = true
       ∧ ∃ b, b ∈ blocksOf p
              ∧ forwardCell v (viewOffsets v (calculateOrthographicProjections p d)) b
                = (r, c)).
Proof.
  destruct (binaryGrid_view p d v) as [Hs Hc].
  split; [exact Hs|]. split; [apply Hc | apply cellsOf_view].
Qed.

(** ** Views of a normalised cube *)

(** The size of a silhouette whose filled cells are the images of a list
    under a pair of coordinate functions. *)
Lemma image_size g (l : list BlockCoordinates) (ρ κ : BlockCoordinates → Z) mr Mr mc Mc :
  (∀ r c, (r, c) ∈ cellsOf g ↔ ∃ b, b ∈ l ∧ (ρ b, κ b) = (r, c)) →
  isMinOf ρ l mr → isMaxOf ρ l Mr → isMinOf κ l mc → isMaxOf κ l Mc →
  dimensions (normalize2DGrid g) = mkSize (Mc - mc + 1) (Mr - mr + 1).
Proof.
  intros Hcells H1 H2 H3 H4.
  assert (Hback : ∀ a, a ∈ cellsOf g → ∃ b, b ∈ l ∧ fst a = ρ b + 0 ∧ snd a = κ b + 0).
  { intros [r c] (b & Hb & [= <- <-])%Hcells. exists b. cbn [fst snd].
    split; [done | lia]. }
  assert (Hfwd : ∀ b, b ∈ l → ∃ a, a ∈ cellsOf g ∧ fst a = ρ b + 0 ∧ snd a = κ b + 0).
  { intros b Hb. exists (ρ b, κ b). cbn [fst snd]. split; [|lia].
    apply Hcells. eauto. }
  destruct (extremes2_unique g (mr + 0) (Mr + 0) (mc + 0) (Mc + 0))
    as (E1 & E2 & E3 & E4).
  - eapply isMinOf_shift; [| |exact H1].
    + intros a (b & Hb & Hr & _)%Hback. eauto.
    + intros b (a & Ha & Hr & _)%Hfwd. eauto.
  - eapply isMaxOf_shift; [| |exact H2].
    + intros a (b & Hb & Hr & _)%Hback. eauto.
    + intros b (a & Ha & Hr & _)%Hfwd. eauto.
  - eapply isMinOf_shift; [| |exact H3].
    + intros a (b & Hb & _ & Hc)%Hback. eauto.
    + intros b (a & Ha & _ & Hc)%Hfwd. eauto.
  - eapply isMaxOf_shift; [| |exact H4].
    + intros a (b & Hb & _ & Hc)%Hback. eauto.
    + intros b (a & Ha & _ & Hc)%Hfwd. eauto.
  - rewrite normalize2DGrid_size.
    + rewrite E1, E2, E3, E4. f_equal; lia.
    + destruct H1 as [(b & Hb & _) _]. destruct (Hfwd b Hb) as (a & Ha & _).
      intros E. rewrite E in Ha. inversion Ha.
Qed.

Lemma isMinOf_plus {A} (f : A → Z) l m k :
  isMinOf f l m → isMinOf (λ a, f a + k) l (m + k).
Proof. apply isMinOf_shift; eauto. Qed.

Lemma isMaxOf_plus {A} (f : A → Z) l m k :
  isMaxOf f l m → isMaxOf (λ a, f a + k) l (m + k).
Proof. apply isMaxOf_shift; eauto. Qed.

Lemma isMinOf_minus {A} (f : A → Z) l m k :
  isMaxOf f l m → isMinOf (λ a, k - f a) l (k - m).
Proof. apply isMinOf_flip; eauto. Qed.

Lemma isMaxOf_minus {A} (f : A → Z) l m k :
  isMinOf f l m → isMaxOf (λ a, k - f a) l (k - m).
Proof. apply isMaxOf_flip; eauto. Qed.

(** The offsets that centre a cube of the given dimensions. *)
Lemma offsets_eq p d :
  width d ≠ 0 → height d ≠ 0 → depth d ≠ 0 →
  frontOffsets (calculateOrthographicProjections p d)
  = mkOffsets ((GRID_SIZE - width d) `div` 2) ((GRID_SIZE - height d) `div` 2)
  ∧ topOffsets (calculateOrthographicProjections p d)
    = mkOffsets ((GRID_SIZE - depth d) `div` 2) ((GRID_SIZE - width d) `div` 2)
  ∧ sideOffsets (calculateOrthographicProjections p d)
    = mkOffsets ((GRID_SIZE - depth d) `div` 2) ((GRID_SIZE - height d) `div` 2).
Proof.
  intros Hw Hh Hd. unfold calculateOrthographicProjections.
  destruct (_ || _) eqn:Hz; [|done].
  rewrite !orb_true_iff, !Z.eqb_eq in Hz. tauto.
Qed.

Lemma forwardCell_eq v o b :
  forwardCell v o b
  = match v with
    | ViewFront => (GRID_SIZE - 1 - off_y o - yOf b, xOf b + off_x o)
    | ViewTop => (xOf b + off_y o, zOf b + off_x o)
    | ViewSide => (GRID_SIZE - 1 - off_y o - yOf b, zOf b + off_x o)
    end.
Proof.
  destruct b as [[x y] z], v; unfold forwardCell, frontCell, topCell, sideCell,
    xOf, yOf, zOf; cbn [fst snd]; f_equal; lia.
Qed.

Lemma normalized_origin p :
  blocksOf p ≠ [] → normalizePolyCube p = p → loX p = 0 ∧ loY p = 0 ∧ loZ p = 0.
Proof.
  intros Hne Hfix.
  destruct (normalizePolyCube_extremes p Hne) as (E1 & _ & E2 & _ & E3 & _).
  rewrite Hfix in E1, E2, E3. done.
Qed.

(** The size of the silhouette of a list of cells whose least coordinates
    are 0, whatever the offsets, when no image is dropped. *)
Lemma silhouette_size v g o l Mx My Mz :
  (∀ r c, (r, c) ∈ cellsOf g ↔ ∃ b, b ∈ l ∧ forwardCell v o b = (r, c)) →
  isMinOf xOf l 0 → isMaxOf xOf l Mx →
  isMinOf yOf l 0 → isMaxOf yOf l My →
  isMinOf zOf l 0 → isMaxOf zOf l Mz →
  dimensions (normalize2DGrid g)
  = match v with
    | ViewFront => mkSize (Mx + 1) (My + 1)
    | ViewTop => mkSize (Mz + 1) (Mx + 1)
    | ViewSide => mkSize (Mz + 1) (My + 1)
    end.
Proof.
  intros Hcells M1 N1 M2 N2 M3 N3.
  setoid_rewrite forwardCell_eq in Hcells.
  destruct v.
  - rewrite (image_size g l _ _ _ _ _ _ Hcells
               (isMinOf_minus yOf l My (GRID_SIZE - 1 - off_y o) N2)
               (isMaxOf_minus yOf l 0 (GRID_SIZE - 1 - off_y o) M2)
               (isMinOf_plus xOf l 0 (off_x o) M1)
               (isMaxOf_plus xOf l Mx (off_x o) N1)).
    f_equal; lia.
  - rewrite (image_size g l _ _ _ _ _ _ Hcells
               (isMinOf_plus xOf l 0 (off_y o) M1)
               (isMaxOf_plus xOf l Mx (off_y o) N1)
               (isMinOf_plus zOf l 0 (off_x o) M3)
               (isMaxOf_plus zOf l Mz (off_x o) N3)).
    f_equal; lia.
  - rewrite (image_size g l _ _ _ _ _ _ Hcells
               (isMinOf_minus yOf l My (GRID_SIZE - 1 - off_y o) N2)
               (isMaxOf_minus yOf l 0 (GRID_SIZE - 1 - off_y o) M2)
               (isMinOf_plus zOf l 0 (off_x o) M3)
               (isMaxOf_plus zOf l Mz (off_x o) N3)).
    f_equal; lia.
Qed.

Section NormalisedViews.
Variable p : PolyCube.
Hypothesis Hne : blocksOf p ≠ [].
Hypothesis Hfix : normalizePolyCube p = p.

Lemma normalized_dimensions :
  calculateDimensions p = mkDims (hiX p + 1) (hiY p + 1) (hiZ p + 1).
Proof.
  destruct (normalized_origin p Hne Hfix) as (Ex & Ey & Ez).
  rewrite calculateDimensions_nonempty by done. rewrite Ex, Ey, Ez. f_equal; lia.
Qed.

Lemma normalized_offsets :
  frontOffsets (calculateOrthographicProjections p (calculateDimensions p))
  = mkOffsets ((GRID_SIZE - (hiX p + 1)) `div` 2) ((GRID_SIZE - (hiY p + 1)) `div` 2)
  ∧ topOffsets (calculateOrthographicProjections p (calculateDimensions p))
    = mkOffsets ((GRID_SIZE - (hiZ p + 1)) `div` 2) ((GRID_SIZE - (hiX p + 1)) `div` 2)
  ∧ sideOffsets (calculateOrthographicProjections p (calculateDimensions p))
    = mkOffsets ((GRID_SIZE - (hiZ p + 1)) `div` 2) ((GRID_SIZE - (hiY p + 1)) `div` 2).
Proof.
  pose proof (extremes_range p Hne) as Hr.
  destruct (normalized_origin p Hne Hfix) as (Ex & Ey & Ez).
  rewrite normalized_dimensions.
  apply offsets_eq; cbn [width height depth]; lia.
Qed.

(** No voxel of a normalised cube is dropped by the range checks. *)
Lemma normalized_inCanvas v b :
  b ∈ blocksOf p →
  inCanvas (forwardCell v (viewOffsets v
              (calculateOrthographicProjections p (calculateDimensions p))) b) = true.
Proof.
  intros Hb. pose proof (extremes_range p Hne) as Hr.
  destruct (normalized_origin p Hne Hfix) as (Ex & Ey & Ez).
  destruct (extremes_spec p Hne) as ([_ L1] & [_ L2] & [_ L3] & [_ L4] & [_ L5] & [_ L6]).
  specialize (L1 b Hb). specialize (L2 b Hb). specialize (L3 b Hb).
  specialize (L4 b Hb). specialize (L5 b Hb). specialize (L6 b Hb).
  destruct normalized_offsets as (Of & Ot & Os).
  rewrite forwardCell_eq.
  pose proof (Z.div_pos (GRID_SIZE - (hiX p + 1)) 2 ltac:(lia) ltac:(lia)).
  pose proof (Z.div_pos (GRID_SIZE - (hiY p + 1)) 2 ltac:(lia) ltac:(lia)).
  pose proof (Z.div_pos (GRID_SIZE - (hiZ p + 1)) 2 ltac:(lia) ltac:(lia)).
  pose proof (Z.div_le_upper_bound (GRID_SIZE - (hiX p + 1)) 2
                (GRID_SIZE - (hiX p + 1)) ltac:(lia) ltac:(lia)).
  pose proof (Z.div_le_upper_bound (GRID_SIZE - (hiY p + 1)) 2
                (GRID_SIZE - (hiY p + 1)) ltac:(lia) ltac:(lia)).
  pose proof (Z.div_le_upper_bound (GRID_SIZE - (hiZ p + 1)) 2
                (GRID_SIZE - (hiZ p + 1)) ltac:(lia) ltac:(lia)).
  destruct v; cbn [viewOffsets]; rewrite ?Of, ?Ot, ?Os; cbn [off_x off_y];
    apply inCanvas_spec; lia.
Qed.

Lemma normalized_cells v r c :
  (r, c) ∈ cellsOf (viewGrid v (calculateOrthographicProjections p (calculateDimensions p)))
  ↔ ∃ b, b ∈ blocksOf p
         ∧ forwardCell v (viewOffsets v
             (calculateOrthographicProjections p (calculateDimensions p))) b = (r, c).
Proof.
  rewrite cellsOf_view. split; [intros (_ & _ & Hb); exact Hb|].
  intros (b & Hb & Hf). pose proof (extremes_range p Hne) as Hr.
  split; [|split; [|eauto]].
  - rewrite normalized_dimensions. cbn [width height depth]. lia.
  - rewrite <- Hf. by apply normalized_inCanvas.
Qed.

Lemma normalized_silhouettes :
  dimensions (normalize2DGrid
                (viewGrid ViewFront (calculateOrthographicProjections p (calculateDimensions p))))
  = mkSize (hiX p + 1) (hiY p + 1)
  ∧ dimensions (normalize2DGrid
                  (viewGrid ViewTop (calculateOrthographicProjections p (calculateDimensions p))))
    = mkSize (hiZ p + 1) (hiX p + 1)
  ∧ dimensions (normalize2DGrid
                  (viewGrid ViewSide (calculateOrthographicProjections p (calculateDimensions p))))
    = mkSize (hiZ p + 1) (hiY p + 1).
Proof.
  destruct (normalized_origin p Hne Hfix) as (Ex & Ey & Ez).
  destruct (extremes_spec p Hne) as (M1 & N1 & M2 & N2 & M3 & N3).
  rewrite Ex in M1. rewrite Ey in M2. rewrite Ez in M3.
  split; [|split].
  - apply (silhouette_size ViewFront _ _ _ _ _ _ (normalized_cells ViewFront)
             M1 N1 M2 N2 M3 N3).
  - apply (silhouette_size ViewTop _ _ _ _ _ _ (normalized_cells ViewTop)
             M1 N1 M2 N2 M3 N3).
  - apply (silhouette_size ViewSide _ _ _ _ _ _ (normalized_cells ViewSide)
             M1 N1 M2 N2 M3 N3).
Qed.
End NormalisedViews.

(** X19. For a normalised cube with a block, projected with its own
    dimensions, the centring never clips: every occupied voxel lands inside
    the canvas in each view, so a cell is filled exactly when some voxel is
    sent to it; and the silhouettes have the cube's extents, width by height
    in the front view, depth (columns) by width (rows) in the top view, depth
    by height in the side view. *)
Theorem X19_normalised_cube_views (p : PolyCube) :
  blocksOf p ≠ [] → normalizePolyCube p = p →
  (∀ v b, b ∈ blocksOf p →
     inCanvas (forwardCell v (viewOffsets v
         (calculateOrthographicProjections p (calculateDimensions p))) b) = true
     ∧ cellAt (viewGrid v (calculateOrthographicProjections p (calculateDimensions p)))
         (fst (forwardCell v (viewOffsets v
            (calculateOrthographicProjections p (calculateDimensions p))) b))
         (snd (forwardCell v (viewOffsets v
            (calculateOrthographicProjections p (calculateDimensions p))) b))
       = Some 1)
  ∧ dimensions (normalize2DGrid
        (viewGrid ViewFront (calculateOrthographicProjections p (calculateDimensions p))))
    = mkSize (width (calculateDimensions p)) (height (calculateDimensions p))
  ∧ dimensions (normalize2DGrid
        (viewGrid ViewTop (calculateOrthographicProjections p (calculateDimensions p))))
    = mkSize (depth (calculateDimensions p)) (width (calculateDimensions p))
  ∧ dimensions (normalize2DGrid
        (viewGrid ViewSide (calculateOrthographicProjections p (calculateDimensions p))))
    = mkSize (depth (calculateDimensions p)) (height (calculateDimensions p)).
Proof.
  intros Hne Hfix. split.
  - intros v b Hb. split; [by apply normalized_inCanvas|].
    apply hasCell_cellAt.
    assert (Hin : (fst (forwardCell v (viewOffsets v
                      (calculateOrthographicProjections p (calculateDimensions p))) b),
                   snd (forwardCell v (viewOffsets v
                      (calculateOrthographicProjections p (calculateDimensions p))) b))
                  ∈ cellsOf (viewGrid v
                      (calculateOrthographicProjections p (calculateDimensions p)))).
    { apply (normalized_cells p Hne Hfix). exists b. split; [done|].
      by destruct (forwardCell _ _ b). }
    by apply elem_of_cellsOf in Hin as [Hin _].
  - destruct (normalized_silhouettes p Hne Hfix) as (S1 & S2 & S3).
    rewrite S1, S2, S3, (normalized_dimensions p Hne Hfix). done.
Qed.

Lemma X19_normalised_cube_views_witness :
  (∀ v b, b ∈ blocksOf (toPolyCube [(0, 0, 0); (1, 0, 0); (1, 1, 0)]) →
     inCanvas (forwardCell v (viewOffsets v
         (calculateOrthographicProjections (toPolyCube [(0, 0, 0); (1, 0, 0); (1, 1, 0)])
            (calculateDimensions (toPolyCube [(0, 0, 0); (1, 0, 0); (1, 1, 0)])))) b)
     = true
     ∧ cellAt (viewGrid v
           (calculateOrthographicProjections (toPolyCube [(0, 0, 0); (1, 0, 0); (1, 1, 0)])
              (calculateDimensions (toPolyCube [(0, 0, 0); (1, 0, 0); (1, 1, 0)]))))
         (fst (forwardCell v (viewOffsets v
            (calculateOrthographicProjections (toPolyCube [(0, 0, 0); (1, 0, 0); (1, 1, 0)])
               (calculateDimensions (toPolyCube [(0, 0, 0); (1, 0, 0); (1, 1, 0)])))) b))
         (snd (forwardCell v (viewOffsets v
            (calculateOrthographicProjections (toPolyCube [(0, 0, 0); (1, 0, 0); (1, 1, 0)])
               (calculateDimensions (toPolyCube [(0, 0, 0); (1, 0, 0); (1, 1, 0)])))) b))
       = Some 1)
  ∧ dimensions (normalize2DGrid
        (viewGrid ViewFront (calculateOrthographicProjections
                  (toPolyCube [(0, 0, 0); (1, 0, 0); (1, 1, 0)])
                  (calculateDimensions (toPolyCube [(0, 0, 0); (1, 0, 0); (1, 1, 0)])))))
    = mkSize (width (calculateDimensions (toPolyCube [(0, 0, 0); (1, 0, 0); (1, 1, 0)])))
             (height (calculateDimensions (toPolyCube [(0, 0, 0); (1, 0, 0); (1, 1, 0)])))
  ∧ dimensions (normalize2DGrid
        (viewGrid ViewTop (calculateOrthographicProjections
                (toPolyCube [(0, 0, 0); (1, 0, 0); (1, 1, 0)])
                (calculateDimensions (toPolyCube [(0, 0, 0); (1, 0, 0); (1, 1, 0)])))))
    = mkSize (depth (calculateDimensions (toPolyCube [(0, 0, 0); (1, 0, 0); (1, 1, 0)])))
             (width (calculateDimensions (toPolyCube [(0, 0, 0); (1, 0, 0); (1, 1, 0)])))
  ∧ dimensions (normalize2DGrid
        (viewGrid ViewSide (calculateOrthographicProjections
                 (toPolyCube [(0, 0, 0); (1, 0, 0); (1, 1, 0)])
                 (calculateDimensions (toPolyCube [(0, 0, 0); (1, 0, 0); (1, 1, 0)])))))
    = mkSize (depth (calculateDimensions (toPolyCube [(0, 0, 0); (1, 0, 0); (1, 1, 0)])))
             (height (calculateDimensions (toPolyCube [(0, 0, 0); (1, 0, 0); (1, 1, 0)]))).
Proof.
  apply (X19_normalised_cube_views (toPolyCube [(0, 0, 0); (1, 0, 0); (1, 1, 0)])).
  - vm_compute. discriminate.
  - vm_compute. reflexivity.
Defined.

(** ** More on find3DBlocksFor2DCell *)

Lemma find3DBlocksFor2DCell_blocks p v row col o d :
  find3DBlocksFor2DCell p v row col o d
  = filter (λ b, forwardCell v o b = (row, col)) (blocksOf p).
Proof.
  rewrite find3DBlocksFor2DCell_filter. unfold blocksOf.
  rewrite list_filter_filter. apply list_filter_iff. intros b.
  rewrite andb_true_iff, projectsTo_forwardCell. tauto.
Qed.

(** X20. The inverse lookup returns the whole preimage of the cell: for a
    row, a column and offsets in the range where the arithmetic of the
    lookup is exact, the list holds exactly the occupied voxels that the
    forward formula of the view, with the offsets passed in, sends to
    (row, col), each once and in scan order, also for a cell outside the
    canvas. *)
Theorem X20_find3DBlocks_is_preimage (p : PolyCube) (v : ViewType) (row col : Z)
    (o : ViewOffsets) (d : Dimensions) :
  exactInteger row → exactInteger col →
  exactInteger (off_x o) → exactInteger (off_y o) →
  find3DBlocksFor2DCell p v row col o d
  = filter (λ b, forwardCell v o b = (row, col)) (blocksOf p)
  ∧ NoDup (find3DBlocksFor2DCell p v row col o d)
  ∧ ∀ b, b ∈ find3DBlocksFor2DCell p v row col o d
         ↔ b ∈ blocksOf p ∧ forwardCell v o b = (row, col).
Proof.
  intros _ _ _ _.
  rewrite find3DBlocksFor2DCell_blocks. split; [done|]. split.
  - apply NoDup_filter, NoDup_blocksOf.
  - intros b. rewrite list_elem_of_filter. tauto.
Qed.

Lemma X20_find3DBlocks_is_preimage_witness :
  find3DBlocksFor2DCell (toPolyCube [(0, 0, 0); (0, 0, 1); (1, 0, 0)]) ViewFront 4 3
    (mkOffsets 3 3) (mkDims 2 1 2)
  = filter (λ b, forwardCell ViewFront (mkOffsets 3 3) b = (4, 3))
      (blocksOf (toPolyCube [(0, 0, 0); (0, 0, 1); (1, 0, 0)]))
  ∧ NoDup (find3DBlocksFor2DCell (toPolyCube [(0, 0, 0); (0, 0, 1); (1, 0, 0)])
             ViewFront 4 3 (mkOffsets 3 3) (mkDims 2 1 2))
  ∧ ∀ b, b ∈ find3DBlocksFor2DCell (toPolyCube [(0, 0, 0); (0, 0, 1); (1, 0, 0)])
               ViewFront 4 3 (mkOffsets 3 3) (mkDims 2 1 2)
         ↔ b ∈ blocksOf (toPolyCube [(0, 0, 0); (0, 0, 1); (1, 0, 0)])
           ∧ forwardCell ViewFront (mkOffsets 3 3) b = (4, 3).
Proof.
  apply (X20_find3DBlocks_is_preimage (toPolyCube [(0, 0, 0); (0, 0, 1); (1, 0, 0)])
           ViewFront 4 3 (mkOffsets 3 3) (mkDims 2 1 2));
    unfold exactInteger; cbn [off_x off_y]; lia.
Defined.

(** X21. With the offsets returned for a view and dimensions that are not
    0, a canvas cell has a contributing block if and only if the view marks
    it: a cell left at 0 gets the empty list. *)
Theorem X21_blank_cell_has_no_block (p : PolyCube) (d : Dimensions) (v : ViewType)
    (row col : Z) :
  width d ≠ 0 ∧ height d ≠ 0 ∧ depth d ≠ 0 → inCanvas (row, col) = true →
  find3DBlocksFor2DCell p v row col
    (viewOffsets v (calculateOrthographicProjections p d)) d = []
  ↔ cellAt (viewGrid v (calculateOrthographicProjections p d)) row col = Some 0.
Proof.
  intros Hd Hin. rewrite find3DBlocksFor2DCell_blocks.
  destruct (binaryGrid_view p d v) as [_ Hc]. rewrite Hc, Hin.
  rewrite elem_of_nil_iff. destruct (decide _) as [Hm|Hm].
  - split; [|done]. intros Hnil.
    apply cellsOf_view in Hm as (_ & _ & b & Hb & Hf).
    destruct (Hnil b). by apply list_elem_of_filter.
  - split; [done|]. intros _ b [Hf Hb]%list_elem_of_filter. destruct Hm.
    apply cellsOf_view. eauto.
Qed.

Lemma X21_blank_cell_has_no_block_witness :
  find3DBlocksFor2DCell (toPolyCube [(0, 0, 0); (1, 0, 0); (1, 1, 0)]) ViewTop 0 0
    (viewOffsets ViewTop
       (calculateOrthographicProjections (toPolyCube [(0, 0, 0); (1, 0, 0); (1, 1, 0)])
          (mkDims 2 2 1))) (mkDims 2 2 1) = []
  ↔ cellAt (viewGrid ViewTop
              (calculateOrthographicProjections
                 (toPolyCube [(0, 0, 0); (1, 0, 0); (1, 1, 0)]) (mkDims 2 2 1))) 0 0
    = Some 0.
Proof.
  apply (X21_blank_cell_has_no_block (toPolyCube [(0, 0, 0); (1, 0, 0); (1, 1, 0)])
           (mkDims 2 2 1) ViewTop 0 0).
  - cbn [width height depth]. lia.
  - reflexivity.
Defined.

(** ** generateNewShape *)

Lemma normalize2DGrid_blankGrid :
  normalize2DGrid (createEmptyGrid GRID_SIZE GRID_SIZE) = mkNormalized2D [] (mkSize 0 0).
Proof. apply normalize2DGrid_blank, cellsOf_blank. Qed.

Lemma viewCorrect_blank t :
  viewCorrect (createEmptyGrid GRID_SIZE GRID_SIZE) t = true ↔ cellsOf t = [].
Proof.
  split.
  - intros Heq%viewCorrect_eq. rewrite normalize2DGrid_blankGrid in Heq.
    apply normalize2DGrid_blank_iff. by rewrite <- Heq.
  - intros E. apply viewCorrect_true.
    by rewrite normalize2DGrid_blankGrid, normalize2DGrid_blank.
Qed.

Lemma generated_normalised level src src' p :
  generateContiguousShape level src = (Some p, src') →
  blocksOf p ≠ [] ∧ normalizePolyCube p = p.
Proof.
  intros (bs & Hgrown & Hnd & Hgrid & _ & ->)%generateContiguousShape_Some.
  split; [|apply normalizePolyCube_idempotent].
  apply generated_nonempty; [by apply Grown_nonempty | done..].
Qed.

Lemma view_nonblank p v :
  blocksOf p ≠ [] → normalizePolyCube p = p →
  cellsOf (viewGrid v (calculateOrthographicProjections p (calculateDimensions p))) ≠ [].
Proof.
  intros Hne Hfix E. destruct (blocksOf p) as [|b bs] eqn:Hb; [done|].
  assert (Hin : b ∈ blocksOf p) by (rewrite Hb; left).
  destruct (forwardCell v (viewOffsets v
              (calculateOrthographicProjections p (calculateDimensions p))) b)
    as [r c] eqn:Hf.
  assert (Hc : (r, c) ∈ cellsOf (viewGrid v
                 (calculateOrthographicProjections p (calculateDimensions p)))).
  { apply (normalized_cells p); [by rewrite Hb | done | eauto]. }
  rewrite E in Hc. inversion Hc.
Qed.

(** X22. [generateNewShape] always stores a shape: the branch that reports a
    generation failure is never taken.  The stored dimensions are those of
    the stored cube, each view has a filled cell, the blank drawings of a new
    exercise fail the check in all three views, and drawings equal to the
    stored views pass it. *)
Theorem X22_new_shape_is_an_exercise (level : Level) (src : RandomSource) :
  ∃ shape src',
    generateNewShape level src = (Some shape, src')
    ∧ generateContiguousShape level src = (Some (polyCube shape), src')
    ∧ shapeDimensions shape = calculateDimensions (polyCube shape)
    ∧ views shape
      = calculateOrthographicProjections (polyCube shape) (shapeDimensions shape)
    ∧ (∀ v, cellsOf (viewGrid v (views shape)) ≠ [])
    ∧ validateDrawing blankDrawings (views shape)
      = mkValidation false [ViewFront; ViewTop; ViewSide]
    ∧ validateDrawing
        (mkDrawings (front (views shape)) (top (views shape)) (side (views shape)))
        (views shape)
      = mkValidation true [].
Proof.
  destruct (generateContiguousShape_total level src) as (p & src' & Hgen & _ & _).
  destruct (generated_normalised level src src' p Hgen) as [Hne Hfix].
  exists (mkShape p (calculateOrthographicProjections p (calculateDimensions p))
            (calculateDimensions p)), src'.
  cbn [polyCube views shapeDimensions].
  split; [by unfold generateNewShape, bind; rewrite Hgen|].
  split; [done|]. split; [done|]. split; [done|].
  pose proof (view_nonblank p ViewFront Hne Hfix) as NF.
  pose proof (view_nonblank p ViewTop Hne Hfix) as NT.
  pose proof (view_nonblank p ViewSide Hne Hfix) as NS.
  revert NF NT NS.
  generalize (calculateOrthographicProjections p (calculateDimensions p)).
  intros V NF NT NS. cbn [viewGrid] in NF, NT, NS.
  split; [by intros []|]. split.
  - rewrite validateDrawing_eq. cbn [blankDrawings drawnFront drawnTop drawnSide].
    assert (HF : viewCorrect (createEmptyGrid GRID_SIZE GRID_SIZE) (front V) = false).
    { apply not_true_iff_false. by rewrite viewCorrect_blank. }
    assert (HT : viewCorrect (createEmptyGrid GRID_SIZE GRID_SIZE) (top V) = false).
    { apply not_true_iff_false. by rewrite viewCorrect_blank. }
    assert (HS : viewCorrect (createEmptyGrid GRID_SIZE GRID_SIZE) (side V) = false).
    { apply not_true_iff_false. by rewrite viewCorrect_blank. }
    by rewrite HF, HT, HS.
  - rewrite validateDrawing_eq. cbn [drawnFront drawnTop drawnSide].
    by rewrite !viewCorrect_true.
Qed.

(** ** More on the isometric view *)

Section RenderedFaces.
Context `{JSMath}.

Lemma elem_of_drawFace_iff p b rx ry face d :
  d ∈ drawFace p b rx ry face
  ↔ d = mkDrawnFace b face (fst (faceStyle face)) (snd (faceStyle face))
    ∧ isNaturallyExposed p b face = true ∧ isFacingCamera face rx ry = true.
Proof.
  unfold drawFace. destruct (isNaturallyExposed p b face); cbn [negb].
  - destruct (isFacingCamera face rx ry).
    + destruct (faceStyle face) as [fill dashed]. cbn [fst snd].
      rewrite list_elem_of_singleton. tauto.
    + rewrite elem_of_nil. split; [done | intros (_ & _ & [=])].
  - rewrite elem_of_nil. split; [done | intros (_ & [=] & _)].
Qed.

Lemma original_drawable rx ry b : original (drawable rx ry b) = b.
Proof. by destruct b as [[x y] z]. Qed.

Lemma activeBlocks_eq p rx ry : activeBlocks p rx ry = drawable rx ry <$> blocksOf p.
Proof. unfold activeBlocks. by rewrite (fold_push_filter (hasBlock p) (drawable rx ry)). Qed.

Lemma render_eq p rx ry :
  blocksOf p ≠ [] →
  render p rx ry
  = block ← stableSort byDepth (drawable rx ry <$> blocksOf p);
    drawIsometricBlockFaces p (original block) rx ry.
Proof.
  intros Hne. unfold render. rewrite activeBlocks_eq.
  assert (Hlen : (length p =? 0)%nat = false).
  { destruct p as [|px p']; [|done]. destruct Hne. apply elem_of_nil_iff.
    intros [[x y] z] [Hb _]%elem_of_blocksOf. unfold hasBlock, idx in Hb.
    by destruct (0 <=? x). }
  assert (Hw : (width (calculateDimensions p) =? 0) = false).
  { apply Z.eqb_neq. pose proof (calculateDimensions_fits p Hne). lia. }
  by rewrite Hlen, Hw.
Qed.

Lemma render_empty p rx ry : blocksOf p = [] → render p rx ry = [].
Proof.
  intros E. unfold render. rewrite (calculateDimensions_empty p E).
  cbn [width]. by rewrite orb_true_r.
Qed.

Lemma elem_of_render_iff p rx ry d :
  d ∈ render p rx ry
  ↔ drawnBlock d ∈ blocksOf p
    ∧ drawnFace d ∈ UNIT_CUBE_FACES
    ∧ isNaturallyExposed p (drawnBlock d) (drawnFace d) = true
    ∧ isFacingCamera (drawnFace d) rx ry = true
    ∧ (drawnFill d, drawnDashed d) = faceStyle (drawnFace d).
Proof.
  destruct (decide (blocksOf p = [])) as [E|Hne].
  { rewrite render_empty, E by done. rewrite !elem_of_nil. tauto. }
  rewrite render_eq by done. rewrite list_elem_of_bind. split.
  - intros (blk & Hd & Hblk). apply elem_of_stableSort in Hblk.
    apply list_elem_of_fmap in Hblk as (b & -> & Hb).
    rewrite original_drawable in Hd. unfold drawIsometricBlockFaces in Hd.
    apply list_elem_of_bind in Hd as (face & Hd & Hface).
    apply elem_of_drawFace_iff in Hd as (-> & He & Hf).
    cbn [drawnBlock drawnFace drawnFill drawnDashed].
    by destruct (faceStyle face).
  - intros (Hb & Hface & He & Hf & Hstyle).
    exists (drawable rx ry (drawnBlock d)). split.
    + rewrite original_drawable. unfold drawIsometricBlockFaces.
      apply list_elem_of_bind. exists (drawnFace d). split; [|done].
      apply elem_of_drawFace_iff. split; [|done].
      rewrite <- Hstyle. by destruct d.
    + apply elem_of_stableSort, list_elem_of_fmap. eauto.
Qed.

Lemma isNaturallyExposed_iff p b face :
  isNaturallyExposed p b face = true ↔ addBlock b (normal face) ∉ blocksOf p.
Proof.
  split.
  - intros He Hin. by rewrite covered_face_not_exposed in He.
  - intros Hout. destruct (isNaturallyExposed p b face) eqn:He; [done|].
    destruct Hout. unfold isNaturallyExposed in He.
    destruct (addBlock b (normal face)) as [[nx ny] nz].
    rewrite !orb_false_iff, !Z.ltb_ge, !Z.leb_gt in He.
    destruct He as [Hrange Hv]. apply elem_of_blocksOf. split.
    + apply hasBlock_voxelAt. destruct (voxelAt p (nx, ny, nz)) as [v|]; [|done].
      apply negb_false_iff, Z.eqb_eq in Hv. by subst.
    + apply inGrid_spec. lia.
Qed.

Lemma facing_at_rest_iff face :
  face ∈ UNIT_CUBE_FACES →
  isFacingCamera face 0 0 = true ↔ face = topFace ∨ face = frontFace ∨ face = rightFace.
Proof.
  destruct facing_at_rest as (F1 & F2 & F3 & F4 & F5 & F6).
  unfold UNIT_CUBE_FACES. intros Hface.
  repeat (apply elem_of_cons in Hface as [->|Hface]); [..|by inversion Hface].
  - tauto.
  - rewrite F2. split; [done|]. intros [[=]|[[=]|[=]]].
  - tauto.
  - rewrite F4. split; [done|]. intros [[=]|[[=]|[=]]].
  - tauto.
  - rewrite F6. split; [done|]. intros [[=]|[[=]|[=]]].
Qed.
End RenderedFaces.

(** X23. The faces drawn by a run of the render effect are known exactly,
    at every rotation: a face is drawn if and only if the polyCube is the one
    the previous run stored, the canvas has its context, the block of the
    face is occupied, the face is one of the six faces of the unit cube, the
    cell next to it along its normal holds no block of the grid, and its
    rotated normal has a positive dot product with the view direction; the
    fill and the dashed outline are those of the face's style.  A run for a
    polyCube that has just changed, and a run for an empty solid, draw
    nothing. *)
Theorem X23_drawn_faces_exact `{JSMath} (hasContext : bool)
    (prevPolyCube : option PolyCube) (p : PolyCube) (rotationX rotationY : float)
    (d : DrawnFace) :
  d ∈ facesDrawn (renderEffect hasContext prevPolyCube p rotationX rotationY)
  ↔ prevPolyCube = Some p
    ∧ hasContext = true
    ∧ drawnBlock d ∈ blocksOf p
    ∧ drawnFace d ∈ UNIT_CUBE_FACES
    ∧ (addBlock (drawnBlock d) (normal (drawnFace d)) ∉ blocksOf p)
    ∧ isFacingCamera (drawnFace d) rotationX rotationY = true
    ∧ (drawnFill d, drawnDashed d) = faceStyle (drawnFace d).
Proof.
  rewrite renderEffect_drawing.
  destruct (bool_decide_reflect (prevPolyCube = Some p)) as [Hprev|Hprev];
    [destruct hasContext|]; cbn [andb].
  - rewrite elem_of_render_iff, isNaturallyExposed_iff. tauto.
  - rewrite elem_of_nil. split; [done | intros (_ & [=] & _)].
  - rewrite elem_of_nil. tauto.
Qed.

(** X24. At the angles (0, 0) a run of the render effect draws only top,
    front and right faces, for any solid: when the run draws at all (the
    polyCube is the one the previous run stored and the canvas has its
    context), it draws exactly the top, front and right faces of the occupied
    voxels that have no block next to them in that direction, each with a
    solid outline and the shade of its kind. *)
Theorem X24_faces_drawn_at_rest `{JSMath} (hasContext : bool)
    (prevPolyCube : option PolyCube) (p : PolyCube) (d : DrawnFace) :
  d ∈ facesDrawn (renderEffect hasContext prevPolyCube p 0 0)
  ↔ prevPolyCube = Some p
    ∧ hasContext = true
    ∧ drawnBlock d ∈ blocksOf p
    ∧ (addBlock (drawnBlock d) (normal (drawnFace d)) ∉ blocksOf p)
    ∧ ((drawnFace d = topFace ∧ drawnFill d = ShadeTop)
       ∨ (drawnFace d = frontFace ∧ drawnFill d = ShadeFront)
       ∨ (drawnFace d = rightFace ∧ drawnFill d = ShadeSide))
    ∧ drawnDashed d = false.
Proof.
  rewrite renderEffect_drawing.
  destruct (bool_decide_reflect (prevPolyCube = Some p)) as [Hprev|Hprev];
    [destruct hasContext|]; cbn [andb];
    [|rewrite elem_of_nil; split; [done | intros (_ & [=] & _)]
     |rewrite elem_of_nil; tauto].
  rewrite elem_of_render_iff, isNaturallyExposed_iff. split.
  - intros (Hb & Hface & He & Hf & Hstyle).
    apply (facing_at_rest_iff _ Hface) in Hf.
    split; [done|]. split; [done|]. split; [done|]. split; [done|].
    destruct Hf as [Hf|[Hf|Hf]]; rewrite Hf in Hstyle; injection Hstyle as -> ->;
      tauto.
  - intros (_ & _ & Hb & He & Hkind & Hdash). split; [done|].
    destruct d as [b face fill dashed].
    cbn [drawnBlock drawnFace drawnFill drawnDashed] in *. subst dashed.
    destruct facing_at_rest as (F1 & _ & F3 & _ & F5 & _).
    destruct Hkind as [[-> ->]|[[-> ->]|[-> ->]]];
      (split; [in_list; reflexivity|]); (split; [done|]); done.
Qed.

(** ** compareGridsForHint *)

Lemma hintStep_fold S T r l n :
  missingCells n ≤ missingCells (fold_left (hintStep S T r) l n)
  ∧ extraCells n ≤ extraCells (fold_left (hintStep S T r) l n)
  ∧ (missingCells (fold_left (hintStep S T r) l n)
     + extraCells (fold_left (hintStep S T r) l n)
     = missingCells n + extraCells n
     ↔ Forall (λ c, differs S T r c = false) l).
Proof.
  revert n. induction l as [|c l IH]; intros n; cbn [fold_left].
  { split; [lia|]. split; [lia|]. split; [by constructor | done]. }
  destruct (IH (hintStep S T r n c)) as (I1 & I2 & I3).
  rewrite Forall_cons. unfold differs at 1.
  unfold hintStep in I1, I2, I3 |- *.
  destruct (bool_decide (cellOrZero T r c = Some 1)
            && bool_decide (cellOrZero S r c = Some 0)) eqn:E1;
    [|destruct (bool_decide (cellOrZero T r c = Some 0)
                && bool_decide (cellOrZero S r c = Some 1)) eqn:E2];
    cbn [missingCells extraCells orb] in *;
    (split; [lia|]); (split; [lia|]).
  - split; [lia | intros [[=] _]].
  - split; [lia | intros [[=] _]].
  - rewrite I3. tauto.
Qed.

Lemma countDifferences_zero S T dims :
  (missingCells (countDifferences S T dims) = 0
   ∧ extraCells (countDifferences S T dims) = 0)
  ↔ Forall (λ r, Forall (λ c, differs S T r c = false) (seqZ 0 (size_width dims)))
      (seqZ 0 (size_height dims)).
Proof.
  unfold countDifferences.
  generalize (seqZ 0 (size_width dims)) (seqZ 0 (size_height dims)). intros cols rows.
  assert (Hgen : ∀ n,
    missingCells n ≤ missingCells
      (fold_left (λ n r, fold_left (hintStep S T r) cols n) rows n)
    ∧ extraCells n ≤ extraCells
        (fold_left (λ n r, fold_left (hintStep S T r) cols n) rows n)
    ∧ (missingCells (fold_left (λ n r, fold_left (hintStep S T r) cols n) rows n)
       + extraCells (fold_left (λ n r, fold_left (hintStep S T r) cols n) rows n)
       = missingCells n + extraCells n
       ↔ Forall (λ r, Forall (λ c, differs S T r c = false) cols) rows)).
  { induction rows as [|r rows IH]; intros n; cbn [fold_left].
    { split; [lia|]. split; [lia|]. split; [by constructor | done]. }
    destruct (IH (fold_left (hintStep S T r) cols n)) as (I1 & I2 & I3).
    destruct (hintStep_fold S T r cols n) as (J1 & J2 & J3).
    rewrite Forall_cons. split; [lia|]. split; [lia|].
    rewrite <- I3, <- J3. lia. }
  destruct (Hgen (mkHintCount 0 0)) as (G1 & G2 & G3).
  cbn [missingCells extraCells] in G1, G2, G3. rewrite <- G3. lia.
Qed.

Lemma hint_empty_iff (m e : bool) :
  trim (let feedback1 := if m then "" +:+ missingHint else "" in
        if e
        then (if bool_decide (feedback1 = "") then feedback1 else feedback1 +:+ " Also, ")
             +:+ extraHint
        else feedback1) = ""
  ↔ m = false ∧ e = false.
Proof.
  destruct m, e; vm_compute; split; try done; intros [? ?]; done.
Qed.

Lemma normalized_cell_binary g r c :
  cellsOf g ≠ [] →
  0 ≤ r < size_height (dimensions (normalize2DGrid g)) →
  0 ≤ c < size_width (dimensions (normalize2DGrid g)) →
  cellOrZero (normalizedGrid (normalize2DGrid g)) r c = Some 0
  ∨ cellOrZero (normalizedGrid (normalize2DGrid g)) r c = Some 1.
Proof.
  intros Hne. rewrite normalize2DGrid_size by done. cbn [size_width size_height].
  intros Hr Hc. pose proof (normalize2DGrid_cell_values g r c Hne) as Hv.
  replace (_ && _) with true in Hv
    by (symmetry; rewrite !andb_true_iff, !Z.leb_le, !Z.ltb_lt; lia).
  apply cellOrZero_cellAt in Hv. rewrite Hv. destruct (decide _); tauto.
Qed.

Lemma countDifferences_nonneg S T dims :
  0 ≤ missingCells (countDifferences S T dims)
  ∧ 0 ≤ extraCells (countDifferences S T dims).
Proof.
  unfold countDifferences.
  generalize (seqZ 0 (size_width dims)) (seqZ 0 (size_height dims)). intros cols rows.
  assert (Hgen : ∀ n, 0 ≤ missingCells n → 0 ≤ extraCells n →
    0 ≤ missingCells (fold_left (λ n r, fold_left (hintStep S T r) cols n) rows n)
    ∧ 0 ≤ extraCells (fold_left (λ n r, fold_left (hintStep S T r) cols n) rows n)).
  { induction rows as [|r rows IH]; intros n Hm He; cbn [fold_left]; [done|].
    destruct (hintStep_fold S T r cols n) as (J1 & J2 & _).
    apply IH; lia. }
  apply Hgen; cbn [missingCells extraCells]; lia.
Qed.

Lemma differs_false S T r c :
  (cellOrZero S r c = Some 0 ∨ cellOrZero S r c = Some 1) →
  (cellOrZero T r c = Some 0 ∨ cellOrZero T r c = Some 1) →
  differs S T r c = false ↔ cellOrZero S r c = cellOrZero T r c.
Proof.
  unfold differs. generalize (cellOrZero S r c) (cellOrZero T r c).
  intros x y [-> | ->] [-> | ->]; vm_compute; split; intros; congruence.
Qed.

(** With equal extents, no counted difference means the check of the view
    passes. *)
Lemma no_difference_iff s t :
  size_width (dimensions (normalize2DGrid s)) = size_width (dimensions (normalize2DGrid t)) →
  size_height (dimensions (normalize2DGrid s)) = size_height (dimensions (normalize2DGrid t)) →
  Forall (λ r, Forall (λ c, differs (normalizedGrid (normalize2DGrid s))
                               (normalizedGrid (normalize2DGrid t)) r c = false)
                  (seqZ 0 (size_width (dimensions (normalize2DGrid t)))))
    (seqZ 0 (size_height (dimensions (normalize2DGrid t))))
  ↔ forallb
      (λ r, forallb
              (λ c, bool_decide (cellOrZero (normalizedGrid (normalize2DGrid s)) r c
                                 = cellOrZero (normalizedGrid (normalize2DGrid t)) r c))
              (seqZ 0 (size_width (dimensions (normalize2DGrid t)))))
      (seqZ 0 (size_height (dimensions (normalize2DGrid t)))) = true.
Proof.
  intros Hw Hh.
  assert (Hcell : ∀ r c,
    r ∈ seqZ 0 (size_height (dimensions (normalize2DGrid t))) →
    c ∈ seqZ 0 (size_width (dimensions (normalize2DGrid t))) →
    differs (normalizedGrid (normalize2DGrid s)) (normalizedGrid (normalize2DGrid t)) r c
    = false
    ↔ cellOrZero (normalizedGrid (normalize2DGrid s)) r c
      = cellOrZero (normalizedGrid (normalize2DGrid t)) r c).
  { intros r c Hr%elem_of_seqZ Hc%elem_of_seqZ.
    assert (Hne' : cellsOf t ≠ []).
    { intros E%normalize2DGrid_blank_iff. lia. }
    assert (Hne : cellsOf s ≠ []).
    { intros E%normalize2DGrid_blank_iff. rewrite Hw in E.
      by apply normalize2DGrid_blank_iff in E. }
    apply differs_false.
    - apply normalized_cell_binary; [exact Hne | rewrite Hh; lia | rewrite Hw; lia].
    - apply normalized_cell_binary; [exact Hne' | lia | lia]. }
  revert Hcell.
  generalize (seqZ 0 (size_width (dimensions (normalize2DGrid t))))
    (seqZ 0 (size_height (dimensions (normalize2DGrid t))))
    (normalizedGrid (normalize2DGrid s)) (normalizedGrid (normalize2DGrid t)).
  intros cols rows S T Hcell.
  rewrite forallb_forall, Forall_forall. split.
  - intros Hall r Hr%list_elem_of_In. apply forallb_forall.
    intros c Hc%list_elem_of_In. apply bool_decide_eq_true.
    apply Hcell; [done..|]. specialize (Hall r Hr).
    rewrite Forall_forall in Hall. by apply Hall.
  - intros Hall r Hr. apply Forall_forall. intros c Hc.
    apply Hcell; [done..|].
    specialize (Hall r (proj1 (list_elem_of_In _ _) Hr)).
    rewrite forallb_forall in Hall.
    specialize (Hall c (proj1 (list_elem_of_In _ _) Hc)).
    by apply bool_decide_eq_true in Hall.
Qed.

Lemma compareGridsForHint_empty s t :
  compareGridsForHint s t = "" ↔ viewCorrect s t = true.
Proof.
  unfold compareGridsForHint, viewCorrect. cbv zeta.
  destruct (negb _ || negb _) eqn:Hd.
  { split; [|done]. intros Hx. vm_compute in Hx. done. }
  apply orb_false_iff in Hd as [Hw Hh].
  apply negb_false_iff, Z.eqb_eq in Hw. apply negb_false_iff, Z.eqb_eq in Hh.
  rewrite <- (no_difference_iff s t Hw Hh).
  rewrite <- countDifferences_zero.
  pose proof (countDifferences_nonneg (normalizedGrid (normalize2DGrid s))
                (normalizedGrid (normalize2DGrid t)) (dimensions (normalize2DGrid t)))
    as Hpos.
  revert Hpos.
  generalize (countDifferences (normalizedGrid (normalize2DGrid s))
                (normalizedGrid (normalize2DGrid t)) (dimensions (normalize2DGrid t))).
  intros n Hpos.
  pose proof (hint_empty_iff (0 <? missingCells n) (0 <? extraCells n)) as Hempty.
  cbv zeta in Hempty. rewrite Hempty, !Z.ltb_ge. lia.
Qed.

(** X25. The hint text for a view is empty exactly when the view passes
    the check of [validateDrawing]: whenever a view is reported as
    incorrect, [compareGridsForHint] names a mismatch of the outline, missing
    blocks or extra blocks; and it reports the outline whenever the two
    normalised extents differ. *)
Theorem X25_hint_empty_iff_view_correct (studentGrid correctGrid : OrthographicGridState) :
  (compareGridsForHint studentGrid correctGrid = ""
   ↔ viewCorrect studentGrid correctGrid = true)
  ∧ (compareGridsForHint studentGrid correctGrid = outlineHint
     ↔ dimensions (normalize2DGrid studentGrid)
       ≠ dimensions (normalize2DGrid correctGrid)).
Proof.
  split; [apply compareGridsForHint_empty|].
  unfold compareGridsForHint. cbv zeta.
  destruct (negb _ || negb _) eqn:Hd.
  - split; [|intros _; vm_compute; reflexivity].
    intros _ Heq. rewrite Heq, !Z.eqb_refl in Hd. done.
  - apply orb_false_iff in Hd as [Hw Hh].
    apply negb_false_iff, Z.eqb_eq in Hw. apply negb_false_iff, Z.eqb_eq in Hh.
    split.
    + intros Hx. exfalso. revert Hx.
      generalize (countDifferences (normalizedGrid (normalize2DGrid studentGrid))
                    (normalizedGrid (normalize2DGrid correctGrid))
                    (dimensions (normalize2DGrid correctGrid))).
      intros n. destruct (0 <? missingCells n), (0 <? extraCells n);
        vm_compute; intros [=].
    + intros Hneq. destruct Hneq.
      destruct (dimensions (normalize2DGrid studentGrid)),
        (dimensions (normalize2DGrid correctGrid)).
      cbn [size_width size_height] in Hw, Hh. by subst.
Qed.

(** ** Views of a rotated cube *)

Lemma viewOffsets_front V : viewOffsets ViewFront V = frontOffsets V.
Proof. reflexivity. Qed.

Lemma viewOffsets_side V : viewOffsets ViewSide V = sideOffsets V.
Proof. reflexivity. Qed.

Lemma rotated_normalised p :
  blocksOf p ≠ [] →
  blocksOf (rotatePolyCube90 p) ≠ []
  ∧ normalizePolyCube (rotatePolyCube90 p) = rotatePolyCube90 p.
Proof.
  intros Hne. split; [by rewrite rotatePolyCube90_empty_iff|].
  rewrite rotatePolyCube90_eq. apply normalizePolyCube_idempotent.
Qed.

Lemma rotated_front_cells p r c :
  blocksOf p ≠ [] → normalizePolyCube p = p →
  (r, c) ∈ cellsOf (viewGrid ViewFront
             (calculateOrthographicProjections (rotatePolyCube90 p)
                (calculateDimensions (rotatePolyCube90 p))))
  ↔ (r, c) ∈ cellsOf (viewGrid ViewSide
               (calculateOrthographicProjections p (calculateDimensions p))).
Proof.
  intros Hne Hfix. destruct (rotated_normalised p Hne) as [HneR HfixR].
  rewrite (normalized_cells _ HneR HfixR), (normalized_cells _ Hne Hfix).
  rewrite viewOffsets_front, viewOffsets_side.
  destruct (normalized_offsets _ HneR HfixR) as (-> & _ & _).
  destruct (normalized_offsets _ Hne Hfix) as (_ & _ & ->).
  destruct (rotatePolyCube90_extremes p Hne) as (_ & -> & _ & -> & _ & _).
  destruct (normalized_origin p Hne Hfix) as (Ex & Ey & Ez).
  rewrite Ey, Ez, !Z.sub_0_r.
  setoid_rewrite forwardCell_eq. cbn [off_x off_y].
  split.
  - intros (b' & Hb' & Hf). apply (rotatePolyCube90_blocks p b' Hne) in Hb'.
    destruct Hb' as (a & Ha & ->). exists a. split; [done|].
    rewrite <- Hf, Ey, Ez. unfold xOf, yOf, zOf. cbn [fst snd]. f_equal; lia.
  - intros (a & Ha & Hf).
    exists (zOf a - loZ p, yOf a - loY p, hiX p - xOf a). split.
    + apply (rotatePolyCube90_blocks p _ Hne). eauto.
    + rewrite <- Hf, Ey, Ez. unfold xOf, yOf, zOf. cbn [fst snd]. f_equal; lia.
Qed.

Lemma view_ext p d v p' d' v' :
  (∀ r c, (r, c) ∈ cellsOf (viewGrid v (calculateOrthographicProjections p d))
          ↔ (r, c) ∈ cellsOf (viewGrid v' (calculateOrthographicProjections p' d'))) →
  viewGrid v (calculateOrthographicProjections p d)
  = viewGrid v' (calculateOrthographicProjections p' d').
Proof.
  intros Hsame.
  destruct (binaryGrid_view p d v) as [S1 C1].
  destruct (binaryGrid_view p' d' v') as [S2 C2].
  revert Hsame S1 C1 S2 C2.
  generalize (viewGrid v (calculateOrthographicProjections p d))
    (viewGrid v' (calculateOrthographicProjections p' d')).
  intros g g' Hsame S1 C1 S2 C2. apply grid_ext.
  - unfold hasExtent2 in S1, S2. by rewrite S1, S2.
  - intros r c. rewrite C1, C2. destruct (inCanvas (r, c)); [|done]. f_equal.
    destruct (decide _) as [Hin|Hout], (decide _) as [Hin'|Hout']; try done.
    + by apply Hsame in Hin.
    + by apply Hsame in Hin'.
Qed.

(** X26. Turning a normalised solid by a quarter turn brings its side into
    view: the front view of [rotatePolyCube90 p], projected with its own
    dimensions, is cell for cell the side view of [p], and the offsets of the
    two views agree. *)
Theorem X26_front_of_rotated_is_side (p : PolyCube) :
  blocksOf p ≠ [] → normalizePolyCube p = p →
  viewGrid ViewFront (calculateOrthographicProjections (rotatePolyCube90 p)
                        (calculateDimensions (rotatePolyCube90 p)))
  = viewGrid ViewSide (calculateOrthographicProjections p (calculateDimensions p))
  ∧ viewOffsets ViewFront (calculateOrthographicProjections (rotatePolyCube90 p)
                             (calculateDimensions (rotatePolyCube90 p)))
    = viewOffsets ViewSide (calculateOrthographicProjections p (calculateDimensions p)).
Proof.
  intros Hne Hfix. split.
  - apply view_ext. intros r c. by apply rotated_front_cells.
  - destruct (rotated_normalised p Hne) as [HneR HfixR].
    rewrite viewOffsets_front, viewOffsets_side.
    destruct (normalized_offsets _ HneR HfixR) as (-> & _ & _).
    destruct (normalized_offsets _ Hne Hfix) as (_ & _ & ->).
    destruct (rotatePolyCube90_extremes p Hne) as (_ & -> & _ & -> & _ & _).
    destruct (normalized_origin p Hne Hfix) as (Ex & Ey & Ez).
    by rewrite Ey, Ez, !Z.sub_0_r.
Qed.

Lemma X26_front_of_rotated_is_side_witness :
  viewGrid ViewFront
    (calculateOrthographicProjections
       (rotatePolyCube90 (toPolyCube [(0, 0, 0); (1, 0, 0); (1, 1, 0); (1, 1, 1)]))
       (calculateDimensions
          (rotatePolyCube90 (toPolyCube [(0, 0, 0); (1, 0, 0); (1, 1, 0); (1, 1, 1)]))))
  = viewGrid ViewSide
      (calculateOrthographicProjections
         (toPolyCube [(0, 0, 0); (1, 0, 0); (1, 1, 0); (1, 1, 1)])
         (calculateDimensions (toPolyCube [(0, 0, 0); (1, 0, 0); (1, 1, 0); (1, 1, 1)])))
  ∧ viewOffsets ViewFront
      (calculateOrthographicProjections
         (rotatePolyCube90 (toPolyCube [(0, 0, 0); (1, 0, 0); (1, 1, 0); (1, 1, 1)]))
         (calculateDimensions
            (rotatePolyCube90 (toPolyCube [(0, 0, 0); (1, 0, 0); (1, 1, 0); (1, 1, 1)]))))
    = viewOffsets ViewSide
        (calculateOrthographicProjections
           (toPolyCube [(0, 0, 0); (1, 0, 0); (1, 1, 0); (1, 1, 1)])
           (calculateDimensions (toPolyCube [(0, 0, 0); (1, 0, 0); (1, 1, 0); (1, 1, 1)]))).
Proof.
  apply (X26_front_of_rotated_is_side
           (toPolyCube [(0, 0, 0); (1, 0, 0); (1, 1, 0); (1, 1, 1)])).
  - vm_compute. discriminate.
  - vm_compute. reflexivity.
Defined.
